(** * xml.js: a shallow embedding of the parser, the node model and the mapper

    The development follows the layout of the TypeScript sources:
    - [util.ts]    entity encoding and the conversion to plain objects,
    - [node.ts]    [XmlName], [XmlElement] (queries, searches, [filterOut],
                   serialisation, and the parent/children store with
                   [addChild], [detach], [deleteChild] and [XmlElement.of]),
    - [parser.ts]  the [Lexer] class and the recursive-descent [parseXml],
    - [map.ts]     [XmlElementMapperBuilder.build] and [xmlTextOnlyMapper].

    JavaScript strings are sequences of UTF-16 code units; they are modelled
    as [list N].  Exceptions are modelled by an explicit outcome type. *)

From Stdlib Require Import NArith ZArith List Ascii String Bool Lia Arith.
From Stdlib Require Import DecimalString.
From stdpp Require Import base option list functions.
Import ListNotations.

Local Set Warnings "-register-all".
Local Open Scope nat_scope.

(* ===================================================================== *)
(** * JavaScript strings                                                   *)
(* ===================================================================== *)

(** A UTF-16 code unit. *)
Abbreviation jschar := N (only parsing).

(** A JavaScript string: its sequence of code units. *)
Abbreviation jsstring := (list N) (only parsing).

Definition chr (a : ascii) : jschar := N_of_ascii a.
Arguments chr a%_char.

(** Literals: an ASCII literal read as a JavaScript string. *)
Definition str (s : string) : jsstring := map N_of_ascii (list_ascii_of_string s).
Arguments str s%_string.

Definition LF : jschar := 10%N.
Definition CR : jschar := 13%N.
Definition TAB : jschar := 9%N.
Definition SPACE : jschar := 32%N.
Definition DQUOTE : jschar := 34%N.

Definition jschar_eqb (a b : jschar) : bool := N.eqb a b.

Fixpoint jsstring_eqb (a b : jsstring) : bool :=
  match a, b with
  | [], [] => true
  | x :: a', y :: b' => jschar_eqb x y && jsstring_eqb a' b'
  | _, _ => false
  end.

(** [charset.includes(c)] for a one-character string [c]. *)
Definition includes (charset : jsstring) (c : jschar) : bool :=
  existsb (jschar_eqb c) charset.

(** [s.replaceAll(c, by)] for a one-character pattern [c]. *)
Definition replaceAll (c : jschar) (by_ : jsstring) (s : jsstring) : jsstring :=
  flat_map (fun x => if jschar_eqb x c then by_ else [x]) s.

(** [parts.join('')]. *)
Definition join (parts : list jsstring) : jsstring := concat parts.

(** [s.split(sep)] for a one-character separator: the pieces between the
    occurrences of [sep]; a string without [sep] (the empty string too) is
    one piece. *)
Fixpoint strSplit (sep : jschar) (s : jsstring) : list jsstring :=
  match s with
  | [] => [[]]
  | c :: s' =>
      if jschar_eqb c sep then [] :: strSplit sep s'
      else match strSplit sep s' with
           | piece :: pieces => (c :: piece) :: pieces
           | [] => [[c]]
           end
  end.

(** White space and line terminators removed by [String.prototype.trim]. *)
Definition isTrimSpace (c : jschar) : bool :=
  ((9 <=? c) && (c <=? 13) || (c =? 32) || (c =? 160) || (c =? 5760)
   || (8192 <=? c) && (c <=? 8202) || (c =? 8232) || (c =? 8233)
   || (c =? 8239) || (c =? 8287) || (c =? 12288) || (c =? 65279))%N.

Fixpoint trimStart (s : jsstring) : jsstring :=
  match s with
  | c :: s' => if isTrimSpace c then trimStart s' else s
  | [] => []
  end.

Definition trim (s : jsstring) : jsstring :=
  rev (trimStart (rev (trimStart s))).

(** Truthiness of a string: non-empty. *)
Definition truthy (s : jsstring) : bool :=
  match s with [] => false | _ => true end.

(** [`${n}`] for a non-negative integer. *)
Definition decimal (n : N) : jsstring := str (NilZero.string_of_uint (N.to_uint n)).

(** [`${z}`] for an integer. *)
Definition decimalZ (z : Z) : jsstring :=
  match z with
  | Zneg p => chr "-" :: decimal (Npos p)
  | _ => decimal (Z.to_N z)
  end.

(** Modelled from the spec: [ValuePath] of the external package
    [@wzlin/valid] is not under src/; it is the "structured path" that
    qualifies every failure, here the list of its components. *)
Definition ValuePath := list jsstring.

(** The JavaScript error classes thrown by the library, plus [TypeError],
    which the runtime throws on a property access on [undefined], and the
    error built by [path.isBadAsIt(message)]. *)
Inductive Exn :=
| XmlParseError (description : jsstring) (line col : nat)
| TypeError
| RangeError (message : jsstring)
| ReferenceError (message : jsstring)
| Error (message : jsstring)
| ValidationError (path : ValuePath) (message : jsstring).

(** The outcome of running a piece of code: a value, a thrown exception, or
    (for the fuel-indexed loops of the model only) exhausted fuel. *)
Inductive Outcome (A : Type) :=
| Ok (a : A)
| Throw (e : Exn)
| OutOfFuel.
Arguments Ok {A} a.
Arguments Throw {A} e.
Arguments OutOfFuel {A}.

(* ===================================================================== *)
(** * util.ts                                                              *)
(* ===================================================================== *)

Definition encodeXmlEntities (raw : jsstring) : jsstring :=
  replaceAll (chr ">") (str "&gt;")
    (replaceAll (chr "'") (str "&apos;")
      (replaceAll DQUOTE (str "&quot;")
        (replaceAll (chr "<") (str "&lt;")
          (replaceAll (chr "&") (str "&amp;") raw)))).

(* ===================================================================== *)
(** * node.ts: names and the element tree                                  *)
(* ===================================================================== *)

Record XmlName := mkXmlName { prefix : jsstring; name : jsstring }.

Module XmlName.
Definition toString (n : XmlName) : jsstring :=
  if truthy (prefix n) then prefix n ++ chr ":" :: name n else name n.

Definition equals (a b : XmlName) : bool :=
  jsstring_eqb (prefix a) (prefix b) && jsstring_eqb (name a) (name b).

(** [fromQName]: [n.split(":", 2)] keeps the first two pieces at most (what
    follows a second colon is dropped); a single piece gets the empty
    prefix.  ([split] never gives an empty array: the last case is not
    reached.) *)
Definition fromQName (n : jsstring) : XmlName :=
  match take 2 (strSplit (chr ":") n) with
  | [part] => mkXmlName [] part
  | p0 :: p1 :: _ => mkXmlName p0 p1
  | [] => mkXmlName [] []
  end.

Definition hashCode (n : XmlName) : jsstring := toString n.
End XmlName.

(** The tree of nodes as a value: an element with its name, its attribute
    pairs in order and its child nodes in order.  The [parent] link of the
    objects is the subject of the store model in [Module Store] below. *)
Inductive XmlNode :=
| Text (s : jsstring)
| Elem (e : XmlElement)
with XmlElement :=
| mkXmlElement (ename : XmlName) (attrs : list (XmlName * jsstring))
               (children : list XmlNode).

Definition ename (e : XmlElement) : XmlName := let 'mkXmlElement n _ _ := e in n.
Definition attrs (e : XmlElement) := let 'mkXmlElement _ a _ := e in a.
Definition children (e : XmlElement) := let 'mkXmlElement _ _ c := e in c.

(** The query record [{ id?: string; name?: string }]. *)
Record XmlQuery := mkXmlQuery { q_id : option jsstring; q_name : option jsstring }.

(** [assertMatched(query, result)].  The message quotes
    [JSON.stringify(query)], whose text depends on the order in which the
    caller wrote the keys of the query object; the record [XmlQuery] does
    not keep that order, so the rendered query [json] is an argument. *)
Definition assertMatched (json : jsstring) (result : option XmlElement)
  : Outcome XmlElement :=
  match result with
  | None =>
      Throw (ReferenceError
               (str "No XML elements could be found matching the query " ++ json))
  | Some found => Ok found
  end.

(** [atMostOne(iterator)] on the values the iterator yields: the first
    value, [undefined] when there is none, and an exception when a second
    value follows. *)
Definition atMostOne {V} (iterator : list V) : Outcome (option V) :=
  match iterator with
  | [] => Ok None
  | [one] => Ok (Some one)
  | _ :: _ :: _ =>
      Throw (ReferenceError
               (str "More than one element found; for safety reasons, at most one element can match"))
  end.

Module XmlElement.

(** [toString]: [children.join('')] renders a text child as the string
    itself and an element child through its own [toString]. *)
Fixpoint toString (e : XmlElement) : jsstring :=
  match e with
  | mkXmlElement n a c =>
      join ([str "<"; XmlName.toString n]
            ++ map (fun '(an, value) =>
                      str " " ++ XmlName.toString an ++ str "=" ++ [DQUOTE] ++
                      encodeXmlEntities value ++ [DQUOTE]) a
            ++ [match c with
                | [] => str "/>"
                | _ :: _ => str ">" ++ join (map nodeToString c) ++ str "</"
                            ++ XmlName.toString n ++ str ">"
                end])
  end
with nodeToString (c : XmlNode) : jsstring :=
  match c with
  | Text s => s
  | Elem e => toString e
  end.

(** [attrs.find(([name]) => name.name === "ID")]. *)
Definition findIdAttr (e : XmlElement) : option (XmlName * jsstring) :=
  List.find (fun '(n, _) => jsstring_eqb (name n) (str "ID")) (attrs e).

(** [matches(q)] for a query record [q].  (The overload taking an element
    compares object identity and belongs to the store model.) *)
Definition matches (q : XmlQuery) (e : XmlElement) : bool :=
  if match q_id q with
     | Some id =>
         match findIdAttr e with
         | Some (_, v) => jsstring_eqb v id
         | None => false
         end
     | None => false
     end
  then true
  else if match q_name q with
          | Some nm => jsstring_eqb (name (ename e)) nm
          | None => false
          end
  then true
  else false.

(** [addChild(child)] with the default position on an element value whose
    [child] is a string or a freshly constructed element: the child is
    appended (the bounds check and the parent check cannot fail). *)
Definition appendChild (e : XmlElement) (c : XmlNode) : XmlElement :=
  mkXmlElement (ename e) (attrs e) (children e ++ [c]).


(** [filterOut(unselector)] for a query record: a copy of the element
    without the descendant elements that match; text children are kept.
    (Every [addChild] of the loop appends a string or an element just
    built, so none can throw.) *)
Fixpoint filterOut (unselector : XmlQuery) (e : XmlElement) : XmlElement :=
  match e with
  | mkXmlElement n a cs =>
      mkXmlElement n a
        ((fix loop (cs : list XmlNode) : list XmlNode :=
            match cs with
            | [] => []
            | Text child :: cs' => Text child :: loop cs'
            | Elem child :: cs' =>
                if negb (matches unselector child)
                then Elem (filterOut unselector child) :: loop cs'
                else loop cs'
            end) cs)
  end.

(** [getAttributeValueOrThrow(name)]. *)
Definition getAttributeValueOrThrow (nm : jsstring) (e : XmlElement) : Outcome jsstring :=
  match List.find (fun '(n, _) => jsstring_eqb (name n) nm) (attrs e) with
  | None => Throw (ReferenceError (str "No attribute found with name " ++ nm))
  | Some (_, value) => Ok value
  end.

(** The loop of the generator [findChildren(q)]: the elements it yields,
    in order. *)
Fixpoint findChildren_loop (q : XmlQuery) (cs : list XmlNode) : list XmlElement :=
  match cs with
  | [] => []
  | Text _ :: cs' => findChildren_loop q cs'
  | Elem c :: cs' =>
      if matches q c then c :: findChildren_loop q cs' else findChildren_loop q cs'
  end.

Definition findChildren (q : XmlQuery) (e : XmlElement) : list XmlElement :=
  findChildren_loop q (children e).

Definition findAtMostOneChild (q : XmlQuery) (e : XmlElement)
  : Outcome (option XmlElement) :=
  atMostOne (findChildren q e).

Definition findAtMostOneChildOrThrow (json : jsstring) (q : XmlQuery) (e : XmlElement)
  : Outcome XmlElement :=
  match findAtMostOneChild q e with
  | Ok found => assertMatched json found
  | Throw ex => Throw ex
  | OutOfFuel => OutOfFuel
  end.

(** The generator [findDescendants(q)]: the elements it yields, in order;
    a child is yielded before [yield*] hands over to its own
    descendants. *)
Fixpoint findDescendants (q : XmlQuery) (e : XmlElement) : list XmlElement :=
  match e with
  | mkXmlElement _ _ cs =>
      (fix loop (cs : list XmlNode) : list XmlElement :=
         match cs with
         | [] => []
         | Text _ :: cs' => loop cs'
         | Elem c :: cs' =>
             (if matches q c then [c] else []) ++ findDescendants q c ++ loop cs'
         end) cs
  end.

Definition findAtMostOneDescendant (q : XmlQuery) (e : XmlElement)
  : Outcome (option XmlElement) :=
  atMostOne (findDescendants q e).

Definition findAtMostOneDescendantOrThrow (json : jsstring) (q : XmlQuery) (e : XmlElement)
  : Outcome XmlElement :=
  match findAtMostOneDescendant q e with
  | Ok found => assertMatched json found
  | Throw ex => Throw ex
  | OutOfFuel => OutOfFuel
  end.

(** [combinedText]: the text children, joined. *)
Definition combinedText (e : XmlElement) : jsstring :=
  join (flat_map (fun c => match c with Text s => [s] | Elem _ => [] end) (children e)).
End XmlElement.

(* ===================================================================== *)
(** * util.ts: plain objects                                               *)
(* ===================================================================== *)

(** [Object.fromEntries(entries)]: the own properties of the object, in
    the order in which the keys were first set; a later entry for a key
    replaces the value. *)
Fixpoint setEntry (key value : jsstring) (props : list (jsstring * jsstring))
  : list (jsstring * jsstring) :=
  match props with
  | [] => [(key, value)]
  | (k, w) :: props' =>
      if jsstring_eqb k key then (k, value) :: props'
      else (k, w) :: setEntry key value props'
  end.

Definition fromEntries (entries : list (jsstring * jsstring)) : list (jsstring * jsstring) :=
  fold_left (fun props '(k, v) => setEntry k v props) entries [].

(** [object[key]]. *)
Fixpoint getEntry (key : jsstring) (props : list (jsstring * jsstring)) : option jsstring :=
  match props with
  | [] => None
  | (k, w) :: props' => if jsstring_eqb k key then Some w else getEntry key props'
  end.

(** [XmlElementPojo]. *)
Inductive XmlElementPojo :=
| mkPojo (pname : jsstring) (pattrs : list (jsstring * jsstring))
         (pchildren : list PojoNode)
with PojoNode :=
| PText (s : jsstring)
| PElem (p : XmlElementPojo).

Definition pname (p : XmlElementPojo) := let 'mkPojo n _ _ := p in n.
Definition pattrs (p : XmlElementPojo) := let 'mkPojo _ a _ := p in a.
Definition pchildren (p : XmlElementPojo) := let 'mkPojo _ _ c := p in c.

Fixpoint toPojo (elem : XmlElement) : XmlElementPojo :=
  match elem with
  | mkXmlElement n a cs =>
      mkPojo (XmlName.toString n)
        (fromEntries (map (fun '(n, v) => (XmlName.toString n, v)) a))
        (map (fun c => match c with
                       | Text c => PText c
                       | Elem c => PElem (toPojo c)
                       end) cs)
  end.

(* ===================================================================== *)
(** * parser.ts: the lexer                                                 *)
(* ===================================================================== *)

Record Lexer := mkLexer { src : jsstring; next : nat; line : nat; col : nat }.

(** [new Lexer(src)]. *)
Definition newLexer (s : jsstring) : Lexer :=
  {| src := s; next := 0; line := 1; col := 0 |}.

(** Code running against a lexer: the lexer is threaded through, an
    exception ends the run. *)
Definition P (A : Type) : Type := Lexer -> Outcome (A * Lexer).

Definition ret {A} (a : A) : P A := fun l => Ok (a, l).

Definition bind {A B} (m : P A) (k : A -> P B) : P B :=
  fun l => match m l with
           | Ok (a, l') => k a l'
           | Throw e => Throw e
           | OutOfFuel => OutOfFuel
           end.

Notation "'let*' x ':=' m 'in' k" := (bind m (fun x => k))
  (at level 10, x pattern, m at level 100, k at level 200).
Notation "m ';;' k" := (bind m (fun _ => k))
  (at level 100, k at level 200, right associativity).

Definition err (msg : jsstring) (l : Lexer) : Exn :=
  XmlParseError msg (line l) (col l).

(** [throw this.err(msg)]. *)
Definition throwErr {A} (msg : jsstring) : P A := fun l => Throw (err msg l).

Definition throw {A} (e : Exn) : P A := fun _ => Throw e.

Definition peek : P (option jschar) := fun l => Ok (src l !! next l, l).

Definition isEnd : P bool :=
  let* c := peek in ret (match c with None => true | Some _ => false end).

(** [this.src[this.next - 1] !== "\r"]; index [-1] reads [undefined]. *)
Definition prevIsNotCR (l : Lexer) : bool :=
  match next l with
  | 0 => true
  | S i => match src l !! i with
           | Some c => negb (jschar_eqb c CR)
           | None => true
           end
  end.

Definition consumeOrEnd : P (option jschar) := fun l =>
  match src l !! next l with
  | None => Ok (None, l)
  | Some char =>
      let l1 :=
        if jschar_eqb char CR || (jschar_eqb char LF && prevIsNotCR l)
        then {| src := src l; next := next l; line := S (line l); col := 0 |}
        else if negb (jschar_eqb char LF)
        then {| src := src l; next := next l; line := line l; col := S (col l) |}
        else l in
      Ok (Some char,
          {| src := src l1; next := S (next l1); line := line l1; col := col l1 |})
  end.

Definition consume : P jschar :=
  let* b := consumeOrEnd in
  match b with
  | None => throwErr (str "Unexpected end")
  | Some b => ret b
  end.

Definition expect (c : jschar) : P unit :=
  let* b := consume in
  if negb (jschar_eqb b c)
  then throwErr (str "Expected " ++ [c] ++ str " but got " ++ [b])
  else ret tt.

Definition expectOneOf (charset : jsstring) : P jschar :=
  let* got := consume in
  if negb (includes charset got)
  then throwErr (str "Expected one of {" ++ charset ++ str "} but got " ++ [got])
  else ret got.

Definition maybeExpect (c : jschar) : P bool :=
  let* b := peek in
  match b with
  | Some b' => if jschar_eqb c b' then (consume ;; ret true) else ret false
  | None => ret false
  end.

Definition maybeExpectOneOf (c : jsstring) : P (option jschar) :=
  let* b := peek in
  match b with
  | Some b' => if includes c b' then (let* x := consume in ret (Some x)) else ret None
  | None => ret None
  end.

Definition maybeExpectNotOneOf (c : jsstring) : P (option jschar) :=
  let* b := peek in
  match b with
  | Some b' => if negb (includes c b') then (let* x := consume in ret (Some x)) else ret None
  | None => let* x := consume in ret (Some x)
  end.

(** Every loop of the lexer consumes one character per iteration; the
    model runs it with one more unit of fuel than there are characters
    left. *)
Definition remaining (l : Lexer) : nat := length (src l) - next l.

Fixpoint consumeWhile_loop (fuel : nat) (charset : jsstring) (chars : list jsstring)
  : P jsstring :=
  match fuel with
  | 0 => fun _ => OutOfFuel
  | S fuel' =>
      let* char := maybeExpectOneOf charset in
      match char with
      | Some c => consumeWhile_loop fuel' charset (chars ++ [[c]])
      | None => ret (join chars)
      end
  end.

Definition consumeWhile (charset : jsstring) : P jsstring :=
  fun l => consumeWhile_loop (S (remaining l)) charset [] l.

Fixpoint expectOneOrMoreOf_loop (fuel : nat) (charset : jsstring) (matches : list jsstring)
  : P (list jsstring) :=
  match fuel with
  | 0 => fun _ => OutOfFuel
  | S fuel' =>
      let* char := maybeExpectOneOf charset in
      match char with
      | Some c => expectOneOrMoreOf_loop fuel' charset (matches ++ [[c]])
      | None => ret matches
      end
  end.

Definition expectOneOrMoreOf (charset : jsstring) (expectName : jsstring) : P jsstring :=
  let* matches := (fun l => expectOneOrMoreOf_loop (S (remaining l)) charset [] l) in
  match matches with
  | [] => throwErr (str "Expected " ++ expectName)
  | _ :: _ => ret (join matches)
  end.

Definition skipIf (c : jschar) : P bool :=
  let* b := peek in
  match b with
  | Some b' => if jschar_eqb b' c then (consume ;; ret true) else ret false
  | None => ret false
  end.

Fixpoint skipWhile_loop (fuel : nat) (charset : jsstring) (count : nat) : P nat :=
  match fuel with
  | 0 => fun _ => OutOfFuel
  | S fuel' =>
      let* char := maybeExpectOneOf charset in
      match char with
      | Some _ => skipWhile_loop fuel' charset (S count)
      | None => ret count
      end
  end.

Definition skipWhile (charset : jsstring) : P nat :=
  fun l => skipWhile_loop (S (remaining l)) charset 0 l.

Fixpoint skipUntil_loop (fuel : nat) (charset : jsstring) (count : nat) : P nat :=
  match fuel with
  | 0 => fun _ => OutOfFuel
  | S fuel' =>
      let* char := maybeExpectNotOneOf charset in
      match char with
      | Some _ => skipUntil_loop fuel' charset (S count)
      | None => ret count
      end
  end.

Definition skipUntil (charset : jsstring) : P nat :=
  fun l => skipUntil_loop (S (remaining l)) charset 0 l.

(* ===================================================================== *)
(** * parser.ts: entities, names, content                                  *)
(* ===================================================================== *)

(** [r(from, to)]: the characters from [from] to [to], both included. *)
Definition r (from to : jschar) : jsstring :=
  map N.of_nat (seq (N.to_nat from) (N.to_nat to + 1 - N.to_nat from)).

Definition LOWERCASE : jsstring := r (chr "a") (chr "z").
Definition UPPERCASE : jsstring := r (chr "A") (chr "Z").
Definition DIGIT : jsstring := r (chr "0") (chr "9").
Definition HEX : jsstring := r (chr "a") (chr "f") ++ r (chr "A") (chr "F") ++ DIGIT.
Definition ALPHANUMERIC : jsstring := LOWERCASE ++ UPPERCASE ++ DIGIT.
Definition WHITESPACE : jsstring := [SPACE; CR; LF; TAB].
Definition QUOTE : jsstring := [chr "'"; DQUOTE].

(** [ENTITY_REFS[name]] for a name of lower-case letters: [None] stands for
    a value on which [.charCodeAt(0)] raises a [TypeError], that is
    [undefined] for a name that is not a key, and the inherited
    [Object.prototype.constructor] function for the name ["constructor"]
    (the only inherited property whose name is all lower-case letters). *)
Definition ENTITY_REFS (nm : jsstring) : option jsstring :=
  if jsstring_eqb nm (str "amp") then Some (str "&")
  else if jsstring_eqb nm (str "apos") then Some (str "'")
  else if jsstring_eqb nm (str "gt") then Some (str ">")
  else if jsstring_eqb nm (str "lt") then Some (str "<")
  else if jsstring_eqb nm (str "quot") then Some [DQUOTE]
  else None.

(** The value of a digit in [Number.parseInt]. *)
Definition digitValue (c : jschar) : N :=
  if ((chr "0" <=? c) && (c <=? chr "9"))%N then c - chr "0"
  else if ((chr "a" <=? c) && (c <=? chr "z"))%N then c - chr "a" + 10
  else if ((chr "A" <=? c) && (c <=? chr "Z"))%N then c - chr "A" + 10
  else 0.

(** [Number.parseInt(num, radix)] on a non-empty string of digits of the
    radix. *)
Definition parseInt (radix : N) (num : jsstring) : N :=
  fold_left (fun acc c => acc * radix + digitValue c)%N num 0%N.

(** [String.fromCodePoint(cp)]: [None] stands for the [RangeError] raised
    above U+10FFFF; a code point above U+FFFF gives a surrogate pair. *)
Definition fromCodePoint (cp : N) : option jsstring :=
  if (1114111 <? cp)%N then None
  else if (cp <? 65536)%N then Some [cp]
  else Some [55296 + (cp - 65536) / 1024; 56320 + (cp - 65536) mod 1024]%N.

Definition parseName : P XmlName :=
  let* nm := expectOneOrMoreOf ALPHANUMERIC (str "element/attribute name") in
  let* colon := maybeExpect (chr ":") in
  if negb colon then ret (mkXmlName [] nm)
  else
    let* local := expectOneOrMoreOf ALPHANUMERIC (str "prefixed element/attribute name") in
    ret (mkXmlName nm local).

Definition parseEntity : P jsstring :=
  expect (chr "&") ;;
  let* cp :=
    (let* hash := skipIf (chr "#") in
     if hash then
       let* x := skipIf (chr "x") in
       let* hex := (if x then ret true else skipIf (chr "X")) in
       if hex then
         let* num := consumeWhile HEX in
         if (length num <? 1) || (6 <? length num)
         then throwErr (str "Hexadecimal entity is invalid")
         else ret (parseInt 16 num)
       else
         let* num := consumeWhile DIGIT in
         if (length num <? 1) || (7 <? length num)
         then throwErr (str "Decimal entity is invalid")
         else ret (parseInt 10 num)
     else
       let* nm := consumeWhile LOWERCASE in
       match ENTITY_REFS nm with
       | None => throw TypeError
       | Some s =>
           match s with
           | c :: _ =>
               if (c =? 0)%N then throwErr (str "Invalid entity reference: " ++ nm)
               else ret c
           | [] => throwErr (str "Invalid entity reference: " ++ nm)
           end
       end) in
  expect (chr ";") ;;
  match fromCodePoint cp with
  | Some s => ret s
  | None => throwErr (str "Entity refers to invalid Unicode code point " ++ decimal cp)
  end.

Fixpoint parseTextOrValue_loop (fuel : nat) (delimiter : jschar) (parts : list jsstring)
  : P jsstring :=
  match fuel with
  | 0 => fun _ => OutOfFuel
  | S fuel' =>
      let* c := peek in
      match c with
      | None => ret (join parts)
      | Some c =>
          if jschar_eqb c delimiter then ret (join parts)
          else if jschar_eqb c (chr "&") then
            let* s := parseEntity in
            parseTextOrValue_loop fuel' delimiter (parts ++ [s])
          else
            let* x := consume in
            parseTextOrValue_loop fuel' delimiter (parts ++ [[x]])
      end
  end.

Definition parseTextOrValue (delimiter : jschar) : P jsstring :=
  fun l => parseTextOrValue_loop (S (remaining l)) delimiter [] l.

(** The loop that skips a processing instruction. *)
Fixpoint skipInstruction_loop (fuel : nat) : P unit :=
  match fuel with
  | 0 => fun _ => OutOfFuel
  | S fuel' =>
      skipUntil (DQUOTE :: str "?") ;;
      let* quoted := skipIf DQUOTE in
      if quoted then
        skipUntil [DQUOTE] ;;
        expect DQUOTE ;;
        skipInstruction_loop fuel'
      else
        expect (chr "?") ;;
        expect (chr ">") ;;
        ret tt
  end.

(** The loop over the attributes of an opening tag; the result is the
    attribute array and [selfClosing]. *)
Fixpoint openingTag_loop (fuel : nat) (attrs : list (XmlName * jsstring))
  : P (list (XmlName * jsstring) * bool) :=
  match fuel with
  | 0 => fun _ => OutOfFuel
  | S fuel' =>
      skipWhile WHITESPACE ;;
      let* slash := skipIf (chr "/") in
      if slash then
        expect (chr ">") ;;
        ret (attrs, true)
      else
        let* gt := skipIf (chr ">") in
        if gt then ret (attrs, false)
        else
          let* attrName := parseName in
          skipWhile WHITESPACE ;;
          expect (chr "=") ;;
          skipWhile WHITESPACE ;;
          let* attrQuote := expectOneOf QUOTE in
          let* attrValue := parseTextOrValue attrQuote in
          expect attrQuote ;;
          openingTag_loop fuel' (attrs ++ [(attrName, attrValue)])
  end.

(** The processing-instruction loop and the opening-tag loop, started with
    the fuel of the input left. *)
Definition skipInstruction : P unit :=
  fun l => skipInstruction_loop (S (remaining l)) l.

Definition openingTag : P (list (XmlName * jsstring) * bool) :=
  fun l => openingTag_loop (S (remaining l)) [] l.

(** [parseContent(l, parentElem)]; the mutated [parentElem] is returned.
    The fuel bounds the iterations of the loop and the nesting depth. *)
Fixpoint parseContent (fuel : nat) (parentElem : XmlElement) : P XmlElement :=
  match fuel with
  | 0 => fun _ => OutOfFuel
  | S fuel' =>
      let* text := parseTextOrValue (chr "<") in
      if truthy text then
        parseContent fuel' (XmlElement.appendChild parentElem (Text text))
      else
        let* atEnd := isEnd in
        if atEnd then ret parentElem
        else
          expect (chr "<") ;;
          let* bang := skipIf (chr "!") in
          if bang then
            skipUntil (str ">") ;;
            expect (chr ">") ;;
            parseContent fuel' parentElem
          else
            let* question := skipIf (chr "?") in
            if question then
              skipInstruction ;;
              parseContent fuel' parentElem
            else
              let* isClosing := skipIf (chr "/") in
              let* nm := parseName in
              if isClosing then
                if negb (truthy (name (ename parentElem)))
                then throwErr (str "Unexpected closing tag")
                else if negb (XmlName.equals nm (ename parentElem))
                then throwErr (str "Mismatched closing tag; expected "
                               ++ XmlElement.toString parentElem
                               ++ str " but got " ++ XmlName.toString nm)
                else
                  skipWhile WHITESPACE ;;
                  expect (chr ">") ;;
                  ret parentElem
              else
                let* tag := openingTag in
                let '(attrs, selfClosing) := tag in
                let elem := mkXmlElement nm attrs [] in
                let* elem' := (if negb selfClosing then parseContent fuel' elem
                               else ret elem) in
                parseContent fuel' (XmlElement.appendChild parentElem (Elem elem'))
  end.

(** The loop of [parseXml] over the children of the dummy root. *)
Fixpoint selectRoot (cs : list XmlNode) (root : option XmlElement)
  : Outcome (option XmlElement) :=
  match cs with
  | [] => Ok root
  | Text c :: cs' =>
      if truthy (trim c)
      then Throw (XmlParseError (str "XML document has top-level non-whitespace text") 1 0)
      else selectRoot cs' root
  | Elem c :: cs' =>
      match root with
      | Some _ => Throw (XmlParseError (str "XML document has multiple top level elements") 1 0)
      | None => selectRoot cs' (Some c)
      end
  end.

Definition parseXml (xml : jsstring) : Outcome XmlElement :=
  let dummyRoot := mkXmlElement (mkXmlName [] []) [] [] in
  match parseContent (S (length xml)) dummyRoot (newLexer xml) with
  | Ok (dummyRoot', _) =>
      match selectRoot (children dummyRoot') None with
      | Ok (Some root) => Ok root
      | Ok None => Throw (XmlParseError (str "XML document does not have root element") 1 0)
      | Throw e => Throw e
      | OutOfFuel => OutOfFuel
      end
  | Throw e => Throw e
  | OutOfFuel => OutOfFuel
  end.

(* ===================================================================== *)
(** * node.ts: element objects, their parent link and child array          *)
(* ===================================================================== *)

(** [XmlElement] objects are mutable and shared by reference: an element is
    held by its parent's [children] array and points back through
    [parent].  The store maps a reference to the state of its object. *)
Module Store.

Definition ref := nat.

(** An [XmlNode] held in a [children] array: a string or a reference to
    an element object. *)
Inductive Node :=
| NText (s : jsstring)
| NElem (r : ref).

Global Instance Node_eq_dec : EqDecision Node.
Proof. solve_decision. Defined.

Record Obj := mkObj {
  parent : option ref;
  name : XmlName;
  attrs : list (XmlName * jsstring);
  children : list Node
}.

Definition store := ref -> Obj.

Definition setParent (o : Obj) (p : option ref) : Obj :=
  {| parent := p; name := name o; attrs := attrs o; children := children o |}.

Definition setChildren (o : Obj) (cs : list Node) : Obj :=
  {| parent := parent o; name := name o; attrs := attrs o; children := cs |}.

(** A method call: it may mutate the store and returns or throws. *)
Definition Method (A : Type) : Type := store -> Outcome A * store.

(** [new XmlElement(parent, name, attrs)] placing the object at the
    reference [r]. *)
Definition new (r : ref) (p : option ref) (n : XmlName)
    (a : list (XmlName * jsstring)) (σ : store) : store :=
  <[r := mkObj p n a []]> σ.

(** [Number.isSafeInteger(pos)] for an integral [pos]. *)
Definition isSafeInteger (pos : Z) : bool :=
  ((- (2 ^ 53 - 1) <=? pos) && (pos <=? 2 ^ 53 - 1))%Z.

(** [array.splice(pos, 0, x)] for [0 <= pos <= array.length]. *)
Definition splice_insert {A} (pos : nat) (x : A) (l : list A) : list A :=
  take pos l ++ x :: drop pos l.

(** [array.splice(pos, 1)] for [0 <= pos < array.length]. *)
Definition splice_delete {A} (pos : nat) (l : list A) : list A :=
  take pos l ++ drop (S pos) l.

(** [children.findIndex((c) => c === child)] for an element [child]. *)
Fixpoint findIndex (child : ref) (cs : list Node) : Z :=
  match cs with
  | [] => (-1)%Z
  | c :: cs' =>
      if decide (c = NElem child) then 0%Z
      else match findIndex child cs' with
           | Zneg _ => (-1)%Z
           | i => (i + 1)%Z
           end
  end.

(** [this.addChild(child, pos)]; [pos = None] is the default argument
    [this.children.length]. *)
Definition addChild (this : ref) (child : Node) (pos : option Z) : Method unit :=
  fun σ =>
    let pos := match pos with
               | Some p => p
               | None => Z.of_nat (length (children (σ this)))
               end in
    if negb (isSafeInteger pos) || (pos <? 0)%Z
       || (Z.of_nat (length (children (σ this))) <? pos)%Z
    then (Throw (RangeError (str "Cannot add child at out-of-bounds position "
                             ++ decimalZ pos)), σ)
    else
      match child with
      | NText _ =>
          (Ok tt,
           <[this := setChildren (σ this)
                       (splice_insert (Z.to_nat pos) child (children (σ this)))]> σ)
      | NElem c =>
          match parent (σ c) with
          | Some _ =>
              (Throw (ReferenceError (str "Cannot add child that already has parent")), σ)
          | None =>
              let σ1 := <[c := setParent (σ c) (Some this)]> σ in
              (Ok tt,
               <[this := setChildren (σ1 this)
                           (splice_insert (Z.to_nat pos) child (children (σ1 this)))]> σ1)
          end
      end.

(** [this.deleteChild(child)]. *)
Definition deleteChild (this : ref) (child : ref) : Method Z :=
  fun σ =>
    let pos := findIndex child (children (σ this)) in
    if (-1 <? pos)%Z then
      let σ1 := <[this := setChildren (σ this)
                            (splice_delete (Z.to_nat pos) (children (σ this)))]> σ in
      (Ok pos, <[child := setParent (σ1 child) None]> σ1)
    else (Ok pos, σ).

(** [this.detach()]. *)
Definition detach (this : ref) : Method (ref * Z) :=
  fun σ =>
    match parent (σ this) with
    | None =>
        (Throw (Error (str "XML element does not have a parent and cannot be detached")), σ)
    | Some p =>
        match deleteChild p this σ with
        | (Ok pos, σ') => (Ok (p, pos), σ')
        | (Throw e, σ') => (Throw e, σ')
        | (OutOfFuel, σ') => (OutOfFuel, σ')
        end
    end.

(** The loop of [XmlElement.of] over the children given. *)
Fixpoint of_loop (elem : ref) (children : list Node) : Method unit :=
  fun σ =>
    match children with
    | [] => (Ok tt, σ)
    | c :: children' =>
        match addChild elem c None σ with
        | (Ok _, σ') => of_loop elem children' σ'
        | (Throw e, σ') => (Throw e, σ')
        | (OutOfFuel, σ') => (OutOfFuel, σ')
        end
    end.

(** [XmlElement.of(qName, attrs, children)], the new object being placed
    at the reference [r].  [attrs] lists the entries of the attribute
    object as [Object.entries] gives them, [None] standing for a value
    that is [undefined]. *)
Definition of_ (r : ref) (qName : jsstring) (attrs : list (jsstring * option jsstring))
    (children : list Node) : Method ref :=
  fun σ =>
    let elem :=
      new r None (XmlName.fromQName qName)
        (omap (fun '(qName, value) =>
                 match value with
                 | Some v => Some (XmlName.fromQName qName, v)
                 | None => None
                 end) attrs) σ in
    match of_loop r children elem with
    | (Ok _, σ') => (Ok r, σ')
    | (Throw e, σ') => (Throw e, σ')
    | (OutOfFuel, σ') => (OutOfFuel, σ')
    end.

(** The invariant of the data model tying [parent] to [children]: an
    element with a parent occurs exactly once among that parent's
    children, and every element held in a [children] array has the
    holder as its parent. *)
Definition attached (σ : store) : Prop :=
  (∀ c p, parent (σ c) = Some p → count_occ Node_eq_dec (children (σ p)) (NElem c) = 1)
  ∧ (∀ p c, NElem c ∈ children (σ p) → parent (σ c) = Some p).

(** A reference that nothing points to yet, as a freshly allocated
    object is. *)
Definition unreferenced (σ : store) (r : ref) : Prop :=
  (∀ p, NElem r ∉ children (σ p)) ∧ (∀ c, parent (σ c) ≠ Some r).

(** ** Vocabulary of the statements about the store *)

(** The stores the library builds: elements are constructed without a
    parent, at a reference nothing points to, and are then only changed by
    [addChild], [deleteChild] and [detach]. *)
Inductive reachable : store -> Prop :=
| reachable_init σ :
    (∀ r, parent (σ r) = None ∧ children (σ r) = []) → reachable σ
| reachable_new σ r n a :
    reachable σ → unreferenced σ r → reachable (new r None n a σ)
| reachable_addChild σ this child pos :
    reachable σ → reachable (snd (addChild this child pos σ))
| reachable_deleteChild σ this child :
    reachable σ → reachable (snd (deleteChild this child σ))
| reachable_detach σ this :
    reachable σ → reachable (snd (detach this σ)).

(** The default position, or an explicit position within the bounds. *)
Definition validPos (σ : store) (this : ref) (pos : option Z) : Prop :=
  (Z.of_nat (length (children (σ this))) < 2 ^ 32)%Z
  ∧ match pos with
    | None => True
    | Some p => (0 ≤ p ≤ Z.of_nat (length (children (σ this))))%Z
    end.

(** A store with three elements, the third a child of the first. *)
Definition blank : store := fun _ => mkObj None (mkXmlName [] []) [] [].

Definition sample : store :=
  snd (addChild 0 (NElem 2) None
         (new 2 None (mkXmlName [] (str "c")) []
            (new 1 None (mkXmlName [] (str "b")) []
               (new 0 None (mkXmlName [] (str "a")) [] blank)))).

End Store.

(* ===================================================================== *)
(** * map.ts: the mapper builder                                           *)
(* ===================================================================== *)

Module Mapper.

(** The values a projection produces: the strings of the document, the
    values of the external validators (opaque, tagged by a number), arrays
    of mapped children and the result records themselves. *)
Inductive Val :=
| VUndefined
| VNull
| VString (s : jsstring)
| VParsed (tag : Z)
| VArray (items : list Val)
| VObject (props : list (jsstring * Val)).

(** Modelled from the spec: [path.andThen(component)] of the external
    [ValuePath] extends the path by one component. *)
Definition andThen (path : ValuePath) (component : jsstring) : ValuePath :=
  path ++ [component].

(** Modelled from the spec: [path.isBadAsIt(message)] of the external
    [ValuePath] builds the "path-qualified descriptive error". *)
Definition isBadAsIt (path : ValuePath) (message : jsstring) : Exn :=
  ValidationError path message.

(** Modelled from the spec: a [Validator<P>] of the external package
    [@wzlin/valid] "exposes parse(path, rawValue) -> P, failing with a
    descriptive error"; it is an opaque plug-in. *)
Record Validator := mkValidator { parse : ValuePath -> jsstring -> Outcome Val }.

(** [ElemMapFn<R>] with its path argument supplied. *)
Definition ElemMapFn := XmlElement -> ValuePath -> Outcome Val.

Record AttrMapping := mkAttrMapping {
  am_name : jsstring;
  am_ignore : bool;
  am_optional : bool;
  am_validator : Validator
}.

Inductive ElemMappingMode := repeated | required | optional.

Record ElemMapping := mkElemMapping {
  em_name : jsstring;
  em_mode : ElemMappingMode;
  em_ignore : bool;
  em_min : option Z;
  em_mapper : ElemMapFn
}.

Record TextMapping := mkTextMapping {
  tm_name : jsstring;
  tm_ignore : bool;
  tm_validator : option Validator
}.

(** The fields of an [XmlElementMapperBuilder]. *)
Record Builder := mkBuilder {
  expectedName : option jsstring;
  attrMappings : list AttrMapping;
  elemMappings : list ElemMapping;
  textMapping : option TextMapping
}.

Definition empty : Builder := mkBuilder None [] [] None.

Definition withAttr (b : Builder) (a : AttrMapping) : Builder :=
  mkBuilder (expectedName b) (attrMappings b ++ [a]) (elemMappings b) (textMapping b).

Definition withElem (b : Builder) (e : ElemMapping) : Builder :=
  mkBuilder (expectedName b) (attrMappings b) (elemMappings b ++ [e]) (textMapping b).

Definition withText (b : Builder) (t : TextMapping) : Builder :=
  mkBuilder (expectedName b) (attrMappings b) (elemMappings b) (Some t).

(** [expectName]: [assertState] throws when a name was already set. *)
Definition expectName (nm : jsstring) (b : Builder) : Outcome Builder :=
  match expectedName b with
  | Some _ => Throw (Error (str "assertState"))
  | None => Ok (mkBuilder (Some nm) (attrMappings b) (elemMappings b) (textMapping b))
  end.

Definition ignoreAttr nm v b := withAttr b (mkAttrMapping nm true false v).
Definition maybeAttr nm v b := withAttr b (mkAttrMapping nm false true v).
Definition attr nm v b := withAttr b (mkAttrMapping nm false false v).
Definition ignore nm b :=
  withElem b (mkElemMapping nm optional true None (fun _ _ => Ok VUndefined)).
Definition one nm m b := withElem b (mkElemMapping nm required false None m).
Definition maybeOne nm m b := withElem b (mkElemMapping nm optional false None m).
Definition oneOrMore nm m b := withElem b (mkElemMapping nm repeated false (Some 1%Z) m).
Definition zeroOrMore nm m b := withElem b (mkElemMapping nm repeated false (Some 0%Z) m).
Definition text nm v b := withText b (mkTextMapping nm false (Some v)).
Definition ignoreText nm v b := withText b (mkTextMapping nm true (Some v)).

(** ** Objects and collections *)

(** [res[key] = v] on a plain object: the property list, a new key going
    last. *)
Fixpoint setProp (key : jsstring) (v : Val) (props : list (jsstring * Val))
  : list (jsstring * Val) :=
  match props with
  | [] => [(key, v)]
  | (k, w) :: props' =>
      if jsstring_eqb k key then (k, v) :: props'
      else (k, w) :: setProp key v props'
  end.

(** [res[key]]. *)
Fixpoint getProp (key : jsstring) (props : list (jsstring * Val)) : option Val :=
  match props with
  | [] => None
  | (k, w) :: props' => if jsstring_eqb k key then Some w else getProp key props'
  end.

(** Modelled from the spec: [Dict] of the external package [@xtjs/lib] is
    not under src/; it is the keyed lookup table of the rules, "keyed by
    local name", built from an array of entries where a later entry for a
    key replaces an earlier one.  [dictGet] is [dict.get(key)]. *)
Definition dictGet {V} (entryName : V -> jsstring) (key : jsstring) (entries : list V)
  : option V :=
  List.find (fun e => jsstring_eqb (entryName e) key) (rev entries).

(** Modelled from the spec: [Counter] of the external package [@xtjs/lib]
    is not under src/; it holds the count still required for every name.
    [counterNew] builds it from [name, count] entries (a later entry for a
    name replaces the count), [decrement] lowers the count of a name by
    one, [positiveEntries] lists, in order, the entries whose count is
    still positive. *)
Definition Counter := list (jsstring * Z).

Fixpoint counterSet (key : jsstring) (n : Z) (c : Counter) : Counter :=
  match c with
  | [] => [(key, n)]
  | (k, m) :: c' =>
      if jsstring_eqb k key then (k, n) :: c' else (k, m) :: counterSet key n c'
  end.

Fixpoint counterGet (key : jsstring) (c : Counter) : Z :=
  match c with
  | [] => 0%Z
  | (k, m) :: c' => if jsstring_eqb k key then m else counterGet key c'
  end.

Definition counterNew (entries : list (jsstring * Z)) : Counter :=
  fold_left (fun c '(k, n) => counterSet k n c) entries [].

Definition decrement (key : jsstring) (c : Counter) : Counter :=
  counterSet key (counterGet key c - 1)%Z c.

Definition positiveEntries (c : Counter) : list (jsstring * Z) :=
  List.filter (fun '(_, n) => (0 <? n)%Z) c.

(** A [Set<string>] in insertion order. *)
Fixpoint setNew (names : list jsstring) (acc : list jsstring) : list jsstring :=
  match names with
  | [] => acc
  | n :: names' =>
      if existsb (jsstring_eqb n) acc then setNew names' acc
      else setNew names' (acc ++ [n])
  end.

Definition setDelete (n : jsstring) (s : list jsstring) : list jsstring :=
  List.filter (fun x => negb (jsstring_eqb x n)) s.

(** The default order of [Array.prototype.sort] on strings: by code
    units. *)
Fixpoint jsstring_leb (a b : jsstring) : bool :=
  match a, b with
  | [], _ => true
  | _ :: _, [] => false
  | x :: a', y :: b' => (x <? y)%N || ((x =? y)%N && jsstring_leb a' b')
  end.

Fixpoint sortInsert (x : jsstring) (l : list jsstring) : list jsstring :=
  match l with
  | [] => [x]
  | y :: l' => if jsstring_leb x y then x :: l else y :: sortInsert x l'
  end.

Definition sort (l : list jsstring) : list jsstring :=
  fold_right sortInsert [] l.

(** [parts.join(", ")]. *)
Fixpoint joinComma (parts : list jsstring) : jsstring :=
  match parts with
  | [] => []
  | [p] => p
  | p :: parts' => p ++ str ", " ++ joinComma parts'
  end.

(** ** The compiled projection *)

(** The pass over the attributes: the record so far and the required
    names not yet seen. *)
Fixpoint processAttrs (b : Builder) (path : ValuePath)
    (attrs : list (XmlName * jsstring))
    (res : list (jsstring * Val)) (remainingAttrs : list jsstring)
  : Outcome (list (jsstring * Val) * list jsstring) :=
  match attrs with
  | [] => Ok (res, remainingAttrs)
  | (nm, value) :: attrs' =>
      if jsstring_eqb (prefix nm) (str "xmlns")
         || jsstring_eqb (XmlName.toString nm) (str "xmlns")
      then processAttrs b path attrs' res remainingAttrs
      else
        match dictGet am_name (name nm) (attrMappings b) with
        | None =>
            Throw (isBadAsIt path
                     (str "has an unexpected attribute " ++ XmlName.toString nm))
        | Some m =>
            let remainingAttrs := setDelete (name nm) remainingAttrs in
            match parse (am_validator m)
                    (andThen path (str "Attr " ++ XmlName.toString nm)) value with
            | Ok parsed =>
                processAttrs b path attrs'
                  (if negb (am_ignore m) then setProp (name nm) parsed res else res)
                  remainingAttrs
            | Throw e => Throw e
            | OutOfFuel => OutOfFuel
            end
        end
  end.

(** The state of the pass over the children. *)
Record ChildState := mkChildState {
  res : list (jsstring * Val);
  seenText : bool;
  remainingElemCounts : Counter
}.

(** One iteration of the loop over [elem.children.entries()]. *)
Definition processChild (b : Builder) (path : ValuePath)
    (childNo : nat) (child : XmlNode) (st : ChildState) : Outcome ChildState :=
  match child with
  | Text child =>
      let childPath :=
        andThen path (str "Child #" ++ decimal (N.of_nat childNo) ++ str " (text)") in
      let isWhitespace := negb (truthy (trim child)) in
      match textMapping b with
      | Some tm =>
          if seenText st then
            if negb isWhitespace then Throw (isBadAsIt childPath (str "is unexpected"))
            else Ok st
          else
            match match tm_validator tm with
                  | Some v => parse v childPath child
                  | None => Ok VUndefined
                  end with
            | Ok parsed =>
                let parsed := match parsed with
                              | VUndefined | VNull => VString child
                              | _ => parsed
                              end in
                Ok (mkChildState
                      (if negb (tm_ignore tm) then setProp (tm_name tm) parsed (res st)
                       else res st)
                      true (remainingElemCounts st))
            | Throw e => Throw e
            | OutOfFuel => OutOfFuel
            end
      | None =>
          if negb isWhitespace then Throw (isBadAsIt childPath (str "is unexpected"))
          else Ok st
      end
  | Elem child =>
      let childPath :=
        andThen path (str "Child #" ++ decimal (N.of_nat childNo) ++ str " ("
                      ++ XmlName.toString (ename child) ++ str ")") in
      match dictGet em_name (name (ename child)) (elemMappings b) with
      | None => Throw (isBadAsIt childPath (str "is unexpected"))
      | Some m =>
          let counts := decrement (name (ename child)) (remainingElemCounts st) in
          match em_mapper m child childPath with
          | Ok val =>
              if negb (em_ignore m) then
                match em_mode m with
                | repeated =>
                    match getProp (name (ename child)) (res st) with
                    | Some (VArray items) =>
                        Ok (mkChildState
                              (setProp (name (ename child)) (VArray (items ++ [val])) (res st))
                              (seenText st) counts)
                    | _ => Throw TypeError
                    end
                | _ =>
                    Ok (mkChildState (setProp (name (ename child)) val (res st))
                          (seenText st) counts)
                end
              else Ok (mkChildState (res st) (seenText st) counts)
          | Throw e => Throw e
          | OutOfFuel => OutOfFuel
          end
      end
  end.

(** The loop over the children, from index [childNo] on. *)
Fixpoint processChildren (b : Builder) (path : ValuePath)
    (childNo : nat) (cs : list XmlNode) (st : ChildState) : Outcome ChildState :=
  match cs with
  | [] => Ok st
  | child :: cs' =>
      match processChild b path childNo child st with
      | Ok st' => processChildren b path (S childNo) cs' st'
      | Throw e => Throw e
      | OutOfFuel => OutOfFuel
      end
  end.

(** The count each rule requires: the entries of [requiredElemCounts]. *)
Definition requiredElemCounts (b : Builder) : list (jsstring * Z) :=
  map (fun e => (em_name e,
                 match em_mode e with
                 | optional => 0%Z
                 | required => 1%Z
                 | repeated => match em_min e with Some n => n | None => 0%Z end
                 end)) (elemMappings b).

Definition repeatedElemNames (b : Builder) : list jsstring :=
  map em_name
    (List.filter (fun e => match em_mode e with repeated => true | _ => false end)
       (elemMappings b)).

Definition requiredAttrNames (b : Builder) : list jsstring :=
  map am_name (List.filter (fun a => negb (am_optional a)) (attrMappings b)).

(** The part of the projection that follows the attribute pass. *)
Definition mapChildren (b : Builder) (elem : XmlElement) (path : ValuePath)
    (res0 : list (jsstring * Val)) : Outcome Val :=
  let res1 := fold_left (fun r n => setProp n (VArray []) r) (repeatedElemNames b) res0 in
  match processChildren b path 0 (children elem)
          (mkChildState res1 false (counterNew (requiredElemCounts b))) with
  | Ok st =>
      match positiveEntries (remainingElemCounts st) with
      | (nm, count) :: _ =>
          Throw (isBadAsIt path
                   (str "does not have " ++ decimalZ count ++ str " more " ++ nm
                    ++ str " elements"))
      | [] =>
          match textMapping b with
          | Some _ =>
              if negb (seenText st)
              then Throw (isBadAsIt path (str "does not have any expected text content"))
              else Ok (VObject (res st))
          | None => Ok (VObject (res st))
          end
      end
  | Throw e => Throw e
  | OutOfFuel => OutOfFuel
  end.

(** [build()]: the compiled projection, applied to an element and a
    path. *)
Definition build (b : Builder) : ElemMapFn := fun elem path =>
  if match expectedName b with
     | Some expected => negb (jsstring_eqb (name (ename elem)) expected)
     | None => false
     end
  then Throw (isBadAsIt path
                (str "it is not an element with the name "
                 ++ match expectedName b with Some n => n | None => [] end))
  else
    match processAttrs b path (attrs elem) [] (setNew (requiredAttrNames b) []) with
    | Ok (res0, remainingAttrs) =>
        match remainingAttrs with
        | _ :: _ =>
            Throw (isBadAsIt path
                     (str "is missing attributes: " ++ joinComma (sort remainingAttrs)))
        | [] => mapChildren b elem path res0
        end
    | Throw e => Throw e
    | OutOfFuel => OutOfFuel
    end.

(** The projection called without a path: the default path is the
    element's rendered name. *)
Definition run (f : ElemMapFn) (elem : XmlElement) : Outcome Val :=
  f elem [XmlName.toString (ename elem)].

(** [xmlTextOnlyMapper(validator, path)(element)]; without a path the
    default is the path ["Text content"]. *)
Definition xmlTextOnlyMapper (validator : Validator) (path : option ValuePath)
    (element : XmlElement) : Outcome Val :=
  parse validator
    (match path with Some p => p | None => [str "Text content"] end)
    (XmlElement.combinedText element).

(** ** The error families of the mapper *)




(** ** Vocabulary of the statements about the projection *)

(** The count a rule requires. *)
Definition requiredCount (e : ElemMapping) : Z :=
  match em_mode e with
  | optional => 0%Z
  | required => 1%Z
  | repeated => match em_min e with Some n => n | None => 0%Z end
  end.

(** Whether a child is an element with the local name [nm]. *)
Definition isNamed (nm : jsstring) (c : XmlNode) : bool :=
  match c with
  | Elem e => jsstring_eqb (name (ename e)) nm
  | Text _ => false
  end.


(** The number of child elements with the local name [nm]. *)
Definition countNamed (nm : jsstring) (cs : list XmlNode) : nat :=
  length (List.filter (isNamed nm) cs).


(** The path handed to the mapper of the child element number [childNo]. *)
Definition elemChildPath (path : ValuePath) (childNo : nat) (child : XmlElement) : ValuePath :=
  andThen path (str "Child #" ++ decimal (N.of_nat childNo) ++ str " ("
                ++ XmlName.toString (ename child) ++ str ")").



(** Stand-ins for two validators of the external validation package. *)
Definition vInteger : Validator :=
  mkValidator (fun path raw =>
    if truthy raw && forallb (includes DIGIT) raw
    then Ok (VParsed (Z.of_N (parseInt 10 raw)))
    else Throw (ValidationError path (str "is not an integer"))).

Definition vDate : Validator :=
  mkValidator (fun path raw =>
    if jsstring_eqb raw (str "2021-02-05T05:00:00.000Z")
    then Ok (VParsed 1612501200000)
    else Throw (ValidationError path (str "is not a date"))).


Definition userMapper : ElemMapFn := build (attr (str "id") vInteger empty).

(** The mapper of the repository's test. *)
Definition testMapper : ElemMapFn :=
  build (zeroOrMore (str "Group") (build empty)
           (oneOrMore (str "User") userMapper
              (attr (str "created") vDate empty))).

Definition testDocument : jsstring :=
  str "<root created='2021-02-05T05:00:00.000Z'>" ++ [LF] ++
  str "      <User id='1'/>" ++ [LF] ++
  str "      <User id='2'/>" ++ [LF] ++
  str "    </root>".

Definition parsed (xml : jsstring) : XmlElement :=
  match parseXml xml with
  | Ok e => e
  | _ => mkXmlElement (mkXmlName [] []) [] []
  end.


Definition hasTextRule (b : Builder) : bool :=
  match textMapping b with Some _ => true | None => false end.

(** The state in which the loop over the children starts. *)
Definition initialState (b : Builder) (res0 : list (jsstring * Val)) : ChildState :=
  mkChildState
    (fold_left (fun r n => setProp n (VArray []) r) (repeatedElemNames b) res0)
    false (counterNew (requiredElemCounts b)).


End Mapper.

(* ===================================================================== *)
(** * Vocabulary of the statements about the lexer and the parser         *)
(* ===================================================================== *)

(** What the lexer has not consumed yet.  Which branch the lexer and the
    parser take depends on the lexer through this suffix only; [line] and
    [col] are read by [err] alone. *)
Definition rem (l : Lexer) : jsstring := drop (next l) (src l).

(** [Runs m s a s']: started on any lexer whose rest is [s], the code [m]
    returns [a] and leaves the rest [s']. *)
Definition Runs {A} (m : P A) (s : jsstring) (a : A) (s' : jsstring) : Prop :=
  ∀ l, rem l = s → ∃ l', m l = Ok (a, l') ∧ rem l' = s'.

(** Whether the rest of the input starts with the character [c]. *)
Definition headIs (c : jschar) (s : jsstring) : bool :=
  match s with
  | x :: _ => jschar_eqb x c
  | [] => false
  end.

(** Whether the rest of the input starts with a character of [charset]. *)
Definition headIn (charset : jsstring) (s : jsstring) : bool :=
  match s with
  | x :: _ => includes charset x
  | [] => false
  end.

(** Names the parser reads back: non-empty and alphanumeric, with an
    alphanumeric (possibly empty) prefix. *)
Definition isNameStr (s : jsstring) : bool :=
  truthy s && forallb (includes ALPHANUMERIC) s.

Definition wfName (n : XmlName) : bool :=
  forallb (includes ALPHANUMERIC) (prefix n) && isNameStr (name n).

(** The replacement [encodeXmlEntities] makes for one character. *)
Definition escapeChar (c : jschar) : jsstring :=
  if jschar_eqb c (chr "&") then str "&amp;"
  else if jschar_eqb c (chr "<") then str "&lt;"
  else if jschar_eqb c DQUOTE then str "&quot;"
  else if jschar_eqb c (chr "'") then str "&apos;"
  else if jschar_eqb c (chr ">") then str "&gt;"
  else [c].

(** Whether the scan of [parseTextOrValue] stops at the start of [s]: at
    the end of the input or at the delimiter. *)
Definition stopsAt (d : jschar) (s : jsstring) : bool :=
  match s with
  | [] => true
  | x :: _ => jschar_eqb x d
  end.

(** The text [toString] writes for one attribute, and for all of them. *)
Definition attrString (a : XmlName * jsstring) : jsstring :=
  let '(an, value) := a in
  str " " ++ XmlName.toString an ++ str "=" ++ [DQUOTE] ++ encodeXmlEntities value ++ [DQUOTE].

Definition attrsString (a : list (XmlName * jsstring)) : jsstring :=
  concat (map attrString a).

Definition nodesString (c : list XmlNode) : jsstring :=
  join (map XmlElement.nodeToString c).

Definition closingTag (n : XmlName) : jsstring :=
  str "</" ++ XmlName.toString n ++ str ">".

(** A text child the parser reads back as it stands: non-empty, without
    [<] and without [&]. *)
Definition wfText (s : jsstring) : bool :=
  truthy s
  && forallb (fun c => negb (jschar_eqb c (chr "<")) && negb (jschar_eqb c (chr "&"))) s.

(** No two text children next to one another (their texts would be
    written as one run of characters). *)
Fixpoint noAdjacentText (cs : list XmlNode) : bool :=
  match cs with
  | [] => true
  | c :: cs' =>
      match c, cs' with
      | Text _, Text _ :: _ => false
      | _, _ => noAdjacentText cs'
      end
  end.

Fixpoint wfElement (e : XmlElement) : bool :=
  match e with
  | mkXmlElement n a c =>
      wfName n && forallb (fun p => wfName (fst p)) a
      && noAdjacentText c && forallb wfNode c
  end
with wfNode (c : XmlNode) : bool :=
  match c with
  | Text s => wfText s
  | Elem e => wfElement e
  end.

(** [parent] with the nodes [cs] appended to its children. *)
Definition addChildren (parent : XmlElement) (cs : list XmlNode) : XmlElement :=
  mkXmlElement (ename parent) (attrs parent) (children parent ++ cs).

(** The content of an element is read back, up to and including the
    closing tag of the parent. *)
Definition content_ok (cs : list XmlNode) : Prop :=
  noAdjacentText cs = true → forallb wfNode cs = true →
  ∀ fuel parent s,
    wfName (ename parent) = true →
    length (nodesString cs ++ closingTag (ename parent) ++ s) < fuel →
    Runs (parseContent fuel parent)
         (nodesString cs ++ closingTag (ename parent) ++ s)
         (addChildren parent cs) s.

(** The document of the parser's own test. *)
Definition test_document : jsstring :=
  [LF] ++ str "    <root  a   = " ++ [LF] ++
  str "      '&amp;' xs:b=" ++ [DQUOTE] ++ str "&#x10FFFF;" ++ [DQUOTE] ++ [LF] ++
  str "                                  >&lt;<xs:abc   />" ++ [LF] ++
  str "    </root   >" ++ [LF] ++ str "  ".

Definition roundtrip_sample : XmlElement :=
  mkXmlElement (mkXmlName [] (str "root"))
    [(mkXmlName [] (str "a"), str "&<>'" ++ [DQUOTE]);
     (mkXmlName (str "xs") (str "b"), [56319; 57343; 10]%N)]
    [Text (str "x > y");
     Elem (mkXmlElement (mkXmlName (str "xs") (str "abc")) [] []);
     Elem (mkXmlElement (mkXmlName [] (str "p")) [(mkXmlName [] (str "ID"), str "1")]
             [Text (str "it's")]);
     Text [LF]].

(** The value of the first attribute, in attribute order, whose local name
    is [ID] (whatever its prefix). *)
Definition firstIdValue (e : XmlElement) (id : jsstring) : Prop :=
  ∃ pre n post,
    attrs e = pre ++ (n, id) :: post ∧ name n = str "ID"
    ∧ Forall (fun p => name (fst p) ≠ str "ID") pre.

(** The position in words: lines are counted from 1; a carriage return
    ends a line; a line feed ends a line unless it directly follows a
    carriage return, in which case it counts for nothing; any other
    character advances the column, which counts the characters consumed
    since the line began. *)
Definition advance (prev : option N) (c : jschar) (lc : nat * nat) : nat * nat :=
  if jschar_eqb c CR then (S (fst lc), 0)
  else if jschar_eqb c LF then
    match prev with
    | Some p => if jschar_eqb p CR then lc else (S (fst lc), 0)
    | None => (S (fst lc), 0)
    end
  else (fst lc, S (snd lc)).

Fixpoint positionFrom (prev : option N) (lc : nat * nat) (s : jsstring) : nat * nat :=
  match s with
  | [] => lc
  | c :: s' => positionFrom (Some c) (advance prev c lc) s'
  end.

(** The line and the column after the characters [consumed], from the
    start of the input. *)
Definition positionAfter (consumed : jsstring) : nat * nat :=
  positionFrom None (1, 0) consumed.

(** The lexer's counters agree with the characters it has consumed. *)
Definition tracked (l : Lexer) : Prop :=
  next l ≤ length (src l)
  ∧ (line l, col l) = positionAfter (take (next l) (src l)).

(** A parse error carries the position after some prefix of the input. *)
Definition errTracked (s : jsstring) (e : Exn) : Prop :=
  match e with
  | XmlParseError _ ln c => ∃ n, n ≤ length s ∧ (ln, c) = positionAfter (take n s)
  | _ => True
  end.

(** Code that keeps the counters in step with the cursor and whose parse
    errors carry such a position. *)
Definition Tracks {A} (m : P A) : Prop :=
  ∀ l, tracked l →
       match m l with
       | Ok (_, l') => src l' = src l ∧ tracked l'
       | Throw e => errTracked (src l) e
       | OutOfFuel => True
       end.

(** [Steps m l Q]: run on the lexer [l], the code [m] does not run out of
    fuel; when it returns, the input is the same, the cursor is within the
    input and has not moved back, and [Q] holds of the result. *)
Definition Steps {A} (m : P A) (l : Lexer) (Q : A -> Lexer -> Prop) : Prop :=
  match m l with
  | Ok (a, l') => src l' = src l ∧ next l' ≤ length (src l') ∧ next l ≤ next l' ∧ Q a l'
  | Throw _ => True
  | OutOfFuel => False
  end.

(* ===================================================================== *)
(** * Vocabulary of the statements about queries                           *)
(* ===================================================================== *)

(** The child elements of an element, in order. *)
Definition childElements (e : XmlElement) : list XmlElement :=
  flat_map (fun c => match c with Elem c => [c] | Text _ => [] end) (children e).

(** [descendant x e]: the element [x] is a child of [e], or a child of a
    descendant of [e]. *)
Inductive descendant : XmlElement -> XmlElement -> Prop :=
| descendant_child x e : In (Elem x) (children e) → descendant x e
| descendant_deeper x c e : In (Elem c) (children e) → descendant x c → descendant x e.

(** The descendants of an element in document order: every element is
    listed before its own descendants, which come before its next
    sibling. *)
Fixpoint documentOrder (e : XmlElement) : list XmlElement :=
  match e with
  | mkXmlElement _ _ cs =>
      (fix loop (cs : list XmlNode) : list XmlElement :=
         match cs with
         | [] => []
         | Text _ :: cs' => loop cs'
         | Elem c :: cs' => c :: documentOrder c ++ loop cs'
         end) cs
  end.

(** The document of the repository's test of the queries. *)
Definition query_document : jsstring :=
  str "<root ID=" ++ [DQUOTE] ++ str "1" ++ [DQUOTE] ++ str ">" ++ [LF] ++
  str "      <child>" ++ [LF] ++
  str "        <grandchild ID=" ++ [DQUOTE] ++ str "1" ++ [DQUOTE]
    ++ str "></grandchild>" ++ [LF] ++
  str "        <grandchild></grandchild>" ++ [LF] ++
  str "      </child>" ++ [LF] ++
  str "      <child>" ++ [LF] ++
  str "        <grandchild xml:ID=" ++ [DQUOTE] ++ str "2" ++ [DQUOTE]
    ++ str "></grandchild>" ++ [LF] ++
  str "        <a:grandchild ID=" ++ [DQUOTE] ++ str "1" ++ [DQUOTE] ++ str "/>" ++ [LF] ++
  str "      </child>" ++ [LF] ++
  str "    </root>".

(** What the test expects of [toString]: the same text with the empty
    elements written as self-closing tags. *)
Definition query_document_written : jsstring :=
  str "<root ID=" ++ [DQUOTE] ++ str "1" ++ [DQUOTE] ++ str ">" ++ [LF] ++
  str "      <child>" ++ [LF] ++
  str "        <grandchild ID=" ++ [DQUOTE] ++ str "1" ++ [DQUOTE] ++ str "/>" ++ [LF] ++
  str "        <grandchild/>" ++ [LF] ++
  str "      </child>" ++ [LF] ++
  str "      <child>" ++ [LF] ++
  str "        <grandchild xml:ID=" ++ [DQUOTE] ++ str "2" ++ [DQUOTE] ++ str "/>" ++ [LF] ++
  str "        <a:grandchild ID=" ++ [DQUOTE] ++ str "1" ++ [DQUOTE] ++ str "/>" ++ [LF] ++
  str "      </child>" ++ [LF] ++
  str "    </root>".

Definition query_root : XmlElement :=
  match parseXml query_document with
  | Ok e => e
  | _ => mkXmlElement (mkXmlName [] []) [] []
  end.

Definition byId (id : jsstring) : XmlQuery := mkXmlQuery (Some id) None.
Definition byName (nm : jsstring) : XmlQuery := mkXmlQuery None (Some nm).

(** The value of the last of the [entries] whose key is [k]. *)
Definition lastEntry (k v : jsstring) (entries : list (jsstring * jsstring)) : Prop :=
  ∃ pre post, entries = pre ++ (k, v) :: post ∧ Forall (fun p => fst p ≠ k) post.

(** The attributes of an element as entries keyed by the qualified
    name. *)
Definition qualifiedAttrs (e : XmlElement) : list (jsstring * jsstring) :=
  map (fun '(n, v) => (XmlName.toString n, v)) (attrs e).

(* ===================================================================== *)
(** * Vocabulary of the statements about parse errors                      *)
(* ===================================================================== *)

(** [FailsAt m s d s']: started on a lexer in step with its input whose
    rest is [s], the code [m] throws the parse error with the description
    [d] and the position the lexer has when the rest of the input is
    [s']. *)
Definition FailsAt {A} (m : P A) (s d s' : jsstring) : Prop :=
  ∀ l, tracked l → rem l = s →
       ∃ l', tracked l' ∧ src l' = src l ∧ rem l' = s' ∧ m l = Throw (err d l').

(** The parse error with the description [d] positioned after the
    characters [consumed] of the document. *)
Definition parseErrorAfter (d consumed : jsstring) : Exn :=
  XmlParseError d (fst (positionAfter consumed)) (snd (positionAfter consumed)).

(** A string of characters of [charset]. *)
Definition allOf (charset s : jsstring) : Prop :=
  Forall (fun c => includes charset c = true) s.

(** [Reaches m s k s']: on a lexer whose rest is [s], the code [m] behaves
    as the code [k] does on the same lexer moved forward to the rest
    [s']. *)
Definition Reaches {A} (m : P A) (s : jsstring) (k : P A) (s' : jsstring) : Prop :=
  ∀ l, rem l = s →
       ∃ l', rem l' = s' ∧ (tracked l → tracked l' ∧ src l' = src l) ∧ m l = k l'.

(* ===================================================================== *)
(** * Vocabulary: documents as they are written                            *)
(* ===================================================================== *)

(** A piece of character data in the source: a character standing for
    itself, or a reference [&name;], [&#digits;], [&#xdigits;]. *)
Inductive Piece :=
| Raw (c : jschar)
| Named (nm : jsstring)
| Decimal (digits : jsstring)
| Hexadecimal (x : jschar) (digits : jsstring).

Definition writePiece (p : Piece) : jsstring :=
  match p with
  | Raw c => [c]
  | Named nm => chr "&" :: nm ++ str ";"
  | Decimal digits => str "&#" ++ digits ++ str ";"
  | Hexadecimal x digits => str "&#" ++ x :: digits ++ str ";"
  end.

(** The characters a piece stands for. *)
Definition pieceValue (p : Piece) : jsstring :=
  match p with
  | Raw c => [c]
  | Named nm => match ENTITY_REFS nm with Some s => s | None => [] end
  | Decimal digits =>
      match fromCodePoint (parseInt 10 digits) with Some s => s | None => [] end
  | Hexadecimal _ digits =>
      match fromCodePoint (parseInt 16 digits) with Some s => s | None => [] end
  end.

(** The pieces allowed before the delimiter [d]: any character but [d] and
    [&]; the five named references; a numeric reference of one to seven
    decimal digits, or of [x] or [X] and one to six hexadecimal digits,
    for a code point up to U+10FFFF. *)
Definition pieceOk (d : jschar) (p : Piece) : bool :=
  match p with
  | Raw c => negb (jschar_eqb c d) && negb (jschar_eqb c (chr "&"))
  | Named nm => match ENTITY_REFS nm with Some _ => true | None => false end
  | Decimal digits =>
      forallb (includes DIGIT) digits
      && (1 <=? length digits) && (length digits <=? 7)
      && (parseInt 10 digits <=? 1114111)%N
  | Hexadecimal x digits =>
      (jschar_eqb x (chr "x") || jschar_eqb x (chr "X"))
      && forallb (includes HEX) digits
      && (1 <=? length digits) && (length digits <=? 6)
      && (parseInt 16 digits <=? 1114111)%N
  end.

Definition writeText (ps : list Piece) : jsstring := flat_map writePiece ps.

Definition decodedText (ps : list Piece) : jsstring := flat_map pieceValue ps.

Definition isSpace (s : jsstring) : bool := forallb (includes WHITESPACE) s.

(** An attribute in the source: white space, the name, white space, [=],
    white space, and the value between two quotes of the same kind. *)
Record AttrSource := mkAttrSource {
  as_lead : jsstring;
  as_name : XmlName;
  as_before : jsstring;
  as_after : jsstring;
  as_quote : jschar;
  as_value : list Piece
}.

Definition writeAttr (a : AttrSource) : jsstring :=
  as_lead a ++ XmlName.toString (as_name a) ++ as_before a ++ str "=" ++ as_after a
  ++ [as_quote a] ++ writeText (as_value a) ++ [as_quote a].

Definition attrOk (a : AttrSource) : bool :=
  isSpace (as_lead a) && wfName (as_name a) && isSpace (as_before a)
  && isSpace (as_after a) && includes QUOTE (as_quote a)
  && forallb (pieceOk (as_quote a)) (as_value a).

Definition attrPair (a : AttrSource) : XmlName * jsstring :=
  (as_name a, decodedText (as_value a)).

(** An item of content in the source: character data; [<!body>] (a
    comment or a declaration); a processing instruction [<?...?>], whose
    text is a sequence of plain runs each followed by a double-quoted
    string, and a last plain run; an element, with its attributes, the
    white space before the end of the opening tag, and either [/>] or
    [>], the content and the closing tag (with white space before its
    [>]). *)
Inductive Item :=
| IText (ps : list Piece)
| IComment (body : jsstring)
| IInstruction (quoted : list (jsstring * jsstring)) (last : jsstring)
| IElement (n : XmlName) (attrs : list AttrSource) (space : jsstring)
           (selfClosing : bool) (content : list Item) (closeSpace : jsstring).

Definition writeClosingTag (n : XmlName) (closeSpace : jsstring) : jsstring :=
  str "</" ++ XmlName.toString n ++ closeSpace ++ str ">".

Definition writeQuoted (q : jsstring * jsstring) : jsstring :=
  fst q ++ [DQUOTE] ++ snd q ++ [DQUOTE].

Fixpoint writeItem (i : Item) : jsstring :=
  match i with
  | IText ps => writeText ps
  | IComment body => str "<!" ++ body ++ str ">"
  | IInstruction quoted last =>
      str "<?" ++ flat_map writeQuoted quoted ++ last ++ str "?>"
  | IElement n attrs space selfClosing content closeSpace =>
      str "<" ++ XmlName.toString n ++ flat_map writeAttr attrs ++ space
      ++ (if selfClosing then str "/>"
          else str ">" ++ flat_map writeItem content ++ writeClosingTag n closeSpace)
  end.

Definition writeItems (items : list Item) : jsstring := flat_map writeItem items.

(** The nodes an item stands for: comments, declarations and processing
    instructions stand for nothing. *)
Fixpoint itemNodes (i : Item) : list XmlNode :=
  match i with
  | IText ps => [Text (decodedText ps)]
  | IComment _ => []
  | IInstruction _ _ => []
  | IElement n attrs _ _ content _ =>
      [Elem (mkXmlElement n (map attrPair attrs) (flat_map itemNodes content))]
  end.

Definition itemsNodes (items : list Item) : list XmlNode := flat_map itemNodes items.

(** No two runs of character data next to one another (they would be one
    run). *)
Fixpoint separated (items : list Item) : bool :=
  match items with
  | [] => true
  | i :: items' =>
      match i, items' with
      | IText _, IText _ :: _ => false
      | _, _ => separated items'
      end
  end.

Definition plainOk (s : jsstring) : bool :=
  forallb (fun c => negb (includes (DQUOTE :: str "?") c)) s.

Definition quotedOk (q : jsstring * jsstring) : bool :=
  plainOk (fst q) && forallb (fun c => negb (jschar_eqb c DQUOTE)) (snd q).

(** The items the parser reads: character data is not empty; the body of
    [<!body>] has no [>]; in a processing instruction [?] occurs at the
    end only and double quotes come in pairs; names are alphanumeric with
    an optional alphanumeric prefix; the first attribute is set off from
    the element name by white space; a self-closing element has no
    content. *)
Fixpoint itemOk (i : Item) : bool :=
  match i with
  | IText ps =>
      match ps with [] => false | _ :: _ => true end && forallb (pieceOk (chr "<")) ps
  | IComment body => forallb (fun c => negb (jschar_eqb c (chr ">"))) body
  | IInstruction quoted last => forallb quotedOk quoted && plainOk last
  | IElement n attrs space selfClosing content closeSpace =>
      wfName n && forallb attrOk attrs
      && match attrs with a :: _ => truthy (as_lead a) | [] => true end
      && isSpace space
      && (if selfClosing then match content with [] => true | _ :: _ => false end
          else isSpace closeSpace)
      && forallb itemOk content && separated content
  end.

Definition itemsOk (items : list Item) : bool :=
  forallb itemOk items && separated items.

(** What [parseXml] makes of the children collected under the dummy root:
    the only element among them, provided that every string among them is
    blank. *)
Definition chooseRoot (cs : list XmlNode) : Outcome XmlElement :=
  match selectRoot cs None with
  | Ok (Some root) => Ok root
  | Ok None => Throw (XmlParseError (str "XML document does not have root element") 1 0)
  | Throw e => Throw e
  | OutOfFuel => OutOfFuel
  end.

(** The document of the parser's own test, item by item. *)
Definition test_items : list Item :=
  [IText (map Raw ([LF] ++ str "    "));
   IElement (mkXmlName [] (str "root"))
     [mkAttrSource (str "  ") (mkXmlName [] (str "a")) (str "   ") (str " " ++ [LF] ++ str "      ")
        (chr "'") [Named (str "amp")];
      mkAttrSource (str " ") (mkXmlName (str "xs") (str "b")) [] [] DQUOTE
        [Hexadecimal (chr "x") (str "10FFFF")]]
     ([LF] ++ str "                                  ") false
     [IText [Named (str "lt")];
      IElement (mkXmlName (str "xs") (str "abc")) [] (str "   ") true [] [];
      IText (map Raw ([LF] ++ str "    "))]
     (str "   ");
   IText (map Raw ([LF] ++ str "  "))].

(** The items are read by the content loop of any element: started on
    the items and what follows them, the loop comes to what follows with
    the node of every item appended to the parent, in order, and with
    fuel left for more than the rest of the input. *)
Definition itemsReach (items : list Item) : Prop :=
  itemsOk items = true →
  ∀ fuel parent rest,
    stopsAt (chr "<") rest = true →
    length (writeItems items ++ rest) < fuel →
    ∃ fuel', length rest < fuel'
             ∧ Reaches (parseContent fuel parent) (writeItems items ++ rest)
                 (parseContent fuel' (addChildren parent (itemsNodes items))) rest.

(** The content of an element item. *)
Definition contentReach (i : Item) : Prop :=
  match i with
  | IElement _ _ _ _ content _ => itemsReach content
  | _ => True
  end.

(** An element left open: the items before it in the content of its
    parent, and its opening tag. *)
Record Frame := mkFrame {
  f_before : list Item;
  f_name : XmlName;
  f_attrs : list AttrSource;
  f_space : jsstring
}.

Definition writeFrame (f : Frame) : jsstring :=
  writeItems (f_before f) ++ str "<" ++ XmlName.toString (f_name f)
  ++ flat_map writeAttr (f_attrs f) ++ f_space f ++ str ">".

Definition frameOk (f : Frame) : bool :=
  itemsOk (f_before f) && wfName (f_name f) && forallb attrOk (f_attrs f)
  && match f_attrs f with a :: _ => truthy (as_lead a) | [] => true end
  && isSpace (f_space f).

(** The text up to a point inside nested elements: the elements open at
    that point, outermost first, each with what precedes it. *)
Definition writeContext (frames : list Frame) : jsstring := flat_map writeFrame frames.

Definition frameElement (f : Frame) : XmlElement :=
  mkXmlElement (f_name f) (map attrPair (f_attrs f)) [].

(** The element whose content is being read at that point. *)
Fixpoint innermost (frames : list Frame) (parent : XmlElement) : XmlElement :=
  match frames with
  | [] => parent
  | f :: frames' => innermost frames' (frameElement f)
  end.

(** The nodes read when the input ends at that point, [inner] being the
    nodes of the innermost content: every open element is complete. *)
Fixpoint contextNodes (frames : list Frame) (inner : list XmlNode) : list XmlNode :=
  match frames with
  | [] => inner
  | f :: frames' =>
      itemsNodes (f_before f)
      ++ [Elem (mkXmlElement (f_name f) (map attrPair (f_attrs f))
                  (contextNodes frames' inner))]
  end.

(** The elements among some nodes, in order. *)
Definition elementsAmong (cs : list XmlNode) : list XmlElement :=
  flat_map (fun c => match c with Elem e => [e] | Text _ => [] end) cs.

(** Every string among the nodes is blank: [trim] leaves nothing of it. *)
Definition blankTexts (cs : list XmlNode) : Prop :=
  ∀ t, In (Text t) cs → truthy (trim t) = false.

Definition noRootError : Exn :=
  XmlParseError (str "XML document does not have root element") 1 0.

Definition multipleRootsError : Exn :=
  XmlParseError (str "XML document has multiple top level elements") 1 0.

Definition topLevelTextError : Exn :=
  XmlParseError (str "XML document has top-level non-whitespace text") 1 0.

(** A name ends before [s]: [s] does not go on with a name character or a
    colon. *)
Definition nameEnds (s : jsstring) : bool :=
  negb (headIn ALPHANUMERIC s) && negb (headIs (chr ":") s).

(** The parents the content loop works on: the dummy root of [parseXml]
    and the elements opened on the way. *)
Definition dummyRoot : XmlElement := mkXmlElement (mkXmlName [] []) [] [].

(** The opening tag [<a>] left open after nothing, and the text
    [<a><b x='1'>t] as a context and items. *)
Definition openA : Frame := mkFrame [] (mkXmlName [] (str "a")) [] [].

Definition openB : Frame :=
  mkFrame [] (mkXmlName [] (str "b"))
    [mkAttrSource (str " ") (mkXmlName [] (str "x")) [] [] (chr "'") [Raw (chr "1")]] [].


(** What every tree the parser builds looks like: element and attribute
    names are well formed and no text child is the empty string. *)
Fixpoint parsedOk (e : XmlElement) : bool :=
  let 'mkXmlElement n a c := e in
  wfName n
  && forallb (fun p => wfName (fst p)) a
  && forallb (fun x => match x with
                       | Text t => truthy t
                       | Elem e' => parsedOk e'
                       end) c.

Definition parsedNodeOk (x : XmlNode) : bool :=
  match x with
  | Text t => truthy t
  | Elem e => parsedOk e
  end.

(** A postcondition on the value of a run that returns. *)
Definition Yields {A} (m : P A) (Q : A -> Prop) : Prop :=
  ∀ l a l', m l = Ok (a, l') → Q a.


(** ** Vocabulary of the statements about attributes and repeated rules *)

(** The attributes the projection passes over: a namespace declaration,
    [xmlns:p="..."] or [xmlns="..."]. *)
Definition isXmlnsAttr (nm : XmlName) : bool :=
  jsstring_eqb (prefix nm) (str "xmlns") || jsstring_eqb (XmlName.toString nm) (str "xmlns").


(** The builder of the repository's mapper test. *)
Definition testBuilder : Mapper.Builder :=
  Mapper.zeroOrMore (str "Group") (Mapper.build Mapper.empty)
    (Mapper.oneOrMore (str "User") Mapper.userMapper
       (Mapper.attr (str "created") Mapper.vDate Mapper.empty)).


(* ===================================================================== *)
(** * Basic facts about strings                                            *)
(* ===================================================================== *)

Lemma jschar_eqb_eq (a b : jschar) : jschar_eqb a b = true ↔ a = b.
Proof. apply N.eqb_eq. Qed.

Lemma jschar_eqb_refl (a : jschar) : jschar_eqb a a = true.
Proof. apply N.eqb_refl. Qed.

Lemma jschar_eqb_neq (a b : jschar) : jschar_eqb a b = false ↔ a ≠ b.
Proof. apply N.eqb_neq. Qed.

Lemma jsstring_eqb_eq (a b : jsstring) : jsstring_eqb a b = true ↔ a = b.
Proof.
  revert b. induction a as [|x a IH]; intros [|y b]; simpl; try (split; congruence).
  rewrite andb_true_iff, jschar_eqb_eq, IH. split.
  - intros [-> ->]. reflexivity.
  - intros [= -> ->]. split; reflexivity.
Qed.

Lemma jsstring_eqb_refl (a : jsstring) : jsstring_eqb a a = true.
Proof. apply jsstring_eqb_eq. reflexivity. Qed.

Lemma jsstring_eqb_neq (a b : jsstring) : jsstring_eqb a b = false ↔ a ≠ b.
Proof.
  rewrite <- jsstring_eqb_eq. destruct (jsstring_eqb a b); split; congruence.
Qed.

Lemma join_snoc (parts : list jsstring) (s : jsstring) :
  join (parts ++ [s]) = join parts ++ s.
Proof. unfold join. rewrite concat_app. simpl. rewrite app_nil_r. reflexivity. Qed.

Lemma XmlName_equals_refl (n : XmlName) : XmlName.equals n n = true.
Proof. unfold XmlName.equals. rewrite !jsstring_eqb_refl. reflexivity. Qed.

(* ===================================================================== *)
(** * Running the lexer on the rest of the input                           *)
(* ===================================================================== *)

Lemma remaining_rem (l : Lexer) : remaining l = length (rem l).
Proof. unfold remaining, rem. rewrite length_drop. reflexivity. Qed.

Lemma lookup_next (l : Lexer) : src l !! next l = head (rem l).
Proof.
  unfold rem. rewrite head_lookup, lookup_drop, Nat.add_0_r. reflexivity.
Qed.

Lemma rem_newLexer (s : jsstring) : rem (newLexer s) = s.
Proof. reflexivity. Qed.

Lemma Runs_ret {A} (a : A) (s : jsstring) : Runs (ret a) s a s.
Proof. intros l Hl. exists l. split; [reflexivity | exact Hl]. Qed.

Lemma Runs_bind {A B} (m : P A) (k : A -> P B) s a s1 b s2 :
  Runs m s a s1 → Runs (k a) s1 b s2 → Runs (bind m k) s b s2.
Proof.
  intros Hm Hk l Hl. destruct (Hm l Hl) as (l1 & E1 & R1).
  destruct (Hk l1 R1) as (l2 & E2 & R2).
  exists l2. unfold bind. rewrite E1. split; assumption.
Qed.

(** A run that ends in an exception after a first part that returns. *)
Lemma Runs_bind_throw {A B} (m : P A) (k : A -> P B) s a s1 e l :
  Runs m s a s1 → rem l = s → (∀ l1, rem l1 = s1 → k a l1 = Throw e) →
  bind m k l = Throw e.
Proof.
  intros Hm Hl Hk. destruct (Hm l Hl) as (l1 & E1 & R1).
  unfold bind. rewrite E1. apply Hk, R1.
Qed.

Lemma Runs_fuel {A} (f : nat -> P A) s a s' :
  Runs (f (S (length s))) s a s' → Runs (fun l => f (S (remaining l)) l) s a s'.
Proof.
  intros H l Hl. rewrite remaining_rem, Hl. apply H, Hl.
Qed.

Lemma Runs_peek (s : jsstring) : Runs peek s (head s) s.
Proof.
  intros l Hl. exists l. split; [|exact Hl].
  unfold peek. rewrite lookup_next, Hl. reflexivity.
Qed.

Lemma Runs_isEnd (s : jsstring) :
  Runs isEnd s (match s with [] => true | _ :: _ => false end) s.
Proof.
  unfold isEnd. eapply Runs_bind; [apply Runs_peek|].
  destruct s; apply Runs_ret.
Qed.

Lemma Runs_consumeOrEnd (c : jschar) (s : jsstring) :
  Runs consumeOrEnd (c :: s) (Some c) s.
Proof.
  intros l Hl. unfold consumeOrEnd.
  assert (Hc : src l !! next l = Some c) by (rewrite lookup_next, Hl; reflexivity).
  rewrite Hc. eexists. split; [reflexivity|].
  unfold rem in *. simpl.
  assert (Hs : src (if jschar_eqb c CR || jschar_eqb c LF && prevIsNotCR l
                    then {| src := src l; next := next l; line := S (line l); col := 0 |}
                    else if negb (jschar_eqb c LF)
                         then {| src := src l; next := next l; line := line l;
                                 col := S (col l) |}
                         else l) = src l
               ∧ next (if jschar_eqb c CR || jschar_eqb c LF && prevIsNotCR l
                    then {| src := src l; next := next l; line := S (line l); col := 0 |}
                    else if negb (jschar_eqb c LF)
                         then {| src := src l; next := next l; line := line l;
                                 col := S (col l) |}
                         else l) = next l).
  { destruct (_ || _); [split; reflexivity|]. destruct (negb _); split; reflexivity. }
  destruct Hs as [-> ->].
  rewrite (drop_S _ _ _ Hc) in Hl. congruence.
Qed.

Lemma Runs_consume (c : jschar) (s : jsstring) : Runs consume (c :: s) c s.
Proof.
  unfold consume. eapply Runs_bind; [apply Runs_consumeOrEnd | apply Runs_ret].
Qed.

Lemma Runs_expect (c : jschar) (s : jsstring) : Runs (expect c) (c :: s) tt s.
Proof.
  unfold expect. eapply Runs_bind; [apply Runs_consume|].
  rewrite jschar_eqb_refl. apply Runs_ret.
Qed.

Lemma Runs_expectOneOf (charset : jsstring) (c : jschar) (s : jsstring) :
  includes charset c = true → Runs (expectOneOf charset) (c :: s) c s.
Proof.
  intros H. unfold expectOneOf. eapply Runs_bind; [apply Runs_consume|].
  rewrite H. apply Runs_ret.
Qed.

Lemma Runs_skipIf_true (c : jschar) (s : jsstring) : Runs (skipIf c) (c :: s) true s.
Proof.
  unfold skipIf. eapply Runs_bind; [apply Runs_peek|]. simpl.
  rewrite jschar_eqb_refl. eapply Runs_bind; [apply Runs_consume | apply Runs_ret].
Qed.

Lemma Runs_skipIf_false (c : jschar) (s : jsstring) :
  headIs c s = false → Runs (skipIf c) s false s.
Proof.
  intros H. unfold skipIf. eapply Runs_bind; [apply Runs_peek|].
  destruct s as [|x s]; simpl in *; [apply Runs_ret|]. rewrite H. apply Runs_ret.
Qed.

Lemma Runs_maybeExpect_true (c : jschar) (s : jsstring) :
  Runs (maybeExpect c) (c :: s) true s.
Proof.
  unfold maybeExpect. eapply Runs_bind; [apply Runs_peek|]. simpl.
  rewrite jschar_eqb_refl. eapply Runs_bind; [apply Runs_consume | apply Runs_ret].
Qed.

Lemma Runs_maybeExpect_false (c : jschar) (s : jsstring) :
  headIs c s = false → Runs (maybeExpect c) s false s.
Proof.
  intros H. unfold maybeExpect. eapply Runs_bind; [apply Runs_peek|].
  destruct s as [|x s]; simpl in *; [apply Runs_ret|].
  replace (jschar_eqb c x) with false; [apply Runs_ret|].
  symmetry. apply jschar_eqb_neq. apply jschar_eqb_neq in H. congruence.
Qed.

Lemma Runs_maybeExpectOneOf_some (charset : jsstring) (c : jschar) (s : jsstring) :
  includes charset c = true → Runs (maybeExpectOneOf charset) (c :: s) (Some c) s.
Proof.
  intros H. unfold maybeExpectOneOf. eapply Runs_bind; [apply Runs_peek|]. simpl.
  rewrite H. eapply Runs_bind; [apply Runs_consume | apply Runs_ret].
Qed.

Lemma Runs_maybeExpectOneOf_none (charset : jsstring) (s : jsstring) :
  headIn charset s = false → Runs (maybeExpectOneOf charset) s None s.
Proof.
  intros H. unfold maybeExpectOneOf. eapply Runs_bind; [apply Runs_peek|].
  destruct s as [|x s]; simpl in *; [apply Runs_ret|]. rewrite H. apply Runs_ret.
Qed.

(** The loops: a run of characters of the set is consumed up to the first
    character outside of it (or the end). *)
Lemma Runs_consumeWhile_loop (charset : jsstring) (v s : jsstring) :
  Forall (fun c => includes charset c = true) v → headIn charset s = false →
  ∀ fuel chars, length v < fuel →
    Runs (consumeWhile_loop fuel charset chars) (v ++ s) (join chars ++ v) s.
Proof.
  intros Hv Hs. induction Hv as [|c v Hc Hv IH]; intros fuel chars Hf.
  - destruct fuel as [|fuel]; [simpl in Hf; lia|]. simpl.
    eapply Runs_bind; [apply Runs_maybeExpectOneOf_none, Hs|].
    rewrite app_nil_r. apply Runs_ret.
  - destruct fuel as [|fuel]; [simpl in Hf; lia|]. simpl.
    eapply Runs_bind; [apply Runs_maybeExpectOneOf_some, Hc|].
    replace (join chars ++ c :: v) with (join (chars ++ [[c]]) ++ v)
      by (rewrite join_snoc, <- app_assoc; reflexivity).
    apply IH. simpl in Hf. lia.
Qed.

Lemma Runs_consumeWhile (charset : jsstring) (v s : jsstring) :
  Forall (fun c => includes charset c = true) v → headIn charset s = false →
  Runs (consumeWhile charset) (v ++ s) v s.
Proof.
  intros Hv Hs. unfold consumeWhile.
  apply (Runs_fuel (fun fuel => consumeWhile_loop fuel charset [])).
  apply (Runs_consumeWhile_loop charset v s Hv Hs _ []).
  rewrite length_app. lia.
Qed.

Lemma Runs_expectOneOrMoreOf_loop (charset : jsstring) (v s : jsstring) :
  Forall (fun c => includes charset c = true) v → headIn charset s = false →
  ∀ fuel matches, length v < fuel →
    Runs (expectOneOrMoreOf_loop fuel charset matches) (v ++ s)
         (matches ++ map (fun c => [c]) v) s.
Proof.
  intros Hv Hs. induction Hv as [|c v Hc Hv IH]; intros fuel matches Hf.
  - destruct fuel as [|fuel]; [simpl in Hf; lia|]. simpl.
    eapply Runs_bind; [apply Runs_maybeExpectOneOf_none, Hs|].
    rewrite app_nil_r. apply Runs_ret.
  - destruct fuel as [|fuel]; [simpl in Hf; lia|]. simpl.
    eapply Runs_bind; [apply Runs_maybeExpectOneOf_some, Hc|].
    replace (matches ++ [c] :: map (fun c => [c]) v)
      with ((matches ++ [[c]]) ++ map (fun c => [c]) v)
      by (rewrite <- app_assoc; reflexivity).
    apply IH. simpl in Hf. lia.
Qed.

Lemma join_singletons (v : jsstring) : join (map (fun c => [c]) v) = v.
Proof. induction v as [|c v IH]; [reflexivity|]. simpl. f_equal. exact IH. Qed.

Lemma Runs_expectOneOrMoreOf (charset expectName : jsstring) (v s : jsstring) :
  v ≠ [] → Forall (fun c => includes charset c = true) v → headIn charset s = false →
  Runs (expectOneOrMoreOf charset expectName) (v ++ s) v s.
Proof.
  intros Hne Hv Hs. unfold expectOneOrMoreOf.
  eapply Runs_bind.
  - apply (Runs_fuel (fun fuel => expectOneOrMoreOf_loop fuel charset [])).
    apply (Runs_expectOneOrMoreOf_loop charset v s Hv Hs _ []).
    rewrite length_app. lia.
  - simpl. destruct v as [|c v]; [congruence|]. simpl.
    change ([c] :: map (fun c => [c]) v) with (map (fun c => [c]) (c :: v)).
    rewrite join_singletons. apply Runs_ret.
Qed.

Lemma Runs_skipWhile_loop (charset : jsstring) (v s : jsstring) :
  Forall (fun c => includes charset c = true) v → headIn charset s = false →
  ∀ fuel count, length v < fuel →
    Runs (skipWhile_loop fuel charset count) (v ++ s) (count + length v) s.
Proof.
  intros Hv Hs. induction Hv as [|c v Hc Hv IH]; intros fuel count Hf.
  - destruct fuel as [|fuel]; [simpl in Hf; lia|]. simpl.
    eapply Runs_bind; [apply Runs_maybeExpectOneOf_none, Hs|].
    rewrite Nat.add_0_r. apply Runs_ret.
  - destruct fuel as [|fuel]; [simpl in Hf; lia|]. simpl.
    eapply Runs_bind; [apply Runs_maybeExpectOneOf_some, Hc|].
    replace (count + S (length v)) with (S count + length v) by lia.
    apply IH. simpl in Hf. lia.
Qed.

Lemma Runs_skipWhile (charset : jsstring) (v s : jsstring) :
  Forall (fun c => includes charset c = true) v → headIn charset s = false →
  Runs (skipWhile charset) (v ++ s) (length v) s.
Proof.
  intros Hv Hs. unfold skipWhile.
  apply (Runs_fuel (fun fuel => skipWhile_loop fuel charset 0)).
  apply (Runs_skipWhile_loop charset v s Hv Hs _ 0).
  rewrite length_app. lia.
Qed.

Lemma Runs_skipWhile_none (charset : jsstring) (s : jsstring) :
  headIn charset s = false → Runs (skipWhile charset) s 0 s.
Proof. intros Hs. apply (Runs_skipWhile charset [] s); [constructor | exact Hs]. Qed.

(* ===================================================================== *)
(** * Running the parser on serialised text                                *)
(* ===================================================================== *)

Ltac eval_str :=
  repeat match goal with
         | |- context [str ?s] =>
             let v := eval vm_compute in (str s) in change (str s) with v
         | |- context [chr ?a] =>
             let v := eval vm_compute in (chr a) in change (chr a) with v
         end.

(** One step of a run: the first command of a sequence is discharged by
    the lemma [H]. *)
Ltac run_with H := eapply Runs_bind; [apply H|]; cbv beta.

Lemma forallb_Forall {A} (f : A -> bool) (l : list A) :
  forallb f l = true → Forall (fun x => f x = true) l.
Proof.
  induction l as [|x l IH]; simpl; [constructor|].
  intros [Hx Hl]%andb_true_iff. constructor; auto.
Qed.

Lemma Runs_parseName (n : XmlName) (s : jsstring) :
  wfName n = true → headIn ALPHANUMERIC s = false → headIs (chr ":") s = false →
  Runs parseName (XmlName.toString n ++ s) n s.
Proof.
  destruct n as [pre nm]. unfold wfName, isNameStr, XmlName.toString. simpl.
  intros [Hpre [Hne Hnm]%andb_true_iff]%andb_true_iff Hs Hcolon.
  apply forallb_Forall in Hpre, Hnm.
  assert (Hnm' : nm ≠ []) by (destruct nm; [discriminate | congruence]).
  unfold parseName. destruct pre as [|p pre]; simpl truthy; cbv iota.
  - run_with Runs_expectOneOrMoreOf; [assumption..|].
    run_with Runs_maybeExpect_false; [assumption|]. simpl. apply Runs_ret.
  - rewrite <- app_assoc. eapply Runs_bind.
    { apply Runs_expectOneOrMoreOf; [congruence | assumption | reflexivity]. }
    simpl. run_with Runs_maybeExpect_true. simpl.
    run_with Runs_expectOneOrMoreOf; [assumption..|]. apply Runs_ret.
Qed.

Lemma replaceAll_app c b (x y : jsstring) :
  replaceAll c b (x ++ y) = replaceAll c b x ++ replaceAll c b y.
Proof. unfold replaceAll. apply flat_map_app. Qed.

Lemma encodeXmlEntities_app (x y : jsstring) :
  encodeXmlEntities (x ++ y) = encodeXmlEntities x ++ encodeXmlEntities y.
Proof. unfold encodeXmlEntities. rewrite !replaceAll_app. reflexivity. Qed.

Lemma encodeXmlEntities_char (c : jschar) : encodeXmlEntities [c] = escapeChar c.
Proof.
  unfold escapeChar.
  destruct (jschar_eqb c (chr "&")) eqn:E1;
    [apply jschar_eqb_eq in E1; subst; reflexivity|].
  destruct (jschar_eqb c (chr "<")) eqn:E2;
    [apply jschar_eqb_eq in E2; subst; reflexivity|].
  destruct (jschar_eqb c DQUOTE) eqn:E3;
    [apply jschar_eqb_eq in E3; subst; reflexivity|].
  destruct (jschar_eqb c (chr "'")) eqn:E4;
    [apply jschar_eqb_eq in E4; subst; reflexivity|].
  destruct (jschar_eqb c (chr ">")) eqn:E5;
    [apply jschar_eqb_eq in E5; subst; reflexivity|].
  unfold encodeXmlEntities, replaceAll. cbn [flat_map app].
  rewrite E1. cbn [flat_map app]. rewrite E2. cbn [flat_map app].
  rewrite E3. cbn [flat_map app]. rewrite E4. cbn [flat_map app].
  rewrite E5. reflexivity.
Qed.

Lemma encodeXmlEntities_cons (c : jschar) (v : jsstring) :
  encodeXmlEntities (c :: v) = escapeChar c ++ encodeXmlEntities v.
Proof.
  change (c :: v) with ([c] ++ v).
  rewrite encodeXmlEntities_app, encodeXmlEntities_char. reflexivity.
Qed.

Lemma includes_other (charset : jsstring) (x c : jschar) :
  includes charset x = true → includes charset c = false → jschar_eqb x c = false.
Proof.
  intros Hx Hc. destruct (jschar_eqb x c) eqn:E; [|reflexivity].
  apply jschar_eqb_eq in E. congruence.
Qed.

(** A named entity of the table is decoded to its character. *)
Lemma Runs_parseEntity_named (nm : jsstring) (c : jschar) (s : jsstring) :
  forallb (includes LOWERCASE) nm = true → ENTITY_REFS nm = Some [c] →
  (0 < c < 65536)%N →
  Runs parseEntity (chr "&" :: nm ++ chr ";" :: s) [c] s.
Proof.
  intros Hnm Href Hc. unfold parseEntity.
  run_with Runs_expect. eapply Runs_bind.
  { run_with Runs_skipIf_false.
    { destruct nm as [|x nm]; [reflexivity|]. cbn [forallb] in Hnm.
      apply andb_true_iff in Hnm as [Hx _].
      apply (includes_other LOWERCASE); [exact Hx | reflexivity]. }
    eapply Runs_bind.
    { apply Runs_consumeWhile; [apply forallb_Forall, Hnm | reflexivity]. }
    cbv beta. rewrite Href.
    replace (c =? 0)%N with false by (symmetry; apply N.eqb_neq; lia).
    apply Runs_ret. }
  cbv beta. run_with Runs_expect.
  unfold fromCodePoint.
  replace (1114111 <? c)%N with false by (symmetry; apply N.ltb_ge; lia).
  replace (c <? 65536)%N with true by (symmetry; apply N.ltb_lt; lia).
  apply Runs_ret.
Qed.

(** The entity that [encodeXmlEntities] writes for a special character is
    decoded to that character. *)
Lemma Runs_parseEntity_escaped (c : jschar) (s : jsstring) :
  escapeChar c ≠ [c] → Runs parseEntity (escapeChar c ++ s) [c] s.
Proof.
  unfold escapeChar.
  destruct (jschar_eqb c (chr "&")) eqn:E1.
  { apply jschar_eqb_eq in E1. subst c. intros _.
    apply (Runs_parseEntity_named (str "amp")); [reflexivity | reflexivity | split; reflexivity]. }
  destruct (jschar_eqb c (chr "<")) eqn:E2.
  { apply jschar_eqb_eq in E2. subst c. intros _.
    apply (Runs_parseEntity_named (str "lt")); [reflexivity | reflexivity | split; reflexivity]. }
  destruct (jschar_eqb c DQUOTE) eqn:E3.
  { apply jschar_eqb_eq in E3. subst c. intros _.
    apply (Runs_parseEntity_named (str "quot")); [reflexivity | reflexivity | split; reflexivity]. }
  destruct (jschar_eqb c (chr "'")) eqn:E4.
  { apply jschar_eqb_eq in E4. subst c. intros _.
    apply (Runs_parseEntity_named (str "apos")); [reflexivity | reflexivity | split; reflexivity]. }
  destruct (jschar_eqb c (chr ">")) eqn:E5.
  { apply jschar_eqb_eq in E5. subst c. intros _.
    apply (Runs_parseEntity_named (str "gt")); [reflexivity | reflexivity | split; reflexivity]. }
  congruence.
Qed.

(** Text without the delimiter and without [&] is read verbatim. *)
Lemma Runs_parseTextOrValue_loop_plain (d : jschar) (t s : jsstring) :
  Forall (fun c => jschar_eqb c d = false ∧ jschar_eqb c (chr "&") = false) t →
  stopsAt d s = true →
  ∀ fuel parts, length t < fuel →
    Runs (parseTextOrValue_loop fuel d parts) (t ++ s) (join parts ++ t) s.
Proof.
  intros Ht Hs. induction Ht as [|c t [Hd Hamp] Ht IH]; intros fuel parts Hf.
  - destruct fuel as [|fuel]; [simpl in Hf; lia|]. cbn [parseTextOrValue_loop app].
    run_with Runs_peek. rewrite app_nil_r.
    destruct s as [|x s]; cbn [head stopsAt] in *; [apply Runs_ret|].
    rewrite Hs. apply Runs_ret.
  - destruct fuel as [|fuel]; [simpl in Hf; lia|]. cbn [parseTextOrValue_loop].
    run_with Runs_peek. rewrite <- app_comm_cons. cbn [head].
    rewrite Hd, Hamp. run_with Runs_consume.
    replace (join parts ++ c :: t) with (join (parts ++ [[c]]) ++ t)
      by (rewrite join_snoc, <- app_assoc; reflexivity).
    apply IH. simpl in Hf. lia.
Qed.

Lemma Runs_parseTextOrValue_plain (d : jschar) (t s : jsstring) :
  Forall (fun c => jschar_eqb c d = false ∧ jschar_eqb c (chr "&") = false) t →
  stopsAt d s = true →
  Runs (parseTextOrValue d) (t ++ s) t s.
Proof.
  intros Ht Hs. unfold parseTextOrValue.
  apply (Runs_fuel (fun fuel => parseTextOrValue_loop fuel d [])).
  apply (Runs_parseTextOrValue_loop_plain d t s Ht Hs _ []).
  rewrite length_app. lia.
Qed.

Lemma escapeChar_cases (c : jschar) :
  (escapeChar c ≠ [c] ∧ ∃ tl, escapeChar c = chr "&" :: tl
     ∧ Forall (fun x => jschar_eqb x DQUOTE = false) tl)
  ∨ (escapeChar c = [c] ∧ jschar_eqb c DQUOTE = false
     ∧ jschar_eqb c (chr "&") = false).
Proof.
  unfold escapeChar.
  destruct (jschar_eqb c (chr "&")) eqn:E1.
  { apply jschar_eqb_eq in E1. subst c. left. split; [discriminate|].
    eexists. split; [reflexivity|]. repeat constructor. }
  destruct (jschar_eqb c (chr "<")) eqn:E2.
  { apply jschar_eqb_eq in E2. subst c. left. split; [discriminate|].
    eexists. split; [reflexivity|]. repeat constructor. }
  destruct (jschar_eqb c DQUOTE) eqn:E3.
  { apply jschar_eqb_eq in E3. subst c. left. split; [discriminate|].
    eexists. split; [reflexivity|]. repeat constructor. }
  destruct (jschar_eqb c (chr "'")) eqn:E4.
  { apply jschar_eqb_eq in E4. subst c. left. split; [discriminate|].
    eexists. split; [reflexivity|]. repeat constructor. }
  destruct (jschar_eqb c (chr ">")) eqn:E5.
  { apply jschar_eqb_eq in E5. subst c. left. split; [discriminate|].
    eexists. split; [reflexivity|]. repeat constructor. }
  right. auto.
Qed.

Lemma length_encodeXmlEntities (v : jsstring) :
  length v ≤ length (encodeXmlEntities v).
Proof.
  induction v as [|c v IH]; [simpl; lia|].
  rewrite encodeXmlEntities_cons, length_app. simpl.
  destruct (escapeChar_cases c) as [(_ & tl & -> & _) | (-> & _)]; simpl; lia.
Qed.

(** An escaped attribute value is decoded to the value, up to the closing
    double quote. *)
Lemma Runs_parseTextOrValue_loop_escaped (v s : jsstring) :
  ∀ fuel parts, length v < fuel →
    Runs (parseTextOrValue_loop fuel DQUOTE parts)
         (encodeXmlEntities v ++ DQUOTE :: s) (join parts ++ v) (DQUOTE :: s).
Proof.
  induction v as [|c v IH]; intros fuel parts Hf.
  - destruct fuel as [|fuel]; [simpl in Hf; lia|].
    change (encodeXmlEntities []) with (@nil N).
    cbn [parseTextOrValue_loop app]. run_with Runs_peek. cbn [head].
    rewrite jschar_eqb_refl, app_nil_r. apply Runs_ret.
  - destruct fuel as [|fuel]; [simpl in Hf; lia|].
    rewrite encodeXmlEntities_cons, <- app_assoc.
    replace (join parts ++ c :: v) with (join (parts ++ [[c]]) ++ v)
      by (rewrite join_snoc, <- app_assoc; reflexivity).
    cbn [parseTextOrValue_loop]. run_with Runs_peek.
    destruct (escapeChar_cases c) as [(Hesc & tl & E & _) | (E & Hq & Hamp)].
    + rewrite E at 1. cbn [app head].
      change (jschar_eqb (chr "&") DQUOTE) with false.
      change (jschar_eqb (chr "&") (chr "&")) with true. cbv iota.
      run_with Runs_parseEntity_escaped; [exact Hesc|].
      apply IH. simpl in Hf. lia.
    + rewrite E. cbn [app head]. rewrite Hq, Hamp.
      run_with Runs_consume. apply IH. simpl in Hf. lia.
Qed.

Lemma Runs_parseTextOrValue_escaped (v s : jsstring) :
  Runs (parseTextOrValue DQUOTE) (encodeXmlEntities v ++ DQUOTE :: s)
       v (DQUOTE :: s).
Proof.
  unfold parseTextOrValue.
  apply (Runs_fuel (fun fuel => parseTextOrValue_loop fuel DQUOTE [])).
  apply (Runs_parseTextOrValue_loop_escaped v s _ []).
  rewrite length_app. pose proof (length_encodeXmlEntities v). lia.
Qed.

Lemma toString_unfold (n : XmlName) a c :
  XmlElement.toString (mkXmlElement n a c) =
  chr "<" :: XmlName.toString n ++ attrsString a ++
  match c with
  | [] => str "/>"
  | _ :: _ => chr ">" :: nodesString c ++ closingTag n
  end.
Proof.
  cbn [XmlElement.toString]. unfold join. rewrite !concat_app. cbn [concat].
  rewrite !app_nil_r, <- !app_assoc. destruct c; reflexivity.
Qed.

Lemma wfName_head (n : XmlName) :
  wfName n = true →
  ∃ x tl, XmlName.toString n = x :: tl ∧ includes ALPHANUMERIC x = true.
Proof.
  destruct n as [pre nm]. unfold wfName, isNameStr, XmlName.toString. simpl.
  intros [Hpre [Hne Hnm]%andb_true_iff]%andb_true_iff.
  destruct pre as [|p pre]; simpl.
  - destruct nm as [|x nm]; [discriminate|]. simpl in Hnm.
    apply andb_true_iff in Hnm as [Hx _]. eauto.
  - cbn [forallb] in Hpre. apply andb_true_iff in Hpre as [Hp _]. eauto.
Qed.

Lemma headIn_other (charset other : jsstring) (x : jschar) (s : jsstring) :
  includes charset x = true →
  forallb (fun c => negb (includes charset c)) other = true →
  headIn other (x :: s) = false.
Proof.
  intros Hx Ho. cbn [headIn]. unfold includes at 1.
  destruct (existsb (jschar_eqb x) other) eqn:E; [|reflexivity].
  apply existsb_exists in E as (c & Hc & Hxc).
  apply jschar_eqb_eq in Hxc. subst c.
  rewrite forallb_forall in Ho. apply Ho in Hc. rewrite Hx in Hc. discriminate.
Qed.

Lemma headIs_other (charset : jsstring) (x c : jschar) (s : jsstring) :
  includes charset x = true → includes charset c = false →
  headIs c (x :: s) = false.
Proof. intros Hx Hc. cbn [headIs]. eapply includes_other; eassumption. Qed.

Lemma Runs_openingTag_loop (a : list (XmlName * jsstring)) :
  forallb (fun p => wfName (fst p)) a = true →
  ∀ fuel acc (selfClosing : bool) s, length a < fuel →
    Runs (openingTag_loop fuel acc)
         (attrsString a ++ (if selfClosing then str "/>" else str ">") ++ s)
         (acc ++ a, selfClosing) s.
Proof.
  induction a as [|[an v] a IH]; intros Hwf fuel acc selfClosing s Hf.
  - destruct fuel as [|fuel]; [simpl in Hf; lia|].
    cbn [openingTag_loop attrsString map concat app]. rewrite app_nil_r.
    destruct selfClosing; eval_str; cbn [app].
    + run_with Runs_skipWhile_none; [reflexivity|].
      run_with Runs_skipIf_true. run_with Runs_expect. apply Runs_ret.
    + run_with Runs_skipWhile_none; [reflexivity|].
      run_with Runs_skipIf_false; [reflexivity|].
      run_with Runs_skipIf_true. apply Runs_ret.
  - destruct fuel as [|fuel]; [simpl in Hf; lia|].
    cbn [forallb fst] in Hwf. apply andb_true_iff in Hwf as [Han Hwf].
    destruct (wfName_head an Han) as (x & tl & Ex & Hx).
    cbn [openingTag_loop attrsString map concat attrString].
    fold (attrsString a). rewrite <- !app_assoc.
    eapply Runs_bind.
    { apply (Runs_skipWhile WHITESPACE (str " ")); [repeat constructor|].
      rewrite Ex. cbn [app]. eapply headIn_other; [exact Hx | reflexivity]. }
    cbv beta.
    run_with Runs_skipIf_false.
    { rewrite Ex. cbn [app]. eapply headIs_other; [exact Hx | reflexivity]. }
    run_with Runs_skipIf_false.
    { rewrite Ex. cbn [app]. eapply headIs_other; [exact Hx | reflexivity]. }
    run_with Runs_parseName; [exact Han | reflexivity | reflexivity |].
    eval_str. cbn [app].
    run_with Runs_skipWhile_none; [reflexivity|].
    run_with Runs_expect.
    run_with Runs_skipWhile_none; [reflexivity|].
    run_with Runs_expectOneOf; [reflexivity|].
    change 34%N with DQUOTE.
    run_with Runs_parseTextOrValue_escaped.
    run_with Runs_expect.
    replace (acc ++ (an, v) :: a) with ((acc ++ [(an, v)]) ++ a)
      by (rewrite <- app_assoc; reflexivity).
    apply IH; [exact Hwf | simpl in Hf; lia].
Qed.

(** ** Trees that [toString] writes unambiguously *)

Lemma addChildren_appendChild parent c cs :
  addChildren (XmlElement.appendChild parent c) cs = addChildren parent (c :: cs).
Proof.
  unfold addChildren, XmlElement.appendChild. simpl.
  rewrite <- app_assoc. reflexivity.
Qed.

Lemma addChildren_nil parent : addChildren parent [] = parent.
Proof. destruct parent. unfold addChildren. simpl. rewrite app_nil_r. reflexivity. Qed.

(** Induction on elements through their children. *)
Lemma XmlElement_nested_ind (Q : XmlElement -> Prop) :
  (∀ n a c,
      Forall (fun x => match x with Elem e => Q e | Text _ => True end) c →
      Q (mkXmlElement n a c)) →
  ∀ e, Q e.
Proof.
  intros step. fix IH 1. intros [n a c]. apply step.
  induction c as [|x c IHc]; constructor; [|exact IHc].
  destruct x as [t | e]; [exact I | apply IH].
Qed.

Lemma length_attrsString (a : list (XmlName * jsstring)) :
  length a ≤ length (attrsString a).
Proof.
  induction a as [|[an v] a IH]; [simpl; lia|].
  unfold attrsString in *. cbn [map concat attrString length].
  rewrite length_app. change (str " ") with [32%N]. cbn [app length]. lia.
Qed.

Lemma attrs_tail_head (a : list (XmlName * jsstring)) (selfClosing : bool) (s : jsstring) :
  ∃ y tl, attrsString a ++ (if selfClosing then str "/>" else str ">") ++ s = y :: tl
          ∧ includes ALPHANUMERIC y = false ∧ jschar_eqb y (chr ":") = false
          ∧ includes WHITESPACE y || jschar_eqb y (chr "/") || jschar_eqb y (chr ">") = true.
Proof.
  destruct a as [|[an v] a].
  - destruct selfClosing; eexists _, _; (split; [reflexivity|]); repeat split.
  - eexists _, _. split; [reflexivity|]. repeat split.
Qed.

Lemma Runs_parseContent_end (fuel : nat) (parent : XmlElement) :
  Runs (parseContent (S fuel) parent) [] parent [].
Proof.
  cbn [parseContent].
  eapply Runs_bind; [apply (Runs_parseTextOrValue_plain _ [] []); [constructor | reflexivity]|].
  cbn [truthy]. run_with Runs_isEnd. apply Runs_ret.
Qed.

(** An element is read back and appended to the parent; the loop goes on
    behind it. *)
Lemma Runs_parseContent_element (e : XmlElement) (rest : jsstring)
    (fuel : nat) (parent r : XmlElement) (s' : jsstring) :
  wfElement e = true → content_ok (children e) →
  length (XmlElement.toString e ++ rest) < S fuel →
  Runs (parseContent fuel (XmlElement.appendChild parent (Elem e))) rest r s' →
  Runs (parseContent (S fuel) parent) (XmlElement.toString e ++ rest) r s'.
Proof.
  destruct e as [n a c]. cbn [wfElement children].
  intros [[[Hn Ha]%andb_true_iff Hadj]%andb_true_iff Hc]%andb_true_iff Hcontent Hf Hk.
  destruct (wfName_head n Hn) as (x & tl & Ex & Hx).
  pose (sc := match c with [] => true | _ :: _ => false end).
  pose (inner := match c with
                 | [] => rest
                 | _ :: _ => nodesString c ++ closingTag n ++ rest
                 end).
  assert (Estr : XmlElement.toString (mkXmlElement n a c) ++ rest =
                 chr "<" :: XmlName.toString n ++ attrsString a ++
                 (if sc then str "/>" else str ">") ++ inner).
  { rewrite toString_unfold. subst sc inner. cbn [app]. f_equal.
    rewrite <- !app_assoc. f_equal. f_equal.
    destruct c; [reflexivity|]. cbn [app]. rewrite <- !app_assoc. reflexivity. }
  rewrite Estr in *. clear Estr.
  destruct (attrs_tail_head a sc inner) as (y & tl' & Ey & Hy1 & Hy2 & _).
  cbn [parseContent].
  eapply Runs_bind;
    [apply (Runs_parseTextOrValue_plain _ [] _); [constructor | reflexivity]|].
  cbn [truthy]. run_with Runs_isEnd. cbv iota.
  run_with Runs_expect.
  run_with Runs_skipIf_false.
  { rewrite Ex. cbn [app]. eapply headIs_other; [exact Hx | reflexivity]. }
  run_with Runs_skipIf_false.
  { rewrite Ex. cbn [app]. eapply headIs_other; [exact Hx | reflexivity]. }
  run_with Runs_skipIf_false.
  { rewrite Ex. cbn [app]. eapply headIs_other; [exact Hx | reflexivity]. }
  eapply Runs_bind.
  { apply Runs_parseName; [exact Hn | rewrite Ey; exact Hy1 | rewrite Ey; exact Hy2]. }
  cbv beta iota.
  eapply Runs_bind.
  { unfold openingTag. apply (Runs_fuel (fun fuel => openingTag_loop fuel [])).
    apply Runs_openingTag_loop; [exact Ha|].
    rewrite length_app. pose proof (length_attrsString a). lia. }
  cbv beta iota. cbn [app].
  assert (Hlen : length inner < fuel).
  { cbn [length] in Hf. rewrite !length_app in Hf.
    assert (1 ≤ length (if sc then str "/>" else str ">")) by (destruct sc; simpl; lia).
    rewrite Ex in Hf. cbn [length] in Hf. lia. }
  subst sc inner. destruct c as [|c0 c]; cbn [negb].
  - eapply Runs_bind; [apply Runs_ret | exact Hk].
  - eapply Runs_bind; [|exact Hk].
    replace (mkXmlElement n a (c0 :: c))
      with (addChildren (mkXmlElement n a []) (c0 :: c)) by reflexivity.
    apply Hcontent; [exact Hadj | exact Hc | exact Hn | exact Hlen].
Qed.

Lemma nodesString_cons (c : XmlNode) (cs : list XmlNode) :
  nodesString (c :: cs) = XmlElement.nodeToString c ++ nodesString cs.
Proof. reflexivity. Qed.

Lemma content_loop (cs : list XmlNode) :
  Forall (fun x => match x with Elem e => content_ok (children e) | Text _ => True end) cs →
  content_ok cs.
Proof.
  induction 1 as [|c cs Hc Hcs IH]; intros Hadj Hwf fuel parent s Hp Hf.
  - (* the closing tag *)
    change (nodesString []) with (@nil N) in *. cbn [app] in *.
    destruct fuel as [|fuel]; [lia|].
    unfold closingTag in *. eval_str. cbn [app] in *. rewrite <- app_assoc. cbn [app].
    cbn [parseContent].
    eapply Runs_bind;
      [apply (Runs_parseTextOrValue_plain _ [] _); [constructor | reflexivity]|].
    cbn [truthy]. run_with Runs_isEnd. cbv iota.
    run_with Runs_expect.
    run_with Runs_skipIf_false; [reflexivity|].
    run_with Runs_skipIf_false; [reflexivity|].
    run_with Runs_skipIf_true.
    run_with Runs_parseName; [exact Hp | reflexivity | reflexivity |].
    assert (Ht : truthy (name (ename parent)) = true).
    { unfold wfName, isNameStr in Hp.
      apply andb_true_iff in Hp as [_ [Ht _]%andb_true_iff]. exact Ht. }
    rewrite Ht, XmlName_equals_refl. cbn [negb].
    run_with Runs_skipWhile_none; [reflexivity|].
    run_with Runs_expect. rewrite addChildren_nil. apply Runs_ret.
  - destruct fuel as [|fuel]; [lia|].
    cbn [forallb] in Hwf. apply andb_true_iff in Hwf as [Hwc Hwf].
    rewrite nodesString_cons, <- app_assoc in *.
    destruct c as [t | e].
    + (* a text child *)
      cbn [XmlElement.nodeToString wfNode] in *.
      unfold wfText in Hwc. apply andb_true_iff in Hwc as [Hne Ht].
      assert (Hadj' : noAdjacentText cs = true ∧
                      stopsAt (chr "<") (nodesString cs ++ closingTag (ename parent) ++ s)
                      = true).
      { cbn [noAdjacentText] in Hadj. destruct cs as [|[t' | [n' a' c']] cs'].
        - split; [reflexivity | reflexivity].
        - discriminate.
        - split; [exact Hadj|]. rewrite nodesString_cons.
          cbn [XmlElement.nodeToString]. rewrite toString_unfold. reflexivity. }
      destruct Hadj' as [Hadj' Hstop].
      cbn [parseContent].
      eapply Runs_bind.
      { apply Runs_parseTextOrValue_plain; [|exact Hstop].
        apply forallb_Forall in Ht. eapply Forall_impl; [|exact Ht].
        cbv beta. intros c [H1 H2]%andb_true_iff.
        apply negb_true_iff in H1, H2. split; assumption. }
      cbv beta. rewrite Hne.
      rewrite <- addChildren_appendChild.
      refine (IH Hadj' Hwf fuel (XmlElement.appendChild parent (Text t)) s Hp _).
      rewrite length_app in Hf.
      assert (1 ≤ length t) by (destruct t; [discriminate | simpl; lia]).
      unfold XmlElement.appendChild. cbn [ename]. lia.
    + (* an element child *)
      cbn [XmlElement.nodeToString wfNode] in *.
      apply Runs_parseContent_element; [exact Hwc | exact Hc | exact Hf |].
      rewrite <- addChildren_appendChild.
      refine (IH _ Hwf fuel (XmlElement.appendChild parent (Elem e)) s Hp _).
      * cbn [noAdjacentText] in Hadj. exact Hadj.
      * rewrite length_app in Hf.
        assert (1 ≤ length (XmlElement.toString e))
          by (destruct e; rewrite toString_unfold; cbn [length]; lia).
        unfold XmlElement.appendChild. cbn [ename]. lia.
Qed.

Lemma content_ok_all (e : XmlElement) : content_ok (children e).
Proof.
  induction e as [n a c Hc] using XmlElement_nested_ind.
  cbn [children]. apply content_loop, Hc.
Qed.

(* ===================================================================== *)
(** * The parser on the document of its test                               *)
(* ===================================================================== *)

Example parseXml_test_document :
  parseXml test_document =
  Ok (mkXmlElement (mkXmlName [] (str "root"))
        [(mkXmlName [] (str "a"), str "&");
         (mkXmlName (str "xs") (str "b"), [56319; 57343]%N)]
        [Text (str "<");
         Elem (mkXmlElement (mkXmlName (str "xs") (str "abc")) [] []);
         Text ([LF] ++ str "    ")]).
Proof. vm_compute. reflexivity. Qed.

(* ===================================================================== *)
(** * Round trip through [toString] and [parseXml]                         *)
(* ===================================================================== *)

Lemma parseXml_of_run (xml : jsstring) (dummyRoot' : XmlElement) :
  Runs (parseContent (S (length xml)) (mkXmlElement (mkXmlName [] []) [] []))
       xml dummyRoot' [] →
  parseXml xml =
  match selectRoot (children dummyRoot') None with
  | Ok (Some root) => Ok root
  | Ok None => Throw (XmlParseError (str "XML document does not have root element") 1 0)
  | Throw e => Throw e
  | OutOfFuel => OutOfFuel
  end.
Proof.
  intros H. destruct (H (newLexer xml) (rem_newLexer xml)) as (l' & E & _).
  unfold parseXml. rewrite E. reflexivity.
Qed.

(** C1, as amended: for every element tree whose element and attribute
    names are non-empty alphanumeric names with an alphanumeric (possibly
    empty) prefix, and whose text children are non-empty, never next to one
    another and free of [<] and [&], parsing the string produced by
    [toString] returns the tree itself: the same names, the same attribute
    pairs in the same order with arbitrary values (which [toString]
    entity-escapes), and the same children in order and kind. *)
Theorem roundtrip_wellformed (e : XmlElement) :
  wfElement e = true → parseXml (XmlElement.toString e) = Ok e.
Proof.
  intros Hwf.
  rewrite (parseXml_of_run _ (XmlElement.appendChild (mkXmlElement (mkXmlName [] []) [] [])
                                (Elem e))); [reflexivity|].
  rewrite <- (app_nil_r (XmlElement.toString e)) at 2.
  apply Runs_parseContent_element.
  - exact Hwf.
  - apply content_ok_all.
  - rewrite app_nil_r. lia.
  - destruct (XmlElement.toString e) eqn:E.
    + destruct e. rewrite toString_unfold in E. discriminate.
    + cbn [length]. apply Runs_parseContent_end.
Qed.

Lemma roundtrip_wellformed_witness :
  wfElement roundtrip_sample = true
  ∧ parseXml (XmlElement.toString roundtrip_sample) = Ok roundtrip_sample.
Proof.
  split; [vm_compute; reflexivity|].
  apply (roundtrip_wellformed roundtrip_sample). vm_compute. reflexivity.
Defined.

(** C1, as stated, fails: two text children next to one another come
    back as one, and a text child is written without escaping, so that
    ["&amp;"] comes back as ["&"] and ["<"] makes the output unparsable. *)
Lemma roundtrip_counterexample :
  let a := mkXmlName [] (str "a") in
  parseXml (XmlElement.toString (mkXmlElement a [] [Text (str "x"); Text (str "y")]))
    = Ok (mkXmlElement a [] [Text (str "xy")])
  ∧ parseXml (XmlElement.toString (mkXmlElement a [] [Text (str "&amp;")]))
    = Ok (mkXmlElement a [] [Text (str "&")])
  ∧ parseXml (XmlElement.toString (mkXmlElement a [] [Text (str "<")]))
    = Throw (XmlParseError (str "Expected element/attribute name") 1 4)
  ∧ ¬ (∀ e, parseXml (XmlElement.toString e) = Ok e).
Proof.
  cbv zeta. split; [vm_compute; reflexivity|].
  split; [vm_compute; reflexivity|].
  split; [vm_compute; reflexivity|].
  intros H.
  specialize (H (mkXmlElement (mkXmlName [] (str "a")) [] [Text (str "&amp;")])).
  vm_compute in H. discriminate H.
Qed.

(* ===================================================================== *)
(** * Unclosed elements                                                    *)
(* ===================================================================== *)

(** C2: on the truncated inputs [<a>] and [<a><b>] (opening tags that are
    never closed) [parseXml] returns a tree instead of failing: at the end
    of the input [parseContent] leaves its loop for every element, not
    only for the dummy root.  The sibling paths do reject an element that
    is not closed by its own name: a closing tag with another name, also
    the enclosing element's, is a mismatch, and an input that ends inside
    a tag or inside a comment is an unexpected end. *)
Theorem unclosed_element_accepted :
  parseXml (str "<a>") = Ok (mkXmlElement (mkXmlName [] (str "a")) [] [])
  ∧ parseXml (str "<a><b>")
    = Ok (mkXmlElement (mkXmlName [] (str "a")) []
            [Elem (mkXmlElement (mkXmlName [] (str "b")) [] [])])
  ∧ parseXml (str "<a></b>")
    = Throw (XmlParseError (str "Mismatched closing tag; expected <a/> but got b") 1 6)
  ∧ parseXml (str "<a><b></a>")
    = Throw (XmlParseError (str "Mismatched closing tag; expected <b/> but got a") 1 9)
  ∧ parseXml (str "<a b='x") = Throw (XmlParseError (str "Unexpected end") 1 7)
  ∧ parseXml (str "<a><!--") = Throw (XmlParseError (str "Unexpected end") 1 7).
Proof. repeat split; vm_compute; reflexivity. Qed.

(* ===================================================================== *)
(** * Unknown entity names                                                 *)
(* ===================================================================== *)

(** Whatever the name, an entity reference whose lower-case name is not a
    key of the table ends in a [TypeError]: [ENTITY_REFS[name]] is not a
    string and [.charCodeAt(0)] is called on it before the check that was
    meant to report the name. *)
Lemma parseEntity_unknown_name (nm rest : jsstring) (l : Lexer) :
  forallb (includes LOWERCASE) nm = true → ENTITY_REFS nm = None →
  rem l = chr "&" :: nm ++ chr ";" :: rest →
  parseEntity l = Throw TypeError.
Proof.
  intros Hnm Href Hl. unfold parseEntity.
  eapply Runs_bind_throw; [apply Runs_expect | exact Hl |].
  intros l1 Hl1. unfold bind at 1.
  assert (H : (let* hash := skipIf (chr "#") in
               if hash then
                 let* x := skipIf (chr "x") in
                 let* hex := (if x then ret true else skipIf (chr "X")) in
                 if hex then
                   let* num := consumeWhile HEX in
                   if (length num <? 1) || (6 <? length num)
                   then throwErr (str "Hexadecimal entity is invalid")
                   else ret (parseInt 16 num)
                 else
                   let* num := consumeWhile DIGIT in
                   if (length num <? 1) || (7 <? length num)
                   then throwErr (str "Decimal entity is invalid")
                   else ret (parseInt 10 num)
               else
                 let* nm := consumeWhile LOWERCASE in
                 match ENTITY_REFS nm with
                 | None => throw TypeError
                 | Some s =>
                     match s with
                     | c :: _ =>
                         if (c =? 0)%N
                         then throwErr (str "Invalid entity reference: " ++ nm)
                         else ret c
                     | [] => throwErr (str "Invalid entity reference: " ++ nm)
                     end
                 end) l1 = Throw TypeError).
  { eapply Runs_bind_throw; [apply Runs_skipIf_false | exact Hl1 |].
    { destruct nm as [|x nm]; [reflexivity|]. cbn [forallb] in Hnm.
      apply andb_true_iff in Hnm as [Hx _].
      apply (includes_other LOWERCASE); [exact Hx | reflexivity]. }
    intros l2 Hl2. cbv beta iota.
    pose proof (Runs_consumeWhile LOWERCASE nm (chr ";" :: rest)
                  (forallb_Forall _ _ Hnm) eq_refl) as Hrun.
    eapply Runs_bind_throw; [exact Hrun | exact Hl2 |].
    intros l3 _. rewrite Href. reflexivity. }
  rewrite H. reflexivity.
Qed.

(** C3: on the document [<a>&foo;</a>], whose entity name is not in the
    table, [parseXml] ends in a [TypeError], not in an [XmlParseError]
    with a line, a column and a description; so does the name of the
    inherited property [constructor]. *)
Theorem unknown_entity_TypeError :
  parseXml (str "<a>&foo;</a>") = Throw TypeError
  ∧ parseXml (str "<a b='&bar;'/>") = Throw TypeError
  ∧ parseXml (str "<a>&constructor;</a>") = Throw TypeError.
Proof. repeat split; vm_compute; reflexivity. Qed.

(* ===================================================================== *)
(** * Raw markup characters in attribute values                            *)
(* ===================================================================== *)

Lemma QUOTE_cases (q : jschar) :
  includes QUOTE q = true → q = chr "'" ∨ q = DQUOTE.
Proof.
  unfold includes, QUOTE. cbn [existsb].
  rewrite !orb_true_iff, !jschar_eqb_eq. intros [H | [H | H]]; [auto | auto | discriminate].
Qed.

(** C9: the scan of an attribute value stops only at the quote character
    that opened it (or at [&], which starts an entity): every other
    character, including [<], [>] and the other quote character, is taken
    as it stands; [parseXml] accepts a document with such a value and
    stores the value verbatim. *)
Theorem attribute_value_raw_markup (q : jschar) (v : jsstring) :
  includes QUOTE q = true →
  Forall (fun c => c ≠ q ∧ c ≠ chr "&") v →
  (∀ s, Runs (parseTextOrValue q) (v ++ q :: s) v (q :: s))
  ∧ parseXml (str "<a b=" ++ q :: v ++ q :: str "/>")
    = Ok (mkXmlElement (mkXmlName [] (str "a")) [(mkXmlName [] (str "b"), v)] []).
Proof.
  intros Hq Hv.
  assert (Hscan : ∀ s, Runs (parseTextOrValue q) (v ++ q :: s) v (q :: s)).
  { intros s. apply Runs_parseTextOrValue_plain.
    - eapply Forall_impl; [|exact Hv]. cbv beta.
      intros c [H1 H2]. split; apply jschar_eqb_neq; assumption.
    - cbn [stopsAt]. apply jschar_eqb_refl. }
  split; [exact Hscan|].
  rewrite (parseXml_of_run _
             (XmlElement.appendChild (mkXmlElement (mkXmlName [] []) [] [])
                (Elem (mkXmlElement (mkXmlName [] (str "a"))
                         [(mkXmlName [] (str "b"), v)] []))));
    [reflexivity|].
  assert (Hws : headIn WHITESPACE (q :: v ++ q :: str "/>") = false)
    by (destruct (QUOTE_cases q Hq); subst q; reflexivity).
  assert (Htag : ∀ fuel,
             Runs (openingTag_loop (S (S fuel)) [])
                  (str " b=" ++ q :: v ++ q :: str "/>")
                  ([(mkXmlName [] (str "b"), v)], true) []).
  { intros fuel. eval_str. cbn [app openingTag_loop].
    eapply Runs_bind; [apply (Runs_skipWhile WHITESPACE [32%N]);
                       [repeat constructor | reflexivity]|].
    cbv beta.
    run_with Runs_skipIf_false; [reflexivity|].
    run_with Runs_skipIf_false; [reflexivity|].
    eapply Runs_bind.
    { apply (Runs_parseName (mkXmlName [] [98%N]) (61%N :: _)); reflexivity. }
    cbv beta.
    run_with Runs_skipWhile_none; [reflexivity|].
    run_with Runs_expect.
    run_with Runs_skipWhile_none; [exact Hws|].
    run_with Runs_expectOneOf; [exact Hq|].
    eapply Runs_bind; [apply Hscan|]. cbv beta.
    run_with Runs_expect.
    run_with Runs_skipWhile_none; [reflexivity|].
    run_with Runs_skipIf_true.
    run_with Runs_expect. cbn [app]. apply Runs_ret. }
  revert Htag. eval_str. cbn [app]. intros Htag. cbn [parseContent].
  eapply Runs_bind;
    [apply (Runs_parseTextOrValue_plain _ [] _); [constructor | reflexivity]|].
  cbn [truthy]. run_with Runs_isEnd. cbv iota.
  run_with Runs_expect.
  run_with Runs_skipIf_false; [reflexivity|].
  run_with Runs_skipIf_false; [reflexivity|].
  run_with Runs_skipIf_false; [reflexivity|].
  eapply Runs_bind.
  { apply (Runs_parseName (mkXmlName [] [97%N]) (32%N :: _)); reflexivity. }
  cbv beta iota.
  eapply Runs_bind.
  { unfold openingTag. apply (Runs_fuel (fun fuel => openingTag_loop fuel [])).
    apply Htag. }
  cbv beta iota. cbn [negb].
  eapply Runs_bind; [apply Runs_ret|]. cbv beta.
  apply Runs_parseContent_end.
Qed.

Lemma attribute_value_raw_markup_witness :
  (∀ s, Runs (parseTextOrValue DQUOTE) (str "<x>'" ++ DQUOTE :: s) (str "<x>'") (DQUOTE :: s))
  ∧ parseXml (str "<a b=" ++ DQUOTE :: str "<x>'" ++ DQUOTE :: str "/>")
    = Ok (mkXmlElement (mkXmlName [] (str "a"))
            [(mkXmlName [] (str "b"), str "<x>'")] []).
Proof.
  apply (attribute_value_raw_markup DQUOTE (str "<x>'")).
  - reflexivity.
  - repeat constructor; discriminate.
Defined.

(* ===================================================================== *)
(** * Queries                                                              *)
(* ===================================================================== *)

Lemma find_first {A} (f : A -> bool) (l : list A) (x : A) :
  List.find f l = Some x ↔
  ∃ pre post, l = pre ++ x :: post ∧ f x = true ∧ Forall (fun y => f y = false) pre.
Proof.
  induction l as [|y l IH]; simpl.
  - split; [discriminate|]. intros (pre & post & E & _). destruct pre; discriminate.
  - destruct (f y) eqn:Ey.
    + split.
      * intros [= ->]. exists [], l. repeat split; [assumption | constructor].
      * intros (pre & post & E & Hx & Hpre). destruct pre as [|z pre].
        -- simpl in E. congruence.
        -- simpl in E. injection E as -> ->. inversion Hpre; congruence.
    + rewrite IH. split.
      * intros (pre & post & -> & Hx & Hpre). exists (y :: pre), post.
        repeat split; [assumption | constructor; assumption].
      * intros (pre & post & E & Hx & Hpre). destruct pre as [|z pre].
        -- simpl in E. injection E as -> ->. congruence.
        -- simpl in E. injection E as -> ->. exists pre, post.
           inversion Hpre; subst. repeat split; assumption.
Qed.

Lemma findIdAttr_firstIdValue (e : XmlElement) (id : jsstring) :
  (∃ n, XmlElement.findIdAttr e = Some (n, id)) ↔ firstIdValue e id.
Proof.
  unfold XmlElement.findIdAttr, firstIdValue. split.
  - intros (n & H). apply find_first in H as (pre & post & E & Hn & Hpre).
    exists pre, n, post. repeat split; [exact E | apply jsstring_eqb_eq, Hn |].
    eapply Forall_impl; [|exact Hpre]. intros [m w] Hm. simpl.
    apply jsstring_eqb_neq, Hm.
  - intros (pre & n & post & E & Hn & Hpre). exists n. apply find_first.
    exists pre, post. repeat split; [exact E | apply jsstring_eqb_eq, Hn |].
    eapply Forall_impl; [|exact Hpre]. intros [m w] Hm. simpl in *.
    apply jsstring_eqb_neq, Hm.
Qed.

(** C6, as amended: [matches] returns true iff either configured field
    matches (a logical OR, also when both are set): the [id] field matches
    iff the first attribute whose local name is [ID] (whatever its prefix)
    has exactly that value, and the [name] field matches iff the element's
    local name equals it, whatever the prefix. *)
Theorem matches_iff (q : XmlQuery) (e : XmlElement) :
  XmlElement.matches q e = true ↔
  (∃ id, q_id q = Some id ∧ firstIdValue e id)
  ∨ (∃ nm, q_name q = Some nm ∧ name (ename e) = nm).
Proof.
  unfold XmlElement.matches. split.
  - destruct (q_id q) as [id|] eqn:Eid.
    + destruct (XmlElement.findIdAttr e) as [[n v]|] eqn:Ef.
      * destruct (jsstring_eqb v id) eqn:Ev.
        -- intros _. left. exists id. split; [reflexivity|].
           apply findIdAttr_firstIdValue. exists n.
           apply jsstring_eqb_eq in Ev. congruence.
        -- destruct (q_name q) as [nm|]; [|discriminate].
           destruct (jsstring_eqb _ nm) eqn:En; [|discriminate].
           intros _. right. exists nm. split; [reflexivity | apply jsstring_eqb_eq, En].
      * destruct (q_name q) as [nm|]; [|discriminate].
        destruct (jsstring_eqb _ nm) eqn:En; [|discriminate].
        intros _. right. exists nm. split; [reflexivity | apply jsstring_eqb_eq, En].
    + destruct (q_name q) as [nm|]; [|discriminate].
      destruct (jsstring_eqb _ nm) eqn:En; [|discriminate].
      intros _. right. exists nm. split; [reflexivity | apply jsstring_eqb_eq, En].
  - intros [(id & Eid & Hfirst) | (nm & Enm & Hnm)].
    + apply findIdAttr_firstIdValue in Hfirst as (n & Hn).
      rewrite Eid, Hn, jsstring_eqb_refl. reflexivity.
    + rewrite Enm. apply jsstring_eqb_eq in Hnm. rewrite Hnm.
      destruct (match q_id q with Some _ => _ | None => _ end); reflexivity.
Qed.

(** C6, as stated, fails: an element with the attributes [a:ID="1"] and
    [ID="2"] has an attribute literally named [ID] with the value ["2"], but
    does not match the query [{ id: "2" }]: only the first attribute whose
    local name is [ID] is looked at. *)
Lemma matches_counterexample :
  let e := mkXmlElement (mkXmlName [] (str "x"))
             [(mkXmlName (str "a") (str "ID"), str "1");
              (mkXmlName [] (str "ID"), str "2")] [] in
  let q := mkXmlQuery (Some (str "2")) None in
  XmlElement.matches q e = false
  ∧ In (mkXmlName [] (str "ID"), str "2") (attrs e)
  ∧ ¬ (∀ q e, XmlElement.matches q e = true ↔
         (∃ id, q_id q = Some id
                ∧ ∃ n, In (n, id) (attrs e) ∧ name n = str "ID")
         ∨ (∃ nm, q_name q = Some nm ∧ name (ename e) = nm)).
Proof.
  cbv zeta. split; [reflexivity|]. split; [right; left; reflexivity|].
  intros H.
  specialize (H (mkXmlQuery (Some (str "2")) None)
                (mkXmlElement (mkXmlName [] (str "x"))
                   [(mkXmlName (str "a") (str "ID"), str "1");
                    (mkXmlName [] (str "ID"), str "2")] [])).
  destruct H as [_ H].
  assert (Hm : XmlElement.matches (mkXmlQuery (Some (str "2")) None)
                 (mkXmlElement (mkXmlName [] (str "x"))
                    [(mkXmlName (str "a") (str "ID"), str "1");
                     (mkXmlName [] (str "ID"), str "2")] []) = true).
  { apply H. left. exists (str "2"). split; [reflexivity|].
    exists (mkXmlName [] (str "ID")). split; [right; left; reflexivity | reflexivity]. }
  vm_compute in Hm. discriminate Hm.
Qed.

(* ===================================================================== *)
(** * The parent link: [addChild], [deleteChild], [detach]                 *)
(* ===================================================================== *)

Module StoreFacts.
Import Store.

Lemma insert_at (σ : store) (r x : ref) (o : Obj) :
  (<[r := o]> σ) x = if decide (r = x) then o else σ x.
Proof.
  destruct (decide (r = x)) as [->|Hne].
  - apply fn_lookup_insert.
  - apply fn_lookup_insert_ne, Hne.
Qed.

Lemma count_occ_splice_insert (pos : nat) (x y : Node) (l : list Node) :
  count_occ Node_eq_dec (splice_insert pos x l) y
  = count_occ Node_eq_dec l y + (if decide (x = y) then 1 else 0).
Proof.
  assert (E : count_occ Node_eq_dec l y
              = count_occ Node_eq_dec (take pos l) y + count_occ Node_eq_dec (drop pos l) y)
    by (rewrite <- count_occ_app, take_drop; reflexivity).
  unfold splice_insert. rewrite count_occ_app, E. cbn [count_occ].
  destruct (Node_eq_dec x y), (decide (x = y)); try contradiction; lia.
Qed.

Lemma elem_of_count_occ (x : Node) (l : list Node) :
  x ∈ l ↔ 0 < count_occ Node_eq_dec l x.
Proof. rewrite list_elem_of_In. apply count_occ_In. Qed.

Lemma count_occ_splice_delete (i : nat) (x y : Node) (l : list Node) :
  l !! i = Some x →
  count_occ Node_eq_dec l y
  = count_occ Node_eq_dec (splice_delete i l) y + (if decide (x = y) then 1 else 0).
Proof.
  intros Hi. unfold splice_delete.
  rewrite <- (take_drop_middle l i x Hi) at 1.
  rewrite !count_occ_app. cbn [count_occ].
  destruct (Node_eq_dec x y), (decide (x = y)); try contradiction; lia.
Qed.

Lemma findIndex_notin (c : ref) (l : list Node) :
  NElem c ∉ l → findIndex c l = (-1)%Z.
Proof.
  induction l as [|x l IH]; [reflexivity|].
  intros Hn. apply not_elem_of_cons in Hn as [Hx Hl]. cbn [findIndex].
  destruct (decide (x = NElem c)); [congruence|]. rewrite (IH Hl). reflexivity.
Qed.

Lemma findIndex_in (c : ref) (l : list Node) :
  NElem c ∈ l →
  ∃ i, findIndex c l = Z.of_nat i ∧ l !! i = Some (NElem c).
Proof.
  induction l as [|x l IH]; [intros H; inversion H|].
  intros Hin. cbn [findIndex]. destruct (decide (x = NElem c)) as [->|Hne].
  - exists 0. split; reflexivity.
  - apply elem_of_cons in Hin as [Heq | Hin]; [congruence|].
    destruct (IH Hin) as (i & Ei & Hi). exists (S i). rewrite Ei. split; [|exact Hi].
    destruct i; simpl; lia.
Qed.

(** What [deleteChild] does when the child is found. *)
Lemma deleteChild_found (σ : store) (this child : ref) :
  NElem child ∈ children (σ this) →
  ∃ i, children (σ this) !! i = Some (NElem child)
       ∧ deleteChild this child σ =
         (Ok (Z.of_nat i),
          <[child := setParent
                       ((<[this := setChildren (σ this)
                                     (splice_delete i (children (σ this)))]> σ) child)
                       None]>
            (<[this := setChildren (σ this) (splice_delete i (children (σ this)))]> σ)).
Proof.
  intros Hin. destruct (findIndex_in _ _ Hin) as (i & Ei & Hi).
  exists i. split; [exact Hi|]. unfold deleteChild. rewrite Ei.
  replace (-1 <? Z.of_nat i)%Z with true by (symmetry; apply Z.ltb_lt; lia).
  rewrite Nat2Z.id. reflexivity.
Qed.

Lemma deleteChild_absent (σ : store) (this child : ref) :
  NElem child ∉ children (σ this) → deleteChild this child σ = (Ok (-1)%Z, σ).
Proof.
  intros Hn. unfold deleteChild. rewrite (findIndex_notin _ _ Hn). reflexivity.
Qed.

Lemma attached_deleteChild (σ : store) (this child : ref) :
  attached σ → attached (snd (deleteChild this child σ)).
Proof.
  intros [H1 H2].
  destruct (decide (NElem child ∈ children (σ this))) as [Hin | Hn];
    [|rewrite (deleteChild_absent _ _ _ Hn); split; assumption].
  destruct (deleteChild_found _ _ _ Hin) as (i & Hi & ->). cbn [snd].
  pose proof (H2 _ _ Hin) as Hpar. pose proof (H1 _ _ Hpar) as Hcount.
  set (cs' := splice_delete i (children (σ this))).
  assert (Hch : ∀ x, children ((<[child := setParent
              ((<[this := setChildren (σ this) cs']> σ) child) None]>
              (<[this := setChildren (σ this) cs']> σ)) x)
            = if decide (this = x) then cs' else children (σ x)).
  { intros x. rewrite !insert_at.
    destruct (decide (child = x)), (decide (this = x)); subst;
      cbn [setParent setChildren children]; rewrite ?insert_at;
      repeat (destruct (decide _)); try congruence; reflexivity. }
  assert (Hpa : ∀ x, parent ((<[child := setParent
              ((<[this := setChildren (σ this) cs']> σ) child) None]>
              (<[this := setChildren (σ this) cs']> σ)) x)
            = if decide (child = x) then None else parent (σ x)).
  { intros x. rewrite !insert_at.
    destruct (decide (child = x)), (decide (this = x)); subst;
      cbn [setParent setChildren parent]; reflexivity. }
  assert (Hcnt : ∀ y, count_occ Node_eq_dec (children (σ this)) y
                      = count_occ Node_eq_dec cs' y
                        + (if decide (NElem child = y) then 1 else 0))
    by (intros y; apply count_occ_splice_delete, Hi).
  split.
  - intros c p. rewrite Hpa, Hch. destruct (decide (child = c)); [discriminate|].
    intros Hp. specialize (H1 _ _ Hp). destruct (decide (this = p)) as [<-|]; [|exact H1].
    rewrite Hcnt in H1. destruct (decide (NElem child = NElem c)); [congruence | lia].
  - intros p c. rewrite Hpa, Hch. intros Hc.
    assert (Hc' : NElem c ∈ children (σ p) ∧ c ≠ child).
    { destruct (decide (this = p)) as [<-|Hne].
      - apply elem_of_count_occ in Hc. pose proof (Hcnt (NElem c)) as E. split.
        + apply elem_of_count_occ. lia.
        + intros ->. rewrite Hcount in E.
          destruct (decide (NElem child = NElem child)); [lia | congruence].
      - split; [exact Hc|]. intros ->. apply H2 in Hc. congruence. }
    destruct Hc' as [Hc' Hne]. destruct (decide (child = c)); [congruence|].
    apply H2, Hc'.
Qed.

Lemma attached_detach (σ : store) (this : ref) :
  attached σ → attached (snd (detach this σ)).
Proof.
  intros H. unfold detach. destruct (parent (σ this)) as [p|]; [|exact H].
  pose proof (attached_deleteChild σ p this H) as H'.
  destruct (deleteChild p this σ) as [[pos | e |] σ']; exact H'.
Qed.

Lemma attached_addChild (σ : store) (this : ref) (child : Node) (pos : option Z) :
  attached σ → attached (snd (addChild this child pos σ)).
Proof.
  intros [H1 H2]. unfold addChild.
  set (p := match pos with Some p => p | None => _ end).
  destruct (_ || _); [split; assumption|].
  destruct child as [s | c].
  - cbn [snd]. split.
    + intros c q. rewrite !insert_at.
      destruct (decide (this = c)), (decide (this = q)); subst;
        cbn [setChildren parent children]; intros Hp;
        rewrite ?count_occ_splice_insert;
        try (destruct (decide (NText s = NElem _)); [discriminate|]);
        rewrite ?Nat.add_0_r; apply H1, Hp.
    + intros q c. rewrite !insert_at.
      assert (Hin : NElem c ∈ splice_insert (Z.to_nat p) (NText s) (children (σ this))
                    → NElem c ∈ children (σ this)).
      { rewrite !elem_of_count_occ, count_occ_splice_insert.
        destruct (decide (NText s = NElem c)); [discriminate | lia]. }
      destruct (decide (this = c)), (decide (this = q)); subst;
        cbn [setChildren parent children]; intros Hc; auto.
  - destruct (parent (σ c)) as [q0|] eqn:Epar; [split; assumption|]. cbn [snd].
    set (σ1 := <[c := setParent (σ c) (Some this)]> σ).
    assert (Hch1 : ∀ x, children (σ1 x) = children (σ x)).
    { intros x. subst σ1. rewrite insert_at. destruct (decide (c = x)); subst; reflexivity. }
    assert (Hpa1 : ∀ x, parent (σ1 x) = if decide (c = x) then Some this else parent (σ x)).
    { intros x. subst σ1. rewrite insert_at. destruct (decide (c = x)); subst; reflexivity. }
    set (cs' := splice_insert (Z.to_nat p) (NElem c) (children (σ1 this))).
    assert (Hch : ∀ x, children ((<[this := setChildren (σ1 this) cs']> σ1) x)
                       = if decide (this = x) then cs' else children (σ x)).
    { intros x. rewrite insert_at. destruct (decide (this = x)); [reflexivity | apply Hch1]. }
    assert (Hpa : ∀ x, parent ((<[this := setChildren (σ1 this) cs']> σ1) x)
                       = if decide (c = x) then Some this else parent (σ x)).
    { intros x. rewrite insert_at. destruct (decide (this = x)); subst;
        cbn [setChildren parent]; apply Hpa1. }
    assert (Hnot : count_occ Node_eq_dec (children (σ this)) (NElem c) = 0).
    { apply count_occ_not_In. rewrite <- list_elem_of_In. intros Hin.
      apply H2 in Hin. congruence. }
    assert (Hcnt : ∀ y, count_occ Node_eq_dec cs' y
                        = count_occ Node_eq_dec (children (σ this)) y
                          + (if decide (NElem c = y) then 1 else 0)).
    { intros y. subst cs'. rewrite count_occ_splice_insert, Hch1. reflexivity. }
    split.
    + intros c' q. rewrite Hpa, Hch. destruct (decide (c = c')) as [<-|Hne].
      * intros [= <-]. destruct (decide (this = this)); [|congruence].
        rewrite Hcnt, Hnot. destruct (decide (NElem c = NElem c)); [lia | congruence].
      * intros Hp. specialize (H1 _ _ Hp).
        destruct (decide (this = q)) as [<-|]; [|exact H1].
        rewrite Hcnt, H1. destruct (decide (NElem c = NElem c')); [congruence | lia].
    + intros q c'. rewrite Hpa, Hch. intros Hc.
      destruct (decide (c = c')) as [<-|Hne].
      * destruct (decide (this = q)) as [<-|Hq]; [reflexivity|].
        apply H2 in Hc. congruence.
      * destruct (decide (this = q)) as [<-|Hq]; [|apply H2, Hc].
        apply H2. apply elem_of_count_occ. apply elem_of_count_occ in Hc.
        rewrite Hcnt in Hc. destruct (decide (NElem c = NElem c')); [congruence | lia].
Qed.

Lemma attached_new (σ : store) (r : ref) (n : XmlName) a :
  attached σ → unreferenced σ r → attached (new r None n a σ).
Proof.
  intros [H1 H2] [U1 U2]. unfold new. split.
  - intros c p. rewrite !insert_at.
    destruct (decide (r = c)); [discriminate|]. intros Hp.
    destruct (decide (r = p)) as [<-|]; [exfalso; eapply U2; exact Hp|].
    apply H1, Hp.
  - intros p c. rewrite !insert_at.
    destruct (decide (r = p)); [intros H; inversion H|]. intros Hc.
    destruct (decide (r = c)) as [<-|]; [exfalso; eapply U1; exact Hc|].
    apply H2, Hc.
Qed.

Lemma reachable_attached (σ : store) : reachable σ → attached σ.
Proof.
  induction 1 as [σ H0 | σ r n a _ IH Hr | σ this child pos _ IH
                 | σ this child _ IH | σ this _ IH].
  - split.
    + intros c p Hp. destruct (H0 c) as [E _]. congruence.
    + intros p c Hc. destruct (H0 p) as [_ E]. rewrite E in Hc. inversion Hc.
  - apply attached_new; assumption.
  - apply attached_addChild, IH.
  - apply attached_deleteChild, IH.
  - apply attached_detach, IH.
Qed.

(** What [detach] does to an element that has a parent. *)
Lemma detach_spec (σ : store) (c p : ref) :
  attached σ → parent (σ c) = Some p →
  ∃ i σ',
    detach c σ = (Ok (p, Z.of_nat i), σ')
    ∧ children (σ p) !! i = Some (NElem c)
    ∧ parent (σ' c) = None
    ∧ children (σ' p) = splice_delete i (children (σ p))
    ∧ (NElem c ∉ children (σ' p))
    ∧ (∀ x, x ≠ p → children (σ' x) = children (σ x))
    ∧ (∀ x, x ≠ c → parent (σ' x) = parent (σ x))
    ∧ attached σ'.
Proof.
  intros Hatt Hp. pose proof (attached_detach σ c Hatt) as Hatt'.
  destruct Hatt as [H1 H2]. pose proof (H1 _ _ Hp) as Hcount.
  assert (Hin : NElem c ∈ children (σ p)) by (apply elem_of_count_occ; lia).
  destruct (deleteChild_found _ _ _ Hin) as (i & Hi & E).
  unfold detach in *. rewrite Hp, E in *. cbn [snd] in Hatt'.
  eexists i, _. split; [reflexivity|].
  set (cs' := splice_delete i (children (σ p))) in *.
  assert (Hch : children ((<[c := setParent ((<[p := setChildren (σ p) cs']> σ) c) None]>
                            (<[p := setChildren (σ p) cs']> σ)) p) = cs').
  { rewrite !insert_at. destruct (decide (c = p)); subst;
      cbn [setParent children]; rewrite ?insert_at;
      destruct (decide (p = p)); try congruence; reflexivity. }
  split; [exact Hi|]. split; [rewrite insert_at; destruct (decide (c = c)); [reflexivity | congruence]|].
  split; [exact Hch|]. split.
  - rewrite Hch. rewrite elem_of_count_occ.
    pose proof (count_occ_splice_delete i (NElem c) (NElem c) _ Hi) as Ec.
    fold cs' in Ec. destruct (decide (NElem c = NElem c)); [lia | congruence].
  - split; [|split; [|exact Hatt']].
    + intros x Hx. rewrite !insert_at.
      destruct (decide (c = x)); subst; cbn [setParent children]; rewrite ?insert_at;
        destruct (decide (p = x)); try congruence; reflexivity.
    + intros x Hx. rewrite !insert_at.
      destruct (decide (c = x)); [congruence|].
      destruct (decide (p = x)); subst; reflexivity.
Qed.

(** What [addChild] does, at the default position, with an element that
    has no parent. *)
Lemma addChild_spec (σ : store) (this c : ref) :
  parent (σ c) = None → (Z.of_nat (length (children (σ this))) < 2 ^ 32)%Z →
  ∃ σ', addChild this (NElem c) None σ = (Ok tt, σ')
        ∧ parent (σ' c) = Some this
        ∧ children (σ' this) = children (σ this) ++ [NElem c].
Proof.
  intros Hp Hlen. unfold addChild.
  assert (E32 : (2 ^ 32)%Z = 4294967296%Z) by reflexivity.
  assert (E53 : (2 ^ 53)%Z = 9007199254740992%Z) by reflexivity.
  replace (negb (isSafeInteger (Z.of_nat (length (children (σ this)))))
           || (Z.of_nat (length (children (σ this))) <? 0)%Z
           || (Z.of_nat (length (children (σ this)))
               <? Z.of_nat (length (children (σ this))))%Z) with false.
  2: { symmetry. unfold isSafeInteger. rewrite !orb_false_iff, negb_false_iff,
         andb_true_iff, !Z.leb_le, !Z.ltb_ge. lia. }
  rewrite Hp. eexists. split; [reflexivity|].
  rewrite Nat2Z.id. split.
  - rewrite !insert_at. destruct (decide (this = c)); subst; cbn [setChildren parent];
      rewrite ?insert_at; destruct (decide (c = c)); try congruence; reflexivity.
  - rewrite insert_at. destruct (decide (this = this)); [|congruence].
    cbn [setChildren children]. rewrite insert_at.
    unfold splice_insert.
    destruct (decide (c = this)); subst; cbn [setParent children];
      rewrite firstn_all, drop_all; reflexivity.
Qed.

(** C7: an element that already has a parent cannot be added as a child,
    anywhere: [addChild] throws and leaves the store as it is, and the
    error is "Cannot add child that already has parent" at the default
    position and at every position within the bounds; [detach] clears the parent of an element and removes it from
    the former parent's children, after which the element can be added to
    any element; and in every store built by the library an element with a
    parent occurs exactly once among that parent's children. *)
Theorem attach_invariant :
  (∀ σ this c q pos,
      parent (σ c) = Some q →
      (∃ e, addChild this (NElem c) pos σ = (Throw e, σ))
      ∧ (validPos σ this pos →
         addChild this (NElem c) pos σ
         = (Throw (ReferenceError (str "Cannot add child that already has parent")), σ)))
  ∧ (∀ σ c p q,
        attached σ → parent (σ c) = Some p →
        (Z.of_nat (length (children (snd (detach c σ) q))) < 2 ^ 32)%Z →
        let σ' := snd (detach c σ) in
        let σ'' := snd (addChild q (NElem c) None σ') in
        (∃ i, fst (detach c σ) = Ok (p, i))
        ∧ parent (σ' c) = None ∧ (NElem c ∉ children (σ' p))
        ∧ fst (addChild q (NElem c) None σ') = Ok tt
        ∧ parent (σ'' c) = Some q ∧ NElem c ∈ children (σ'' q)
        ∧ attached σ'')
  ∧ (∀ σ, reachable σ →
          ∀ c p, parent (σ c) = Some p →
                 count_occ Node_eq_dec (children (σ p)) (NElem c) = 1).
Proof.
  split; [|split].
  - intros σ this c q pos Hp. split.
    + unfold addChild. destruct (_ || _); [eexists; reflexivity|].
      rewrite Hp. eexists. reflexivity.
    + intros [Hlen Hpos]. unfold addChild.
      assert (E32 : (2 ^ 32)%Z = 4294967296%Z) by reflexivity.
      assert (E53 : (2 ^ 53)%Z = 9007199254740992%Z) by reflexivity.
      set (p := match pos with Some p => p | None => _ end).
      assert (Hb : (0 ≤ p ≤ Z.of_nat (length (children (σ this))))%Z)
        by (subst p; destruct pos; [exact Hpos | lia]).
      replace (negb (isSafeInteger p) || (p <? 0)%Z
               || (Z.of_nat (length (children (σ this))) <? p)%Z) with false.
      2: { symmetry. unfold isSafeInteger. rewrite !orb_false_iff, negb_false_iff,
             andb_true_iff, !Z.leb_le, !Z.ltb_ge. lia. }
      rewrite Hp. reflexivity.
  - intros σ c p q Hatt Hp Hlen. cbv zeta.
    destruct (detach_spec σ c p Hatt Hp)
      as (i & σ' & E & _ & Hpar & _ & Hnot & _ & _ & Hatt').
    rewrite E in *. cbn [fst snd] in *.
    destruct (addChild_spec σ' q c Hpar Hlen) as (σ'' & E' & Hpar' & Hch').
    pose proof (attached_addChild σ' q (NElem c) None Hatt') as Hatt''.
    rewrite E' in *. cbn [fst snd] in *.
    split; [eexists; reflexivity|]. split; [exact Hpar|]. split; [exact Hnot|].
    split; [reflexivity|]. split; [exact Hpar'|]. split; [|exact Hatt''].
    rewrite Hch'. apply elem_of_app. right. apply list_elem_of_singleton. reflexivity.
  - intros σ Hr c p Hp. apply reachable_attached in Hr as [H1 _]. apply H1, Hp.
Qed.

(** C10: [detach] on an element with a parent returns the former parent
    and the index at which the element occurred among the parent's
    children; afterwards the element has no parent and is no longer among
    those children.  [deleteChild] of an element that is not a child
    returns [-1] and changes nothing. *)
Theorem detach_deleteChild_result :
  (∀ σ c p,
      attached σ → parent (σ c) = Some p →
      ∃ i, fst (detach c σ) = Ok (p, Z.of_nat i)
           ∧ children (σ p) !! i = Some (NElem c)
           ∧ parent (snd (detach c σ) c) = None
           ∧ (NElem c ∉ children (snd (detach c σ) p))
           ∧ children (snd (detach c σ) p) = splice_delete i (children (σ p)))
  ∧ (∀ σ this child,
        NElem child ∉ children (σ this) →
        deleteChild this child σ = (Ok (-1)%Z, σ)).
Proof.
  split.
  - intros σ c p Hatt Hp.
    destruct (detach_spec σ c p Hatt Hp)
      as (i & σ' & E & Hi & Hpar & Hch & Hnot & _).
    rewrite E. cbn [fst snd]. exists i. repeat split; assumption.
  - intros σ this child Hn. apply deleteChild_absent, Hn.
Qed.

Lemma sample_reachable : reachable sample.
Proof.
  unfold sample. apply reachable_addChild.
  repeat (apply reachable_new;
          [|split; [intros p | intros c]; unfold new, blank; rewrite ?insert_at;
            repeat destruct (decide _); cbn [children parent];
            first [apply not_elem_of_nil | discriminate]]).
  apply reachable_init. intros r. split; reflexivity.
Qed.

Lemma sample_attached : attached sample.
Proof. apply reachable_attached, sample_reachable. Qed.

Lemma attach_invariant_witness :
  addChild 1 (NElem 2) None sample
  = (Throw (ReferenceError (str "Cannot add child that already has parent")), sample)
  ∧ fst (addChild 1 (NElem 2) None (snd (detach 2 sample))) = Ok tt
  ∧ count_occ Node_eq_dec (children (sample 0)) (NElem 2) = 1.
Proof.
  destruct attach_invariant as (H1 & H2 & H3). split; [|split].
  - destruct (H1 sample 1 2 0 None eq_refl) as [_ H].
    apply H. split; [reflexivity | exact I].
  - apply (H2 sample 2 0 1 sample_attached); reflexivity.
  - apply (H3 sample sample_reachable 2 0). reflexivity.
Defined.

Lemma detach_deleteChild_result_witness :
  (∃ i, fst (detach 2 sample) = Ok (0, Z.of_nat i)
        ∧ children (sample 0) !! i = Some (NElem 2)
        ∧ parent (snd (detach 2 sample) 2) = None
        ∧ (NElem 2 ∉ children (snd (detach 2 sample) 0))
        ∧ children (snd (detach 2 sample) 0) = splice_delete i (children (sample 0)))
  ∧ deleteChild 1 2 sample = (Ok (-1)%Z, sample).
Proof.
  destruct detach_deleteChild_result as (H1 & H2). split.
  - apply (H1 sample 2 0 sample_attached). reflexivity.
  - apply (H2 sample 1 2). vm_compute. intros H. inversion H.
Defined.

End StoreFacts.

(* ===================================================================== *)
(** * The compiled projection: child rules and the text rule               *)
(* ===================================================================== *)

Module MapperFacts.
Import Mapper.

Ltac eqb_to_eq :=
  repeat match goal with
         | H : jsstring_eqb _ _ = true |- _ => apply jsstring_eqb_eq in H
         | H : jsstring_eqb _ _ = false |- _ => apply jsstring_eqb_neq in H
         end.


Lemma counterGet_counterSet (k k' : jsstring) (n : Z) (c : Counter) :
  counterGet k (counterSet k' n c) = if jsstring_eqb k' k then n else counterGet k c.
Proof.
  induction c as [|[j m] c IH]; cbn [counterSet counterGet].
  - destruct (jsstring_eqb k' k); reflexivity.
  - destruct (jsstring_eqb j k') eqn:E1; cbn [counterGet];
      destruct (jsstring_eqb j k) eqn:E2; destruct (jsstring_eqb k' k) eqn:E3;
      try reflexivity; try exact IH;
      exfalso; eqb_to_eq; congruence.
Qed.

Lemma counterGet_decrement (k k' : jsstring) (c : Counter) :
  counterGet k (decrement k' c)
  = if jsstring_eqb k' k then (counterGet k c - 1)%Z else counterGet k c.
Proof.
  unfold decrement. rewrite counterGet_counterSet.
  destruct (jsstring_eqb k' k) eqn:E; [|reflexivity].
  apply jsstring_eqb_eq in E. subst. reflexivity.
Qed.

Lemma dictGet_snoc {V} (entryName : V -> jsstring) (key : jsstring) (entries : list V) (e : V) :
  dictGet entryName key (entries ++ [e])
  = if jsstring_eqb (entryName e) key then Some e else dictGet entryName key entries.
Proof. unfold dictGet. rewrite rev_app_distr. reflexivity. Qed.

Lemma dictGet_name {V} (entryName : V -> jsstring) (key : jsstring) (entries : list V) (e : V) :
  dictGet entryName key entries = Some e → entryName e = key.
Proof.
  unfold dictGet. intros H. apply find_some in H as [_ H]. apply jsstring_eqb_eq, H.
Qed.

(** The counter starts, for every name, at the count required by the rule
    in force for that name. *)
Lemma counterGet_counterNew (b : Builder) (nm : jsstring) (m : ElemMapping) :
  dictGet em_name nm (elemMappings b) = Some m →
  counterGet nm (counterNew (requiredElemCounts b)) = requiredCount m.
Proof.
  unfold counterNew, requiredElemCounts.
  change (fun e => (em_name e, match em_mode e with
                                | repeated => match em_min e with Some n => n | None => 0%Z end
                                | required => 1%Z
                                | optional => 0%Z
                                end))
    with (fun e => (em_name e, requiredCount e)).
  induction (elemMappings b) as [|e l IH] using rev_ind; [discriminate|].
  rewrite dictGet_snoc, map_app, fold_left_app. cbn [map fold_left].
  rewrite counterGet_counterSet.
  destruct (jsstring_eqb (em_name e) nm); [intros [= ->]; reflexivity | exact IH].
Qed.

Lemma positiveEntries_nonempty (c : Counter) (nm : jsstring) :
  (0 < counterGet nm c)%Z → positiveEntries c ≠ [].
Proof.
  induction c as [|[k n] c IH]; cbn [counterGet positiveEntries List.filter]; [lia|].
  destruct (jsstring_eqb k nm).
  - intros H. replace (0 <? n)%Z with true by (symmetry; apply Z.ltb_lt; lia). discriminate.
  - intros H. destruct (0 <? n)%Z; [discriminate | apply IH, H].
Qed.

(** What one step of the child loop does to the counter. *)
Lemma processChild_count b path k c st st' nm :
  processChild b path k c st = Ok st' →
  counterGet nm (remainingElemCounts st')
  = (counterGet nm (remainingElemCounts st) - (if isNamed nm c then 1 else 0))%Z.
Proof.
  destruct c as [t | e]; cbn [processChild isNamed].
  - destruct (textMapping b) as [tm|].
    + destruct (seenText st).
      * destruct (negb _); [discriminate|]. intros [= <-]. lia.
      * destruct (match tm_validator tm with Some _ => _ | None => _ end);
          [|discriminate..]. intros [= <-]. cbn [remainingElemCounts]. lia.
    + destruct (negb _); [discriminate|]. intros [= <-]. lia.
  - destruct (dictGet em_name _ _) as [m|]; [|discriminate].
    destruct (em_mapper m e _) as [val | |]; [|discriminate..].
    assert (E : ∀ r s, counterGet nm (remainingElemCounts
                  (mkChildState r s (decrement (name (ename e)) (remainingElemCounts st))))
                = (counterGet nm (remainingElemCounts st)
                   - (if jsstring_eqb (name (ename e)) nm then 1 else 0))%Z).
    { intros r s. cbn [remainingElemCounts]. rewrite counterGet_decrement.
      destruct (jsstring_eqb _ nm); lia. }
    destruct (negb (em_ignore m)).
    + destruct (em_mode m).
      * destruct (getProp _ _) as [[| | | |items|]|]; try discriminate.
        intros [= <-]. apply E.
      * intros [= <-]. apply E.
      * intros [= <-]. apply E.
    + intros [= <-]. apply E.
Qed.

Lemma processChildren_count b path nm cs : ∀ k st st',
  processChildren b path k cs st = Ok st' →
  counterGet nm (remainingElemCounts st')
  = (counterGet nm (remainingElemCounts st) - Z.of_nat (countNamed nm cs))%Z.
Proof.
  induction cs as [|c cs IH]; intros k st st'; cbn [processChildren].
  - intros [= <-]. unfold countNamed. simpl. lia.
  - destruct (processChild b path k c st) as [st1 | |] eqn:E1; [|discriminate..].
    intros H. rewrite (IH _ _ _ H), (processChild_count _ _ _ _ _ _ nm E1).
    unfold countNamed. cbn [List.filter]. destruct (isNamed nm c); cbn [length]; lia.
Qed.


Section RequiredRule.
Variables (b : Builder) (path : ValuePath) (nm : jsstring) (m : ElemMapping).
Hypothesis rule : dictGet em_name nm (elemMappings b) = Some m.
Hypothesis mode : em_mode m = required.


Hypothesis kept : em_ignore m = false.
Hypothesis text_elsewhere :
  ∀ tm, textMapping b = Some tm → tm_ignore tm = true ∨ tm_name tm ≠ nm.




End RequiredRule.

Example testMapper_result :
  run testMapper (parsed testDocument)
  = Ok (VObject
          [(str "created", VParsed 1612501200000);
           (str "User", VArray [VObject [(str "id", VParsed 1)];
                                VObject [(str "id", VParsed 2)]]);
           (str "Group", VArray [])]).
Proof. vm_compute. reflexivity. Qed.




(** ** The text rule *)











Lemma build_Ok_inv b elem path v :
  build b elem path = Ok v →
  ∃ res0 st,
    processChildren b path 0 (children elem) (initialState b res0) = Ok st
    ∧ positiveEntries (remainingElemCounts st) = []
    ∧ (hasTextRule b = true → seenText st = true)
    ∧ v = VObject (res st).
Proof.
  unfold build. destruct (match expectedName b with Some _ => _ | None => _ end);
    [discriminate|].
  destruct (processAttrs _ _ _ _ _) as [[res0 remainingAttrs] | |]; [|discriminate..].
  destruct remainingAttrs; [|discriminate].
  unfold mapChildren. fold (initialState b res0).
  destruct (processChildren _ _ _ _ _) as [st | |] eqn:Est; [|discriminate..].
  destruct (positiveEntries (remainingElemCounts st)) as [|[k count] tl] eqn:Ep;
    [|discriminate].
  unfold hasTextRule. intros H. exists res0, st. split; [exact Est|]. split; [exact Ep|].
  destruct (textMapping b).
  - destruct (seenText st); [|discriminate]. injection H as <-. split; reflexivity.
  - injection H as <-. split; [discriminate | reflexivity].
Qed.







End MapperFacts.

(* ===================================================================== *)
(** * Line and column                                                      *)
(* ===================================================================== *)

Lemma positionFrom_snoc (s : jsstring) (c : jschar) : ∀ prev lc,
  positionFrom prev lc (s ++ [c])
  = advance (match list.last s with Some x => Some x | None => prev end) c
      (positionFrom prev lc s).
Proof.
  induction s as [|x s IH]; intros prev lc; [reflexivity|].
  cbn [app positionFrom]. rewrite IH. f_equal.
  destruct s as [|y s]; [reflexivity|]. rewrite last_cons_cons.
  destruct (list.last (y :: s)) eqn:E; [reflexivity|].
  apply last_None in E. discriminate.
Qed.

Lemma positionAfter_snoc (pre : jsstring) (c : jschar) :
  positionAfter (pre ++ [c]) = advance (list.last pre) c (positionAfter pre).
Proof.
  unfold positionAfter. rewrite positionFrom_snoc. destruct (list.last pre); reflexivity.
Qed.

Lemma tracked_newLexer (s : jsstring) : tracked (newLexer s).
Proof. split; [simpl; lia | reflexivity]. Qed.

Lemma Tracks_ret {A} (a : A) : Tracks (ret a).
Proof. intros l Hl. simpl. auto. Qed.

Lemma Tracks_bind {A B} (m : P A) (k : A -> P B) :
  Tracks m → (∀ a, Tracks (k a)) → Tracks (bind m k).
Proof.
  intros Hm Hk l Hl. unfold bind. specialize (Hm l Hl).
  destruct (m l) as [[a l1] | e |]; [|exact Hm | exact I].
  destruct Hm as [Hsrc Hl1]. specialize (Hk a l1 Hl1).
  destruct (k a l1) as [[b0 l2] | e |]; [| |exact I].
  - destruct Hk as [Hsrc2 Hl2]. split; [congruence | exact Hl2].
  - rewrite <- Hsrc. exact Hk.
Qed.

Lemma Tracks_throwErr {A} (msg : jsstring) : Tracks (@throwErr A msg).
Proof.
  intros l [Hn Hp]. unfold throwErr, err. simpl. exists (next l). split; assumption.
Qed.

Lemma Tracks_throw_TypeError {A} : Tracks (@throw A TypeError).
Proof. intros l _. exact I. Qed.

Lemma Tracks_fuel {A} (f : nat -> P A) :
  (∀ fuel, Tracks (f fuel)) → Tracks (fun l => f (S (remaining l)) l).
Proof. intros H l Hl. apply H, Hl. Qed.

Lemma Tracks_peek : Tracks peek.
Proof. intros l Hl. simpl. auto. Qed.

Lemma last_take_S (s : jsstring) (i : nat) (x : jschar) :
  s !! i = Some x → list.last (take (S i) s) = Some x.
Proof.
  intros Hi. rewrite (take_S_r _ _ _ Hi). apply last_snoc.
Qed.

(** The update of the counters in [consumeOrEnd] is the step in words. *)
Lemma consumeOrEnd_advance (l : Lexer) (c : jschar) :
  tracked l → src l !! next l = Some c →
  ∃ l', consumeOrEnd l = Ok (Some c, l')
        ∧ src l' = src l ∧ next l' = S (next l)
        ∧ (line l', col l') = advance (list.last (take (next l) (src l))) c (line l, col l)
        ∧ tracked l'.
Proof.
  intros [Hn Hp] Hc. unfold consumeOrEnd. rewrite Hc.
  assert (Hprev : prevIsNotCR l
                  = match list.last (take (next l) (src l)) with
                    | Some p => negb (jschar_eqb p CR)
                    | None => true
                    end).
  { unfold prevIsNotCR. destruct (next l) as [|i] eqn:En; [reflexivity|].
    destruct (src l !! i) as [x|] eqn:Ex.
    - rewrite (last_take_S _ _ _ Ex). reflexivity.
    - apply lookup_ge_None in Ex. lia. }
  cbv zeta.
  set (l1 := if jschar_eqb c CR || jschar_eqb c LF && prevIsNotCR l then _ else _).
  assert (Hadv : src l1 = src l ∧ next l1 = next l
                 ∧ (line l1, col l1)
                   = advance (list.last (take (next l) (src l))) c (line l, col l)).
  { subst l1. rewrite Hprev. unfold advance. cbn [fst snd].
    destruct (jschar_eqb c CR); cbn [orb]; [repeat split|].
    destruct (jschar_eqb c LF); cbn [andb negb]; [|repeat split].
    destruct (list.last (take (next l) (src l))) as [p|]; [|repeat split].
    destruct (jschar_eqb p CR); cbn [negb]; repeat split. }
  destruct Hadv as (Hs & Hnx & Hlc).
  eexists. split; [reflexivity|]. cbn [src next line col].
  split; [exact Hs|]. split; [rewrite Hnx; reflexivity|]. split; [exact Hlc|].
  split; cbn [src next line col].
  - rewrite Hs, Hnx. apply lookup_lt_Some in Hc. lia.
  - rewrite Hs, Hnx, Hlc, (take_S_r _ _ _ Hc), positionAfter_snoc, <- Hp. reflexivity.
Qed.

Lemma Tracks_consumeOrEnd : Tracks consumeOrEnd.
Proof.
  intros l Hl. destruct (src l !! next l) as [c|] eqn:Hc.
  - destruct (consumeOrEnd_advance l c Hl Hc) as (l' & -> & Hs & _ & _ & Hl'). auto.
  - unfold consumeOrEnd. rewrite Hc. auto.
Qed.

Create HintDb tracks.
#[local] Hint Resolve Tracks_peek Tracks_consumeOrEnd : tracks.

(** Decompose code built from [bind], [ret], [throwErr] and branches. *)
Ltac tracks :=
  repeat first
    [ assumption
    | apply Tracks_ret
    | apply Tracks_throwErr
    | apply Tracks_throw_TypeError
    | solve [auto 1 with tracks nocore]
    | apply Tracks_bind; [|intros ?]
    | match goal with
      | |- Tracks (if ?c then _ else _) => destruct c
      | |- Tracks (match ?x with _ => _ end) => destruct x
      end ].

Lemma Tracks_isEnd : Tracks isEnd.
Proof. unfold isEnd. tracks. Qed.

Lemma Tracks_consume : Tracks consume.
Proof. unfold consume. tracks. Qed.
#[local] Hint Resolve Tracks_isEnd Tracks_consume : tracks.

Lemma Tracks_expect c : Tracks (expect c).
Proof. unfold expect. tracks. Qed.

Lemma Tracks_expectOneOf charset : Tracks (expectOneOf charset).
Proof. unfold expectOneOf. tracks. Qed.

Lemma Tracks_maybeExpect c : Tracks (maybeExpect c).
Proof. unfold maybeExpect. tracks. Qed.

Lemma Tracks_maybeExpectOneOf c : Tracks (maybeExpectOneOf c).
Proof. unfold maybeExpectOneOf. tracks. Qed.

Lemma Tracks_maybeExpectNotOneOf c : Tracks (maybeExpectNotOneOf c).
Proof. unfold maybeExpectNotOneOf. tracks. Qed.

Lemma Tracks_skipIf c : Tracks (skipIf c).
Proof. unfold skipIf. tracks. Qed.
#[local] Hint Resolve Tracks_expect Tracks_expectOneOf Tracks_maybeExpect
  Tracks_maybeExpectOneOf Tracks_maybeExpectNotOneOf Tracks_skipIf : tracks.

Lemma Tracks_consumeWhile charset : Tracks (consumeWhile charset).
Proof.
  unfold consumeWhile.
  apply (Tracks_fuel (fun fuel => consumeWhile_loop fuel charset [])).
  intros fuel. generalize (@nil (list N)).
  induction fuel as [|fuel IH]; intros chars; cbn [consumeWhile_loop];
    [intros l _; exact I|].
  tracks; try apply IH.
Qed.

Lemma Tracks_expectOneOrMoreOf charset expectName :
  Tracks (expectOneOrMoreOf charset expectName).
Proof.
  unfold expectOneOrMoreOf. apply Tracks_bind; [|intros ?; tracks].
  apply (Tracks_fuel (fun fuel => expectOneOrMoreOf_loop fuel charset [])).
  intros fuel. generalize (@nil (list N)).
  induction fuel as [|fuel IH]; intros matches; cbn [expectOneOrMoreOf_loop];
    [intros l _; exact I|].
  tracks; try apply IH.
Qed.

Lemma Tracks_skipWhile charset : Tracks (skipWhile charset).
Proof.
  unfold skipWhile. apply (Tracks_fuel (fun fuel => skipWhile_loop fuel charset 0)).
  intros fuel. generalize 0.
  induction fuel as [|fuel IH]; intros count; cbn [skipWhile_loop];
    [intros l _; exact I|].
  tracks; try apply IH.
Qed.

Lemma Tracks_skipUntil charset : Tracks (skipUntil charset).
Proof.
  unfold skipUntil. apply (Tracks_fuel (fun fuel => skipUntil_loop fuel charset 0)).
  intros fuel. generalize 0.
  induction fuel as [|fuel IH]; intros count; cbn [skipUntil_loop];
    [intros l _; exact I|].
  tracks; try apply IH.
Qed.
#[local] Hint Resolve Tracks_consumeWhile Tracks_expectOneOrMoreOf Tracks_skipWhile
  Tracks_skipUntil : tracks.

Lemma Tracks_parseName : Tracks parseName.
Proof. unfold parseName. tracks. Qed.

Lemma Tracks_parseEntity : Tracks parseEntity.
Proof. unfold parseEntity. tracks. Qed.
#[local] Hint Resolve Tracks_parseName Tracks_parseEntity : tracks.

Lemma Tracks_parseTextOrValue delimiter : Tracks (parseTextOrValue delimiter).
Proof.
  unfold parseTextOrValue.
  apply (Tracks_fuel (fun fuel => parseTextOrValue_loop fuel delimiter [])).
  intros fuel. generalize (@nil (list N)).
  induction fuel as [|fuel IH]; intros parts; cbn [parseTextOrValue_loop];
    [intros l _; exact I|].
  tracks; apply IH.
Qed.
#[local] Hint Resolve Tracks_parseTextOrValue : tracks.

Lemma Tracks_skipInstruction_loop fuel : Tracks (skipInstruction_loop fuel).
Proof.
  induction fuel as [|fuel IH]; cbn [skipInstruction_loop]; [intros l _; exact I|].
  tracks.
Qed.

Lemma Tracks_openingTag_loop fuel : ∀ attrs, Tracks (openingTag_loop fuel attrs).
Proof.
  induction fuel as [|fuel IH]; intros attrs; cbn [openingTag_loop];
    [intros l _; exact I|].
  tracks; try apply IH.
Qed.

Lemma Tracks_skipInstruction : Tracks skipInstruction.
Proof. apply (Tracks_fuel skipInstruction_loop), Tracks_skipInstruction_loop. Qed.

Lemma Tracks_openingTag : Tracks openingTag.
Proof.
  apply (Tracks_fuel (fun fuel => openingTag_loop fuel [])).
  intros fuel. apply Tracks_openingTag_loop.
Qed.
#[local] Hint Resolve Tracks_skipInstruction Tracks_openingTag : tracks.

Lemma Tracks_parseContent fuel : ∀ parentElem, Tracks (parseContent fuel parentElem).
Proof.
  induction fuel as [|fuel IH]; intros parentElem; cbn [parseContent];
    [intros l _; exact I|].
  tracks; try apply IH.
Qed.









(* ===================================================================== *)
(** * The fuel is enough                                                   *)
(* ===================================================================== *)

Ltac steps_arith :=
  cbv beta in *; unfold remaining in *;
  repeat match goal with
         | H : src _ = src _ |- _ => rewrite H in *
         end;
  lia.

Lemma Steps_ret {A} (a : A) (l : Lexer) (Q : A -> Lexer -> Prop) :
  next l ≤ length (src l) → Q a l → Steps (ret a) l Q.
Proof. intros Hb HQ. unfold Steps, ret. auto. Qed.

Lemma Steps_throwErr {A} msg (l : Lexer) (Q : A -> Lexer -> Prop) :
  Steps (throwErr msg) l Q.
Proof. exact I. Qed.

Lemma Steps_throw {A} e (l : Lexer) (Q : A -> Lexer -> Prop) : Steps (throw e) l Q.
Proof. exact I. Qed.

Lemma Steps_bind {A B} (m : P A) (k : A -> P B) (l : Lexer)
    (Q1 : A -> Lexer -> Prop) (Q : B -> Lexer -> Prop) :
  Steps m l Q1 →
  (∀ a l1, src l1 = src l → next l1 ≤ length (src l1) → next l ≤ next l1 → Q1 a l1 →
           Steps (k a) l1 (fun b l2 => next l ≤ next l2 → Q b l2)) →
  Steps (bind m k) l Q.
Proof.
  unfold Steps, bind. intros Hm Hk.
  destruct (m l) as [[a l1] | e |]; [|exact I | exact Hm].
  destruct Hm as (Hs & Hb & Hn & HQ1). specialize (Hk a l1 Hs Hb Hn HQ1).
  destruct (k a l1) as [[b0 l2] | e |]; [|exact I | exact Hk].
  destruct Hk as (Hs2 & Hb2 & Hn2 & HQ).
  split; [congruence|]. split; [exact Hb2|]. split; [lia|]. apply HQ. lia.
Qed.

Lemma Steps_weaken {A} (m : P A) (l : Lexer) (Q Q' : A -> Lexer -> Prop) :
  Steps m l Q →
  (∀ a l', src l' = src l → next l' ≤ length (src l') → next l ≤ next l' →
           Q a l' → Q' a l') →
  Steps m l Q'.
Proof.
  unfold Steps. intros Hm HQ. destruct (m l) as [[a l'] | e |]; [|exact I | exact Hm].
  destruct Hm as (Hs & Hb & Hn & H). auto.
Qed.

Lemma Steps_peek (l : Lexer) :
  next l ≤ length (src l) → Steps peek l (fun _ l' => l' = l).
Proof. intros Hb. unfold Steps, peek. auto. Qed.

Lemma Steps_consumeOrEnd (l : Lexer) :
  next l ≤ length (src l) →
  Steps consumeOrEnd l
    (fun c l' => match c with Some _ => next l' = S (next l) | None => True end).
Proof.
  intros Hb. unfold Steps, consumeOrEnd.
  destruct (src l !! next l) as [c|] eqn:Hc; [|auto].
  cbv zeta.
  set (l1 := if jschar_eqb c CR || jschar_eqb c LF && prevIsNotCR l then _ else _).
  assert (H1 : src l1 = src l ∧ next l1 = next l).
  { subst l1. destruct (_ || _); [split; reflexivity|].
    destruct (negb _); split; reflexivity. }
  destruct H1 as [Hs Hn]. cbn [src next]. rewrite Hs, Hn.
  apply lookup_lt_Some in Hc. repeat split; lia.
Qed.

Lemma Steps_consume (l : Lexer) :
  next l ≤ length (src l) → Steps consume l (fun _ l' => next l' = S (next l)).
Proof.
  intros Hb. unfold consume. eapply Steps_bind; [apply Steps_consumeOrEnd, Hb|].
  intros [c|] l1 Hs Hb1 Hn HQ; [|apply Steps_throwErr].
  apply Steps_ret; [exact Hb1 | intros _; exact HQ].
Qed.

Lemma Steps_isEnd (l : Lexer) :
  next l ≤ length (src l) → Steps isEnd l (fun _ _ => True).
Proof.
  intros Hb. unfold isEnd. eapply Steps_bind; [apply Steps_peek, Hb|].
  intros c l1 Hs Hb1 Hn ->. apply Steps_ret; auto.
Qed.

Lemma Steps_expect c (l : Lexer) :
  next l ≤ length (src l) → Steps (expect c) l (fun _ l' => next l' = S (next l)).
Proof.
  intros Hb. unfold expect. eapply Steps_bind; [apply Steps_consume, Hb|].
  intros b0 l1 Hs Hb1 Hn HQ. destruct (negb _); [apply Steps_throwErr|].
  apply Steps_ret; [exact Hb1 | intros _; exact HQ].
Qed.

Lemma Steps_expectOneOf charset (l : Lexer) :
  next l ≤ length (src l) →
  Steps (expectOneOf charset) l (fun _ l' => next l' = S (next l)).
Proof.
  intros Hb. unfold expectOneOf. eapply Steps_bind; [apply Steps_consume, Hb|].
  intros b0 l1 Hs Hb1 Hn HQ. destruct (negb _); [apply Steps_throwErr|].
  apply Steps_ret; [exact Hb1 | intros _; exact HQ].
Qed.

(** A probe that may consume one character. *)
Lemma Steps_probe {A} (test : jschar -> bool) (found : jschar -> A) (missing atEnd : P A)
    (l : Lexer) (Q : A -> Lexer -> Prop) :
  next l ≤ length (src l) →
  (∀ x l', next l' = S (next l) → Q (found x) l') →
  Steps missing l Q → Steps atEnd l Q →
  Steps (let* b := peek in
         match b with
         | Some b' => if test b' then (let* x := consume in ret (found x)) else missing
         | None => atEnd
         end) l Q.
Proof.
  intros Hb Hfound Hmissing HatEnd.
  eapply Steps_bind; [apply Steps_peek, Hb|].
  intros [b'|] l1 _ _ _ ->.
  - destruct (test b').
    + eapply Steps_bind; [apply Steps_consume, Hb|].
      intros x l2 Hs Hb2 Hn HQ. apply Steps_ret; [exact Hb2|]. intros _ _. auto.
    + eapply Steps_weaken; [exact Hmissing|]. auto.
  - eapply Steps_weaken; [exact HatEnd|]. auto.
Qed.

Lemma Steps_maybeExpect c (l : Lexer) :
  next l ≤ length (src l) → Steps (maybeExpect c) l (fun _ _ => True).
Proof.
  intros Hb. unfold maybeExpect.
  apply (Steps_probe (jschar_eqb c) (fun _ => true) (ret false) (ret false));
    auto using Steps_ret.
Qed.

Lemma Steps_skipIf c (l : Lexer) :
  next l ≤ length (src l) →
  Steps (skipIf c) l (fun b l' => b = true → next l < next l').
Proof.
  intros Hb. unfold skipIf.
  apply (Steps_probe (fun b' => jschar_eqb b' c) (fun _ => true) (ret false) (ret false));
    [exact Hb | intros; lia | |]; (apply Steps_ret; [exact Hb | discriminate]).
Qed.

Lemma Steps_maybeExpectOneOf c (l : Lexer) :
  next l ≤ length (src l) →
  Steps (maybeExpectOneOf c) l
    (fun r l' => match r with Some _ => next l < next l' | None => True end).
Proof.
  intros Hb. unfold maybeExpectOneOf.
  apply (Steps_probe (includes c) Some (ret None) (ret None));
    [exact Hb | intros; lia | |]; (apply Steps_ret; [exact Hb | exact I]).
Qed.

Lemma Steps_maybeExpectNotOneOf c (l : Lexer) :
  next l ≤ length (src l) →
  Steps (maybeExpectNotOneOf c) l
    (fun r l' => match r with Some _ => next l < next l' | None => True end).
Proof.
  intros Hb. unfold maybeExpectNotOneOf.
  apply (Steps_probe (fun b' => negb (includes c b')) Some (ret None)
           (let* x := consume in ret (Some x)));
    [exact Hb | intros; lia | apply Steps_ret; [exact Hb | exact I] |].
  eapply Steps_bind; [apply Steps_consume, Hb|].
  intros x l1 Hs Hb1 Hn HQ. apply Steps_ret; [exact Hb1|]. cbv beta in *. lia.
Qed.

Lemma Steps_fuel {A} (f : nat -> P A) (l : Lexer) (Q : A -> Lexer -> Prop) :
  Steps (f (S (remaining l))) l Q → Steps (fun l0 => f (S (remaining l0)) l0) l Q.
Proof. unfold Steps. auto. Qed.

Create HintDb steps.
#[local] Hint Resolve Steps_peek Steps_consumeOrEnd Steps_consume Steps_isEnd Steps_expect
  Steps_expectOneOf Steps_maybeExpect Steps_skipIf Steps_maybeExpectOneOf
  Steps_maybeExpectNotOneOf : steps.
#[local] Hint Extern 1 (_ ≤ _) => steps_arith : steps.
#[local] Hint Extern 1 (_ < _) => steps_arith : steps.

(** Walk through code built from [bind] and branches; what is left are
    the calls of loops and the facts about results. *)
Ltac steps :=
  repeat first
    [ apply Steps_throwErr
    | apply Steps_throw
    | apply Steps_ret; [steps_arith | cbv beta in *; intros; first [exact I | steps_arith]]
    | match goal with
      | |- Steps (bind _ _) _ _ =>
          first [ eapply Steps_bind; [solve [eauto 3 with steps nocore] | intros ? ? ? ? ? ?]
                | eapply (Steps_bind _ _ _ (fun _ _ => True)); [|intros ? ? ? ? ? ?] ]
      end
    | match goal with
      | |- Steps (if ?c then _ else _) _ _ => destruct c
      | |- Steps (match ?x with _ => _ end) _ _ => destruct x
      end
    | eapply Steps_weaken;
      [solve [eauto 3 with steps nocore] | solve [cbv beta in *; intros; steps_arith]] ].

Lemma Steps_consumeWhile charset (l : Lexer) :
  next l ≤ length (src l) → Steps (consumeWhile charset) l (fun _ _ => True).
Proof.
  intros Hb. unfold consumeWhile.
  apply (Steps_fuel (fun fuel => consumeWhile_loop fuel charset [])).
  assert (H : ∀ fuel chars l, next l ≤ length (src l) → remaining l < fuel →
              Steps (consumeWhile_loop fuel charset chars) l (fun _ _ => True)).
  { clear. induction fuel as [|fuel IH]; intros chars l Hb Hf; [lia|].
    cbn [consumeWhile_loop]. steps.
    all: try (eapply Steps_weaken; [apply IH; steps_arith | auto]). }
  apply H; [exact Hb | lia].
Qed.

Lemma Steps_skipWhile charset (l : Lexer) :
  next l ≤ length (src l) → Steps (skipWhile charset) l (fun _ _ => True).
Proof.
  intros Hb. unfold skipWhile.
  apply (Steps_fuel (fun fuel => skipWhile_loop fuel charset 0)).
  assert (H : ∀ fuel count l, next l ≤ length (src l) → remaining l < fuel →
              Steps (skipWhile_loop fuel charset count) l (fun _ _ => True)).
  { clear. induction fuel as [|fuel IH]; intros count l Hb Hf; [lia|].
    cbn [skipWhile_loop]. steps.
    all: try (eapply Steps_weaken; [apply IH; steps_arith | auto]). }
  apply H; [exact Hb | lia].
Qed.

Lemma Steps_skipUntil charset (l : Lexer) :
  next l ≤ length (src l) → Steps (skipUntil charset) l (fun _ _ => True).
Proof.
  intros Hb. unfold skipUntil.
  apply (Steps_fuel (fun fuel => skipUntil_loop fuel charset 0)).
  assert (H : ∀ fuel count l, next l ≤ length (src l) → remaining l < fuel →
              Steps (skipUntil_loop fuel charset count) l (fun _ _ => True)).
  { clear. induction fuel as [|fuel IH]; intros count l Hb Hf; [lia|].
    cbn [skipUntil_loop]. steps.
    all: try (eapply Steps_weaken; [apply IH; steps_arith | auto]). }
  apply H; [exact Hb | lia].
Qed.

(** A name that is returned has consumed at least one character. *)
Lemma Steps_expectOneOrMoreOf charset expectName (l : Lexer) :
  next l ≤ length (src l) →
  Steps (expectOneOrMoreOf charset expectName) l (fun _ l' => next l < next l').
Proof.
  intros Hb. unfold expectOneOrMoreOf.
  assert (H : ∀ fuel matches l, next l ≤ length (src l) → remaining l < fuel →
              Steps (expectOneOrMoreOf_loop fuel charset matches) l
                (fun r l' => matches = [] → r ≠ [] → next l < next l')).
  { clear. induction fuel as [|fuel IH]; intros matches l Hb Hf; [lia|].
    cbn [expectOneOrMoreOf_loop].
    eapply Steps_bind; [apply Steps_maybeExpectOneOf, Hb|].
    intros [c|] l1 Hs Hb1 Hn HQ.
    - eapply Steps_weaken; [apply IH; steps_arith|].
      cbv beta in *. intros; lia.
    - apply Steps_ret; [exact Hb1|]. cbv beta. intros _ -> Hne. congruence. }
  eapply Steps_bind.
  { apply (Steps_fuel (fun fuel => expectOneOrMoreOf_loop fuel charset [])).
    apply H; [exact Hb | lia]. }
  intros [|m ms] l1 Hs Hb1 Hn HQ; [apply Steps_throwErr|].
  apply Steps_ret; [exact Hb1|]. intros _. apply HQ; [reflexivity | discriminate].
Qed.
#[local] Hint Resolve Steps_consumeWhile Steps_skipWhile Steps_skipUntil
  Steps_expectOneOrMoreOf : steps.

Lemma Steps_parseName (l : Lexer) :
  next l ≤ length (src l) → Steps parseName l (fun _ l' => next l < next l').
Proof. intros Hb. unfold parseName. steps. Qed.

Lemma Steps_parseEntity (l : Lexer) :
  next l ≤ length (src l) → Steps parseEntity l (fun _ l' => next l < next l').
Proof. intros Hb. unfold parseEntity. steps. Qed.
#[local] Hint Resolve Steps_parseName Steps_parseEntity : steps.

(** A non-empty text has consumed at least one character. *)
Lemma Steps_parseTextOrValue delimiter (l : Lexer) :
  next l ≤ length (src l) →
  Steps (parseTextOrValue delimiter) l (fun text l' => text ≠ [] → next l < next l').
Proof.
  intros Hb. unfold parseTextOrValue.
  assert (H : ∀ fuel parts l, next l ≤ length (src l) → remaining l < fuel →
              Steps (parseTextOrValue_loop fuel delimiter parts) l
                (fun r l' => parts = [] → r ≠ [] → next l < next l')).
  { clear. induction fuel as [|fuel IH]; intros parts l Hb Hf; [lia|].
    cbn [parseTextOrValue_loop].
    eapply Steps_bind; [apply Steps_peek, Hb|].
    intros [c|] l1 _ _ _ ->.
    - destruct (jschar_eqb c delimiter).
      + apply Steps_ret; [exact Hb|]. cbv beta. intros _ -> Hne. exfalso. apply Hne. reflexivity.
      + destruct (jschar_eqb c (chr "&")).
        * eapply Steps_bind; [apply Steps_parseEntity, Hb|].
          intros s l1 Hs Hb1 Hn HQ.
          eapply Steps_weaken; [apply IH; steps_arith|]. cbv beta in *. intros; lia.
        * eapply Steps_bind; [apply Steps_consume, Hb|].
          intros s l1 Hs Hb1 Hn HQ.
          eapply Steps_weaken; [apply IH; steps_arith|]. cbv beta in *. intros; lia.
    - apply Steps_ret; [exact Hb|]. cbv beta. intros _ -> Hne. exfalso. apply Hne. reflexivity. }
  apply (Steps_fuel (fun fuel => parseTextOrValue_loop fuel delimiter [])).
  eapply Steps_weaken; [apply H; [exact Hb | lia]|]. cbv beta. auto.
Qed.

Lemma Steps_parseTextOrValue_any delimiter (l : Lexer) :
  next l ≤ length (src l) → Steps (parseTextOrValue delimiter) l (fun _ _ => True).
Proof.
  intros Hb. eapply Steps_weaken; [apply Steps_parseTextOrValue, Hb | auto].
Qed.
#[local] Hint Resolve Steps_parseTextOrValue_any : steps.

Lemma Steps_skipInstruction_loop : ∀ fuel l,
  next l ≤ length (src l) → remaining l < fuel →
  Steps (skipInstruction_loop fuel) l (fun _ _ => True).
Proof.
  induction fuel as [|fuel IH]; intros l Hb Hf; [lia|].
  cbn [skipInstruction_loop]. steps.
  all: try (eapply Steps_weaken; [apply IH; steps_arith | auto]).
Qed.

Lemma Steps_openingTag_loop : ∀ fuel attrs l,
  next l ≤ length (src l) → remaining l < fuel →
  Steps (openingTag_loop fuel attrs) l (fun _ _ => True).
Proof.
  induction fuel as [|fuel IH]; intros attrs l Hb Hf; [lia|].
  cbn [openingTag_loop]. steps.
  all: try (eapply Steps_weaken; [apply IH; steps_arith | auto]).
Qed.

Lemma Steps_skipInstruction (l : Lexer) :
  next l ≤ length (src l) → Steps skipInstruction l (fun _ _ => True).
Proof.
  intros Hb. apply (Steps_fuel skipInstruction_loop).
  apply Steps_skipInstruction_loop; [exact Hb | lia].
Qed.

Lemma Steps_openingTag (l : Lexer) :
  next l ≤ length (src l) → Steps openingTag l (fun _ _ => True).
Proof.
  intros Hb. apply (Steps_fuel (fun fuel => openingTag_loop fuel [])).
  apply Steps_openingTag_loop; [exact Hb | lia].
Qed.
#[local] Hint Resolve Steps_skipInstruction Steps_openingTag : steps.

Lemma Steps_parseContent : ∀ fuel parentElem l,
  next l ≤ length (src l) → remaining l < fuel →
  Steps (parseContent fuel parentElem) l (fun _ _ => True).
Proof.
  induction fuel as [|fuel IH]; intros parentElem l Hb Hf; [lia|].
  cbn [parseContent].
  eapply Steps_bind; [apply Steps_parseTextOrValue, Hb|].
  intros text l1 Hs Hb1 Hn Htext.
  destruct (truthy text) eqn:Et.
  { eapply Steps_weaken; [apply IH; [exact Hb1|]| auto].
    assert (next l < next l1) by (apply Htext; intros ->; discriminate).
    steps_arith. }
  clear Htext Et. steps.
  all: try (eapply Steps_weaken; [apply IH; steps_arith | auto]).
Qed.

(** [parseXml] gives itself enough fuel: it returns or throws on every
    input. *)
Lemma parseXml_total (xml : jsstring) : parseXml xml ≠ OutOfFuel.
Proof.
  unfold parseXml.
  pose proof (Steps_parseContent (S (length xml)) (mkXmlElement (mkXmlName [] []) [] [])
                (newLexer xml)) as H.
  unfold Steps in H.
  destruct (parseContent _ _ _) as [[dummyRoot' l'] | e |].
  - assert (Hsel : ∀ cs root, selectRoot cs root ≠ OutOfFuel).
    { induction cs as [|[t | x] cs IHcs]; intros root; cbn [selectRoot].
      - discriminate.
      - destruct (truthy (trim t)); [discriminate | apply IHcs].
      - destruct root; [discriminate | apply IHcs]. }
    specialize (Hsel (children dummyRoot') None).
    destruct (selectRoot (children dummyRoot') None) as [[root|] | e |];
      [discriminate | discriminate | discriminate | congruence].
  - discriminate.
  - exfalso. apply H; unfold remaining, newLexer; cbn [src next]; lia.
Qed.

(* ===================================================================== *)
(** * Entity encoding                                                      *)
(* ===================================================================== *)

Lemma escapeChar_no_markup (c : jschar) :
  Forall (fun x => x ≠ chr "<" ∧ x ≠ chr ">" ∧ x ≠ DQUOTE ∧ x ≠ chr "'") (escapeChar c).
Proof.
  unfold escapeChar.
  destruct (jschar_eqb c (chr "&")) eqn:E1;
    [repeat constructor; discriminate|].
  destruct (jschar_eqb c (chr "<")) eqn:E2;
    [repeat constructor; discriminate|].
  destruct (jschar_eqb c DQUOTE) eqn:E3;
    [repeat constructor; discriminate|].
  destruct (jschar_eqb c (chr "'")) eqn:E4;
    [repeat constructor; discriminate|].
  destruct (jschar_eqb c (chr ">")) eqn:E5;
    [repeat constructor; discriminate|].
  apply jschar_eqb_neq in E2, E3, E4, E5.
  repeat constructor; assumption.
Qed.

(** The five replacement passes of [encodeXmlEntities] do not interfere:
    every character of the input is replaced on its own, a special
    character by its entity reference and any other by itself (the
    ampersands the later passes write are not escaped again); the output
    contains none of [<], [>], the double quote and the apostrophe. *)
Theorem encodeXmlEntities_per_char (raw : jsstring) :
  encodeXmlEntities raw = flat_map escapeChar raw
  ∧ Forall (fun c => c ≠ chr "<" ∧ c ≠ chr ">" ∧ c ≠ DQUOTE ∧ c ≠ chr "'")
      (encodeXmlEntities raw).
Proof.
  induction raw as [|c raw [IH1 IH2]]; [split; [reflexivity | constructor]|].
  rewrite encodeXmlEntities_cons. split.
  - cbn [flat_map]. rewrite IH1. reflexivity.
  - apply Forall_app. split; [apply escapeChar_no_markup | exact IH2].
Qed.

(** An escaped string is decoded to the string by the scan of
    [parseTextOrValue], whatever delimiter the parser uses. *)
Lemma Runs_parseTextOrValue_loop_encoded (d : jschar) (v s : jsstring) :
  escapeChar d ≠ [d] → jschar_eqb (chr "&") d = false → stopsAt d s = true →
  ∀ fuel parts, length v < fuel →
    Runs (parseTextOrValue_loop fuel d parts)
         (encodeXmlEntities v ++ s) (join parts ++ v) s.
Proof.
  intros Hd Hamp Hs. induction v as [|c v IH]; intros fuel parts Hf.
  - destruct fuel as [|fuel]; [simpl in Hf; lia|].
    change (encodeXmlEntities []) with (@nil N).
    cbn [parseTextOrValue_loop app]. run_with Runs_peek. rewrite app_nil_r.
    destruct s as [|x s]; cbn [head stopsAt] in *; [apply Runs_ret|].
    rewrite Hs. apply Runs_ret.
  - destruct fuel as [|fuel]; [simpl in Hf; lia|].
    rewrite encodeXmlEntities_cons, <- app_assoc.
    replace (join parts ++ c :: v) with (join (parts ++ [[c]]) ++ v)
      by (rewrite join_snoc, <- app_assoc; reflexivity).
    cbn [parseTextOrValue_loop]. run_with Runs_peek.
    destruct (escapeChar_cases c) as [(Hesc & tl & E & _) | (E & _ & Hc)].
    + rewrite E at 1. cbn [app head]. rewrite Hamp.
      change (jschar_eqb (chr "&") (chr "&")) with true. cbv iota.
      run_with Runs_parseEntity_escaped; [exact Hesc|].
      apply IH. simpl in Hf. lia.
    + rewrite E. cbn [app head]. rewrite Hc.
      replace (jschar_eqb c d) with false.
      2:{ symmetry. apply jschar_eqb_neq. intros ->. contradiction. }
      run_with Runs_consume. apply IH. simpl in Hf. lia.
Qed.

(** Decoding undoes encoding: on the escaped form of any string [v],
    followed by the end of the input or by the delimiter, the scan of
    [parseTextOrValue] returns [v] and stops there; this holds for the
    delimiter of element content, [<], and for both quotes of attribute
    values. *)
Theorem decode_encoded (d : jschar) (v s : jsstring) :
  d = chr "<" ∨ includes QUOTE d = true → stopsAt d s = true →
  Runs (parseTextOrValue d) (encodeXmlEntities v ++ s) v s.
Proof.
  intros Hd Hs.
  assert (Hesc : escapeChar d ≠ [d] ∧ jschar_eqb (chr "&") d = false).
  { destruct Hd as [-> | Hq]; [split; [discriminate | reflexivity]|].
    destruct (QUOTE_cases d Hq) as [-> | ->]; split; (discriminate || reflexivity). }
  destruct Hesc as [Hesc Hamp].
  unfold parseTextOrValue.
  apply (Runs_fuel (fun fuel => parseTextOrValue_loop fuel d [])).
  apply (Runs_parseTextOrValue_loop_encoded d v s Hesc Hamp Hs _ []).
  rewrite length_app. pose proof (length_encodeXmlEntities v). lia.
Qed.

Lemma decode_encoded_witness :
  Runs (parseTextOrValue (chr "<"))
       (encodeXmlEntities (str "a<b & 'c'") ++ str "</x>") (str "a<b & 'c'") (str "</x>").
Proof. apply (decode_encoded (chr "<")); [left; reflexivity | reflexivity]. Defined.

(* ===================================================================== *)
(** * Qualified names                                                      *)
(* ===================================================================== *)

Lemma strSplit_nosep (sep : jschar) (s : jsstring) :
  ¬ In sep s → strSplit sep s = [s].
Proof.
  induction s as [|c s IH]; intros Hs; [reflexivity|].
  cbn [strSplit].
  replace (jschar_eqb c sep) with false
    by (symmetry; apply jschar_eqb_neq; intros ->; apply Hs; left; reflexivity).
  rewrite IH; [reflexivity|]. intros H. apply Hs. right. exact H.
Qed.

Lemma strSplit_nonempty (sep : jschar) (s : jsstring) : strSplit sep s ≠ [].
Proof.
  destruct s as [|c s]; [discriminate|]. cbn [strSplit].
  destruct (jschar_eqb c sep); [discriminate|].
  destruct (strSplit sep s); discriminate.
Qed.

Lemma strSplit_sep (sep : jschar) (a b : jsstring) :
  ¬ In sep a → strSplit sep (a ++ sep :: b) = a :: strSplit sep b.
Proof.
  induction a as [|c a IH]; intros Ha.
  - cbn [app strSplit]. rewrite jschar_eqb_refl. reflexivity.
  - cbn [app strSplit].
    replace (jschar_eqb c sep) with false
      by (symmetry; apply jschar_eqb_neq; intros ->; apply Ha; left; reflexivity).
    rewrite IH; [reflexivity|]. intros H. apply Ha. right. exact H.
Qed.

(** [fromQName] undoes [toString] on every name whose prefix and local
    name are free of colons; a string without a colon is a local name
    with the empty prefix; and of a string with two colons or more only
    what precedes the second colon is kept. *)
Theorem fromQName_toString :
  (∀ n, ¬ In (chr ":") (prefix n) → ¬ In (chr ":") (name n) →
        XmlName.fromQName (XmlName.toString n) = n)
  ∧ (∀ q, ¬ In (chr ":") q → XmlName.fromQName q = mkXmlName [] q)
  ∧ (∀ p n rest, ¬ In (chr ":") p → ¬ In (chr ":") n →
                 XmlName.fromQName (p ++ chr ":" :: n ++ chr ":" :: rest)
                 = mkXmlName p n).
Proof.
  assert (H2 : ∀ q, ¬ In (chr ":") q → XmlName.fromQName q = mkXmlName [] q).
  { intros q Hq. unfold XmlName.fromQName. rewrite strSplit_nosep by exact Hq.
    reflexivity. }
  split; [|split; [exact H2|]].
  - intros [p n] Hp Hn. cbn [prefix name] in *. unfold XmlName.toString.
    cbn [prefix name]. destruct p as [|x p]; cbn [truthy].
    + apply H2, Hn.
    + unfold XmlName.fromQName. rewrite strSplit_sep by exact Hp.
      rewrite strSplit_nosep by exact Hn. reflexivity.
  - intros p n rest Hp Hn. unfold XmlName.fromQName.
    rewrite strSplit_sep by exact Hp. rewrite strSplit_sep by exact Hn.
    pose proof (strSplit_nonempty (chr ":") rest).
    destruct (strSplit (chr ":") rest); [contradiction | reflexivity].
Qed.

Lemma fromQName_toString_witness :
  XmlName.fromQName (XmlName.toString (mkXmlName (str "xs") (str "abc")))
  = mkXmlName (str "xs") (str "abc")
  ∧ XmlName.fromQName (str "abc") = mkXmlName [] (str "abc")
  ∧ XmlName.fromQName (str "a" ++ chr ":" :: str "b" ++ chr ":" :: str "c:d")
    = mkXmlName (str "a") (str "b").
Proof.
  destruct fromQName_toString as (H1 & H2 & H3).
  split; [|split].
  - apply (H1 (mkXmlName (str "xs") (str "abc"))); vm_compute; intuition discriminate.
  - apply (H2 (str "abc")); vm_compute; intuition discriminate.
  - apply (H3 (str "a") (str "b") (str "c:d")); vm_compute; intuition discriminate.
Defined.

(* ===================================================================== *)
(** * Attribute lookup                                                     *)
(* ===================================================================== *)

Lemma find_none_Forall {A} (f : A -> bool) (l : list A) :
  List.find f l = None ↔ Forall (fun y => f y = false) l.
Proof.
  induction l as [|y l IH]; cbn [List.find].
  - split; [constructor | reflexivity].
  - destruct (f y) eqn:E.
    + split; [discriminate|]. intros H. inversion H; congruence.
    + rewrite IH. split; [intros H; constructor; assumption|].
      intros H. inversion H; assumption.
Qed.

(** [getAttributeValueOrThrow(name)] returns the value of the first
    attribute, in attribute order, whose local name is [name], whatever
    its prefix, and throws the [ReferenceError] exactly when no attribute
    has that local name; a query by [id] matches exactly when the lookup
    of ["ID"] returns that [id]. *)
Theorem getAttributeValueOrThrow_first (nm : jsstring) (e : XmlElement) :
  (∀ v, XmlElement.getAttributeValueOrThrow nm e = Ok v ↔
        ∃ pre n post, attrs e = pre ++ (n, v) :: post ∧ name n = nm
                      ∧ Forall (fun p => name (fst p) ≠ nm) pre)
  ∧ (XmlElement.getAttributeValueOrThrow nm e
       = Throw (ReferenceError (str "No attribute found with name " ++ nm)) ↔
     Forall (fun p => name (fst p) ≠ nm) (attrs e))
  ∧ (∀ id, XmlElement.matches (mkXmlQuery (Some id) None) e = true ↔
           XmlElement.getAttributeValueOrThrow (str "ID") e = Ok id).
Proof.
  unfold XmlElement.getAttributeValueOrThrow. split; [|split].
  - intros v. split.
    + destruct (List.find _ (attrs e)) as [[n v']|] eqn:E; [|discriminate].
      intros [= ->]. apply find_first in E as (pre & post & E1 & E2 & E3).
      exists pre, n, post. split; [exact E1|]. split.
      * apply jsstring_eqb_eq. exact E2.
      * eapply Forall_impl; [|exact E3]. cbv beta. intros [n' w] H.
        apply jsstring_eqb_neq. exact H.
    + intros (pre & n & post & E1 & E2 & E3).
      assert (E : List.find (fun '(n, _) => jsstring_eqb (name n) nm) (attrs e)
                  = Some (n, v)).
      { apply find_first. exists pre, post. split; [exact E1|]. split.
        - apply jsstring_eqb_eq. exact E2.
        - eapply Forall_impl; [|exact E3]. cbv beta. intros [n' w] H.
          apply jsstring_eqb_neq. exact H. }
      rewrite E. reflexivity.
  - destruct (List.find _ (attrs e)) as [[n v']|] eqn:E.
    + split; [discriminate|]. intros H.
      apply find_first in E as (pre & post & E1 & E2 & _).
      rewrite E1 in H. apply Forall_app in H as [_ H]. inversion H as [|? ? Hn _].
      apply jsstring_eqb_eq in E2. contradiction.
    + split; [|reflexivity]. intros _. apply find_none_Forall in E.
      eapply Forall_impl; [|exact E]. cbv beta. intros [n' w] H.
      apply jsstring_eqb_neq. exact H.
  - intros id. unfold XmlElement.matches, XmlElement.findIdAttr. cbn [q_id q_name].
    destruct (List.find _ (attrs e)) as [[n v']|].
    + destruct (jsstring_eqb v' id) eqn:E.
      * apply jsstring_eqb_eq in E. subst. split; reflexivity.
      * apply jsstring_eqb_neq in E. split; [discriminate | intros [= ->]; contradiction].
    + split; discriminate.
Qed.

(* ===================================================================== *)
(** * Queries                                                              *)
(* ===================================================================== *)

Lemma findDescendants_unfold q n a cs :
  XmlElement.findDescendants q (mkXmlElement n a cs) =
  flat_map (fun c => match c with
                     | Text _ => []
                     | Elem c => (if XmlElement.matches q c then [c] else [])
                                 ++ XmlElement.findDescendants q c
                     end) cs.
Proof.
  cbn [XmlElement.findDescendants].
  induction cs as [|[t | c] cs IH]; [reflexivity | exact IH |].
  cbn [flat_map]. rewrite <- IH, <- app_assoc. reflexivity.
Qed.

Lemma documentOrder_unfold n a cs :
  documentOrder (mkXmlElement n a cs) =
  flat_map (fun c => match c with
                     | Text _ => []
                     | Elem c => c :: documentOrder c
                     end) cs.
Proof.
  cbn [documentOrder].
  induction cs as [|[t | c] cs IH]; [reflexivity | exact IH |].
  cbn [flat_map]. rewrite <- IH. reflexivity.
Qed.

Lemma findChildren_filter q e :
  XmlElement.findChildren q e = List.filter (XmlElement.matches q) (childElements e).
Proof.
  unfold XmlElement.findChildren, childElements.
  induction (children e) as [|[t | c] cs IH]; [reflexivity | exact IH |].
  cbn [XmlElement.findChildren_loop flat_map app List.filter].
  destruct (XmlElement.matches q c); rewrite IH; reflexivity.
Qed.

Lemma filter_app_list {A} (f : A -> bool) (l1 l2 : list A) :
  List.filter f (l1 ++ l2) = List.filter f l1 ++ List.filter f l2.
Proof.
  induction l1 as [|x l1 IH]; [reflexivity|]. cbn [app List.filter].
  destruct (f x); [cbn [app]; f_equal|]; exact IH.
Qed.

Lemma findDescendants_filter q e :
  XmlElement.findDescendants q e = List.filter (XmlElement.matches q) (documentOrder e).
Proof.
  induction e as [n a cs IH] using XmlElement_nested_ind.
  rewrite findDescendants_unfold, documentOrder_unfold.
  induction IH as [|[t | c] cs Hc _ IHcs]; [reflexivity | exact IHcs |].
  cbn [flat_map]. rewrite filter_app_list. cbn [List.filter].
  rewrite IHcs, Hc. destruct (XmlElement.matches q c); reflexivity.
Qed.

Lemma documentOrder_descendant x e : In x (documentOrder e) ↔ descendant x e.
Proof.
  split.
  - revert x. induction e as [n a cs IH] using XmlElement_nested_ind. intros x.
    rewrite documentOrder_unfold. intros H. apply in_flat_map in H as ([t | c] & Hin & Hx).
    + destruct Hx.
    + destruct Hx as [-> | Hx]; [apply descendant_child; exact Hin|].
      apply (descendant_deeper x c); [exact Hin|].
      rewrite List.Forall_forall in IH. apply (IH (Elem c) Hin). exact Hx.
  - induction 1 as [x e Hin | x c e Hin _ IH].
    + destruct e as [n a cs]. rewrite documentOrder_unfold. apply in_flat_map.
      exists (Elem x). split; [exact Hin | left; reflexivity].
    + destruct e as [n a cs]. rewrite documentOrder_unfold. apply in_flat_map.
      exists (Elem c). split; [exact Hin | right; exact IH].
Qed.

(** The queries search where they should: [findChildren] yields, in
    order, the child elements that match; [findDescendants] yields, in
    document order, the descendants that match, where the descendants are
    the children and the children of descendants (never the element
    itself); what [findChildren] yields is among what [findDescendants]
    yields. *)
Theorem find_sound_complete (q : XmlQuery) (e : XmlElement) :
  XmlElement.findChildren q e = List.filter (XmlElement.matches q) (childElements e)
  ∧ XmlElement.findDescendants q e
    = List.filter (XmlElement.matches q) (documentOrder e)
  ∧ (∀ x, In x (XmlElement.findChildren q e)
          ↔ In (Elem x) (children e) ∧ XmlElement.matches q x = true)
  ∧ (∀ x, In x (XmlElement.findDescendants q e)
          ↔ descendant x e ∧ XmlElement.matches q x = true)
  ∧ (∀ x, In x (XmlElement.findChildren q e) → In x (XmlElement.findDescendants q e)).
Proof.
  assert (Hc : ∀ x, In x (XmlElement.findChildren q e)
                    ↔ In (Elem x) (children e) ∧ XmlElement.matches q x = true).
  { intros x. rewrite findChildren_filter, filter_In. unfold childElements.
    rewrite in_flat_map. split.
    - intros [([t | c] & Hin & Hx) Hm]; [destruct Hx|].
      destruct Hx as [-> | []]. split; assumption.
    - intros [Hin Hm]. split; [|exact Hm]. exists (Elem x). split; [exact Hin | left; reflexivity]. }
  assert (Hd : ∀ x, In x (XmlElement.findDescendants q e)
                    ↔ descendant x e ∧ XmlElement.matches q x = true).
  { intros x. rewrite findDescendants_filter, filter_In, documentOrder_descendant.
    reflexivity. }
  split; [apply findChildren_filter|]. split; [apply findDescendants_filter|].
  split; [exact Hc|]. split; [exact Hd|].
  intros x Hx. apply Hd. apply Hc in Hx as [Hin Hm].
  split; [apply descendant_child; exact Hin | exact Hm].
Qed.

Lemma find_sound_complete_witness :
  Forall (fun x => In x (XmlElement.findDescendants (byName (str "child")) query_root))
    (XmlElement.findChildren (byName (str "child")) query_root).
Proof.
  apply List.Forall_forall. intros x.
  apply (proj2 (proj2 (proj2 (proj2
           (find_sound_complete (byName (str "child")) query_root))))).
Defined.

(** The searches for at most one element return an element exactly when
    the search yields that element and no other; with nothing yielded the
    plain forms return [undefined] and the throwing forms throw a
    [ReferenceError]; with two elements or more every form throws a
    [ReferenceError]. *)
Theorem findAtMostOne_exactly_one (json : jsstring) (q : XmlQuery) (e : XmlElement) :
  (∀ x, XmlElement.findAtMostOneChildOrThrow json q e = Ok x
        ↔ XmlElement.findChildren q e = [x])
  ∧ (∀ x, XmlElement.findAtMostOneDescendantOrThrow json q e = Ok x
          ↔ XmlElement.findDescendants q e = [x])
  ∧ (∀ x, XmlElement.findAtMostOneChild q e = Ok (Some x)
          ↔ XmlElement.findChildren q e = [x])
  ∧ (∀ x, XmlElement.findAtMostOneDescendant q e = Ok (Some x)
          ↔ XmlElement.findDescendants q e = [x])
  ∧ (XmlElement.findAtMostOneChild q e = Ok None ↔ XmlElement.findChildren q e = [])
  ∧ (XmlElement.findAtMostOneDescendant q e = Ok None
     ↔ XmlElement.findDescendants q e = [])
  ∧ ((∃ msg, XmlElement.findAtMostOneChild q e = Throw (ReferenceError msg))
     ↔ 2 ≤ length (XmlElement.findChildren q e))
  ∧ ((∃ msg, XmlElement.findAtMostOneDescendant q e = Throw (ReferenceError msg))
     ↔ 2 ≤ length (XmlElement.findDescendants q e))
  ∧ ((∃ msg, XmlElement.findAtMostOneChildOrThrow json q e = Throw (ReferenceError msg))
     ↔ length (XmlElement.findChildren q e) ≠ 1)
  ∧ ((∃ msg, XmlElement.findAtMostOneDescendantOrThrow json q e
             = Throw (ReferenceError msg))
     ↔ length (XmlElement.findDescendants q e) ≠ 1).
Proof.
  unfold XmlElement.findAtMostOneChildOrThrow, XmlElement.findAtMostOneDescendantOrThrow,
    XmlElement.findAtMostOneChild, XmlElement.findAtMostOneDescendant.
  destruct (XmlElement.findChildren q e) as [|c1 [|c2 cs]];
    destruct (XmlElement.findDescendants q e) as [|d1 [|d2 ds]];
    cbn [atMostOne assertMatched length];
    repeat split; intros; try discriminate; try congruence; try lia;
    try (eexists; reflexivity);
    try match goal with
        | H : ∃ _, _ |- _ => destruct H as [? H]; discriminate H
        | H : ?x ≠ ?x |- _ => contradiction
        end.
Qed.

(** The model on the repository's test of the queries. *)
Example query_test :
  XmlElement.matches (byId (str "1")) query_root = true
  ∧ XmlElement.matches (byId (str "2")) query_root = false
  ∧ map toPojo (XmlElement.findChildren (byId (str "1")) query_root) = []
  ∧ map toPojo (XmlElement.findDescendants (byId (str "1")) query_root)
    = [mkPojo (str "grandchild") [(str "ID", str "1")] [];
       mkPojo (str "a:grandchild") [(str "ID", str "1")] []]
  ∧ XmlElement.findAtMostOneChild (byId (str "1")) query_root = Ok None
  ∧ XmlElement.findAtMostOneDescendant (byId (str "1")) query_root
    = Throw (ReferenceError
               (str "More than one element found; for safety reasons, at most one element can match"))
  ∧ XmlElement.findAtMostOneDescendant (byId (str "2")) query_root
    = Ok (Some (mkXmlElement (mkXmlName [] (str "grandchild"))
                  [(mkXmlName (str "xml") (str "ID"), str "2")] []))
  ∧ map toPojo (XmlElement.findDescendants (byName (str "grandchild")) query_root)
    = [mkPojo (str "grandchild") [(str "ID", str "1")] [];
       mkPojo (str "grandchild") [] [];
       mkPojo (str "grandchild") [(str "xml:ID", str "2")] [];
       mkPojo (str "a:grandchild") [(str "ID", str "1")] []]
  ∧ XmlElement.toString query_root = query_document_written.
Proof. repeat split; vm_compute; reflexivity. Qed.

(* ===================================================================== *)
(** * Filtering                                                            *)
(* ===================================================================== *)

Lemma filterOut_unfold q n a cs :
  XmlElement.filterOut q (mkXmlElement n a cs) =
  mkXmlElement n a
    (flat_map (fun c => match c with
                        | Text t => [Text t]
                        | Elem c => if negb (XmlElement.matches q c)
                                    then [Elem (XmlElement.filterOut q c)] else []
                        end) cs).
Proof.
  cbn [XmlElement.filterOut]. f_equal.
  induction cs as [|[t | c] cs IH]; [reflexivity | cbn [flat_map app]; f_equal; exact IH |].
  cbn [flat_map]. destruct (negb (XmlElement.matches q c)); cbn [app]; [f_equal|]; exact IH.
Qed.

Lemma matches_filterOut q q' e :
  XmlElement.matches q (XmlElement.filterOut q' e) = XmlElement.matches q e.
Proof. destruct e as [n a cs]. rewrite filterOut_unfold. reflexivity. Qed.

Lemma findDescendants_filterOut q e :
  XmlElement.findDescendants q (XmlElement.filterOut q e) = [].
Proof.
  induction e as [n a cs IH] using XmlElement_nested_ind.
  rewrite filterOut_unfold, findDescendants_unfold.
  induction IH as [|[t | c] cs Hc _ IHcs]; [reflexivity | exact IHcs |].
  cbn [flat_map]. destruct (XmlElement.matches q c) eqn:E; cbn [negb app]; [exact IHcs|].
  cbn [flat_map]. rewrite matches_filterOut, E, Hc, IHcs. reflexivity.
Qed.

Lemma filterOut_unmatched q e :
  XmlElement.findDescendants q e = [] → XmlElement.filterOut q e = e.
Proof.
  induction e as [n a cs IH] using XmlElement_nested_ind.
  rewrite filterOut_unfold, findDescendants_unfold. intros H. f_equal.
  induction IH as [|[t | c] cs Hc _ IHcs]; [reflexivity | |].
  - cbn [flat_map app] in *. f_equal. apply IHcs, H.
  - cbn [flat_map] in H. apply app_eq_nil in H as [H1 H2].
    apply app_eq_nil in H1 as [H0 H1].
    cbn [flat_map]. destruct (XmlElement.matches q c); [discriminate|].
    cbn [negb app]. rewrite (Hc H1), (IHcs H2). reflexivity.
Qed.

(** [filterOut(q)] returns a copy of the element, with the same name and
    attributes even when the element itself matches, in which no
    descendant matches [q] any more; the text children are all kept; an
    element without a matching descendant is copied as it is, so filtering
    twice is filtering once. *)
Theorem filterOut_removes_matches (q : XmlQuery) (e : XmlElement) :
  XmlElement.findDescendants q (XmlElement.filterOut q e) = []
  ∧ (∀ x, descendant x (XmlElement.filterOut q e) → XmlElement.matches q x = false)
  ∧ ename (XmlElement.filterOut q e) = ename e
  ∧ attrs (XmlElement.filterOut q e) = attrs e
  ∧ XmlElement.combinedText (XmlElement.filterOut q e) = XmlElement.combinedText e
  ∧ (XmlElement.findDescendants q e = [] → XmlElement.filterOut q e = e)
  ∧ XmlElement.filterOut q (XmlElement.filterOut q e) = XmlElement.filterOut q e.
Proof.
  split; [apply findDescendants_filterOut|].
  split.
  { intros x Hx. destruct (XmlElement.matches q x) eqn:E; [|reflexivity].
    assert (H : In x (XmlElement.findDescendants q (XmlElement.filterOut q e))).
    { rewrite findDescendants_filter. apply filter_In. split; [|exact E].
      apply documentOrder_descendant. exact Hx. }
    rewrite findDescendants_filterOut in H. destruct H. }
  destruct e as [n a cs]. rewrite filterOut_unfold.
  split; [reflexivity|]. split; [reflexivity|]. split.
  { unfold XmlElement.combinedText. cbn [children]. f_equal.
    induction cs as [|[t | c] cs IH]; [reflexivity | cbn [flat_map app]; f_equal; exact IH |].
    cbn [flat_map]. destruct (negb (XmlElement.matches q c)); cbn [app flat_map]; exact IH. }
  split.
  { rewrite <- filterOut_unfold. apply filterOut_unmatched. }
  rewrite <- filterOut_unfold. apply filterOut_unmatched, findDescendants_filterOut.
Qed.

Lemma filterOut_removes_matches_witness :
  let a := mkXmlElement (mkXmlName [] (str "a")) [(mkXmlName [] (str "ID"), str "1")] [] in
  let b := mkXmlElement (mkXmlName [] (str "b")) [] [] in
  let r := mkXmlElement (mkXmlName [] (str "r")) [] [Elem a; Elem b] in
  XmlElement.matches (byId (str "1")) b = false
  ∧ XmlElement.filterOut (byId (str "3")) r = r.
Proof.
  cbv zeta. split.
  - eapply (proj1 (proj2 (filterOut_removes_matches (byId (str "1"))
                            (mkXmlElement (mkXmlName [] (str "r")) []
                               [Elem (mkXmlElement (mkXmlName [] (str "a"))
                                        [(mkXmlName [] (str "ID"), str "1")] []);
                                Elem (mkXmlElement (mkXmlName [] (str "b")) [] [])])))).
    apply descendant_child. vm_compute. left. reflexivity.
  - apply (filterOut_removes_matches (byId (str "3"))). vm_compute. reflexivity.
Defined.

(* ===================================================================== *)
(** * Plain objects                                                        *)
(* ===================================================================== *)

Lemma jsstring_eqb_sym (a b : jsstring) : jsstring_eqb a b = jsstring_eqb b a.
Proof.
  destruct (jsstring_eqb b a) eqn:E.
  - apply jsstring_eqb_eq in E. subst. apply jsstring_eqb_refl.
  - apply jsstring_eqb_neq in E. apply jsstring_eqb_neq. congruence.
Qed.

Lemma getEntry_setEntry (k k' v : jsstring) (props : list (jsstring * jsstring)) :
  getEntry k (setEntry k' v props)
  = if jsstring_eqb k' k then Some v else getEntry k props.
Proof.
  induction props as [|[k0 w] props IH]; cbn [setEntry getEntry].
  - reflexivity.
  - destruct (jsstring_eqb k0 k') eqn:E0; cbn [getEntry].
    + apply jsstring_eqb_eq in E0. subst k0. destruct (jsstring_eqb k' k); reflexivity.
    + destruct (jsstring_eqb k0 k) eqn:E1; [|exact IH].
      apply jsstring_eqb_eq in E1. subst k0. rewrite jsstring_eqb_sym, E0. reflexivity.
Qed.

Lemma fromEntries_snoc (entries : list (jsstring * jsstring)) (k v : jsstring) :
  fromEntries (entries ++ [(k, v)]) = setEntry k v (fromEntries entries).
Proof. unfold fromEntries. rewrite fold_left_app. reflexivity. Qed.

Lemma setEntry_keys (k v : jsstring) (props : list (jsstring * jsstring)) :
  map fst (setEntry k v props)
  = if existsb (jsstring_eqb k) (map fst props) then map fst props
    else map fst props ++ [k].
Proof.
  induction props as [|[k0 w] props IH]; cbn [setEntry map fst existsb app]; [reflexivity|].
  destruct (jsstring_eqb k0 k) eqn:E.
  - apply jsstring_eqb_eq in E. subst k0. rewrite jsstring_eqb_refl. reflexivity.
  - replace (jsstring_eqb k k0) with false.
    2:{ symmetry. apply jsstring_eqb_neq. apply jsstring_eqb_neq in E. congruence. }
    cbn [map fst orb]. rewrite IH.
    destruct (existsb (jsstring_eqb k) (map fst props)); reflexivity.
Qed.

Lemma fromEntries_NoDup (entries : list (jsstring * jsstring)) :
  List.NoDup (map fst (fromEntries entries)).
Proof.
  induction entries as [|[k v] entries IH] using rev_ind; [constructor|].
  rewrite fromEntries_snoc, setEntry_keys.
  destruct (existsb (jsstring_eqb k) (map fst (fromEntries entries))) eqn:E; [exact IH|].
  apply NoDup_app; [exact IH | repeat constructor; intros [] |].
  intros x Hx [<- | []].
  assert (existsb (jsstring_eqb k) (map fst (fromEntries entries)) = true).
  { apply existsb_exists. exists k. split; [exact Hx | apply jsstring_eqb_refl]. }
  congruence.
Qed.

Lemma getEntry_fromEntries_Some (entries : list (jsstring * jsstring)) (k v : jsstring) :
  getEntry k (fromEntries entries) = Some v ↔ lastEntry k v entries.
Proof.
  induction entries as [|[k' v'] entries IH] using rev_ind.
  - split; [discriminate|]. intros (pre & post & E & _). destruct pre; discriminate.
  - rewrite fromEntries_snoc, getEntry_setEntry.
    destruct (jsstring_eqb k' k) eqn:E.
    + apply jsstring_eqb_eq in E. subst k'. split.
      * intros [= ->]. exists entries, []. split; [reflexivity | constructor].
      * intros (pre & post & E & Hpost).
        destruct post as [|p post] using rev_ind.
        -- apply app_inj_tail in E as [_ E]. injection E as ->. reflexivity.
        -- clear IHpost. rewrite app_comm_cons, app_assoc in E.
           apply app_inj_tail in E as [_ E]. subst p.
           apply Forall_app in Hpost as [_ Hp]. inversion Hp as [|? ? Hk _].
           contradiction Hk. reflexivity.
    + apply jsstring_eqb_neq in E. rewrite IH. split.
      * intros (pre & post & -> & Hpost). exists pre, (post ++ [(k', v')]).
        split; [rewrite <- app_assoc; reflexivity|].
        apply Forall_app. split; [exact Hpost | repeat constructor; exact E].
      * intros (pre & post & E' & Hpost).
        destruct post as [|p post] using rev_ind.
        -- apply app_inj_tail in E' as [_ E']. injection E' as -> _.
           contradiction E. reflexivity.
        -- clear IHpost. rewrite app_comm_cons, app_assoc in E'.
           apply app_inj_tail in E' as [-> _].
           apply Forall_app in Hpost as [Hpost _]. exists pre, post. split; [reflexivity | exact Hpost].
Qed.

Lemma getEntry_fromEntries_None (entries : list (jsstring * jsstring)) (k : jsstring) :
  getEntry k (fromEntries entries) = None ↔ Forall (fun p => fst p ≠ k) entries.
Proof.
  induction entries as [|[k' v'] entries IH] using rev_ind.
  - split; [constructor | reflexivity].
  - rewrite fromEntries_snoc, getEntry_setEntry.
    destruct (jsstring_eqb k' k) eqn:E.
    + apply jsstring_eqb_eq in E. subst k'. split; [discriminate|].
      intros H. apply Forall_app in H as [_ H]. inversion H as [|? ? Hk _].
      contradiction Hk. reflexivity.
    + apply jsstring_eqb_neq in E. rewrite IH. split.
      * intros H. apply Forall_app. split; [exact H | repeat constructor; exact E].
      * intros H. apply Forall_app in H as [H _]. exact H.
Qed.

(** [toPojo] keys the attributes by their qualified names, every key
    once: the object holds, for a qualified name, the value of the last
    attribute written with that name, and no entry exactly when no
    attribute has it; the name is the qualified name of the element and
    the children are converted one by one, in order. *)
Theorem toPojo_attrs (e : XmlElement) :
  (∀ k v, getEntry k (pattrs (toPojo e)) = Some v ↔ lastEntry k v (qualifiedAttrs e))
  ∧ (∀ k, getEntry k (pattrs (toPojo e)) = None
          ↔ Forall (fun p => XmlName.toString (fst p) ≠ k) (attrs e))
  ∧ List.NoDup (map fst (pattrs (toPojo e)))
  ∧ pname (toPojo e) = XmlName.toString (ename e)
  ∧ pchildren (toPojo e)
    = map (fun c => match c with
                    | Text t => PText t
                    | Elem c => PElem (toPojo c)
                    end) (children e).
Proof.
  destruct e as [n a cs]. cbn [toPojo pattrs pname pchildren ename children].
  unfold qualifiedAttrs. cbn [attrs].
  split; [intros k v; apply getEntry_fromEntries_Some|].
  split.
  { intros k. rewrite getEntry_fromEntries_None, List.Forall_map.
    apply Forall_iff. intros [n' v']. reflexivity. }
  split; [apply fromEntries_NoDup|]. split; reflexivity.
Qed.

(* ===================================================================== *)
(** * Building and editing trees of element objects                        *)
(* ===================================================================== *)

Module StoreOps.
Import Store.


Lemma splice_insert_delete {A} (i : nat) (x : A) (l : list A) :
  l !! i = Some x → splice_insert i x (splice_delete i l) = l.
Proof.
  intros Hi. unfold splice_insert, splice_delete.
  pose proof (lookup_lt_Some _ _ _ Hi) as Hlt.
  rewrite take_app_le by (rewrite length_take; lia).
  rewrite take_take, Nat.min_id.
  rewrite drop_app_ge by (rewrite length_take; lia).
  rewrite length_take, Nat.min_l, Nat.sub_diag by lia. cbn [drop].
  rewrite <- (take_drop_middle l i x Hi) at 3. reflexivity.
Qed.

Lemma bounds_ok (n pos : Z) :
  (0 ≤ pos ≤ n)%Z → (n < 2 ^ 32)%Z →
  negb (isSafeInteger pos) || (pos <? 0)%Z || (n <? pos)%Z = false.
Proof.
  intros H1 H2.
  assert (E32 : (2 ^ 32)%Z = 4294967296%Z) by reflexivity.
  assert (E53 : (2 ^ 53)%Z = 9007199254740992%Z) by reflexivity.
  unfold isSafeInteger.
  rewrite !orb_false_iff, negb_false_iff, andb_true_iff, !Z.leb_le, !Z.ltb_ge. lia.
Qed.

(** What a successful [addChild] does to the store. *)
Lemma addChild_inserts (σ : store) (this : ref) (child : Node) (pos : option Z) (p : nat) :
  p ≤ length (children (σ this)) →
  (Z.of_nat (length (children (σ this))) < 2 ^ 32)%Z →
  pos = Some (Z.of_nat p) ∨ (pos = None ∧ p = length (children (σ this))) →
  match child with NElem c => parent (σ c) = None | NText _ => True end →
  ∃ σ', addChild this child pos σ = (Ok tt, σ')
        ∧ children (σ' this) = splice_insert p child (children (σ this))
        ∧ (∀ x, x ≠ this → children (σ' x) = children (σ x))
        ∧ (∀ x, parent (σ' x) = if decide (child = NElem x) then Some this else parent (σ x))
        ∧ (∀ x, name (σ' x) = name (σ x) ∧ attrs (σ' x) = attrs (σ x)).
Proof.
  intros Hp Hlen Hpos Hchild. unfold addChild.
  assert (Epos : match pos with
                 | Some p0 => p0
                 | None => Z.of_nat (length (children (σ this)))
                 end = Z.of_nat p).
  { destruct Hpos as [-> | [-> ->]]; reflexivity. }
  rewrite Epos. rewrite bounds_ok by lia. rewrite Nat2Z.id.
  destruct child as [t | c].
  - eexists. split; [reflexivity|].
    split; [rewrite StoreFacts.insert_at; destruct (decide (this = this)); [reflexivity | congruence]|].
    split; [intros x Hx; rewrite StoreFacts.insert_at;
            destruct (decide (this = x)); [congruence | reflexivity]|].
    split.
    + intros x. rewrite StoreFacts.insert_at.
      destruct (decide (NText t = NElem x)); [discriminate|].
      destruct (decide (this = x)); subst; reflexivity.
    + intros x. rewrite StoreFacts.insert_at.
      destruct (decide (this = x)); subst; split; reflexivity.
  - rewrite Hchild. eexists. split; [reflexivity|].
    split.
    { rewrite !StoreFacts.insert_at. destruct (decide (this = this)); [|congruence].
      cbn [setChildren children]. destruct (decide (c = this)); subst; reflexivity. }
    split.
    { intros x Hx. rewrite !StoreFacts.insert_at.
      destruct (decide (this = x)); [congruence|].
      destruct (decide (c = x)); subst; reflexivity. }
    split.
    { intros x. rewrite !StoreFacts.insert_at.
      destruct (decide (NElem c = NElem x)) as [[= ->] | Hne].
      - destruct (decide (this = x)); subst; cbn [setChildren parent];
          rewrite ?StoreFacts.insert_at; destruct (decide (x = x)); try congruence;
          reflexivity.
      - destruct (decide (this = x)); subst; cbn [setChildren parent];
          rewrite ?StoreFacts.insert_at; destruct (decide (c = x)); subst;
          try congruence; reflexivity. }
    intros x. rewrite !StoreFacts.insert_at.
    destruct (decide (this = x)); subst; cbn [setChildren name attrs];
      rewrite ?StoreFacts.insert_at; destruct (decide (c = x)); subst; split; reflexivity.
Qed.



(** Detaching an element and adding it back at the position [detach]
    returned restores the store: every object is as it was. *)
Theorem detach_addChild_restores (σ : store) (c p : ref) :
  attached σ → parent (σ c) = Some p →
  (Z.of_nat (length (children (σ p))) < 2 ^ 32)%Z →
  ∃ i σ' σ'',
    detach c σ = (Ok (p, i), σ')
    ∧ addChild p (NElem c) (Some i) σ' = (Ok tt, σ'')
    ∧ ∀ x, σ'' x = σ x.
Proof.
  intros Hatt Hp Hlen.
  destruct (StoreFacts.detach_spec σ c p Hatt Hp)
    as (i & σ' & E & Hi & Hpc & Hch & _ & Hother & Hpar & _).
  pose proof (lookup_lt_Some _ _ _ Hi) as Hlt.
  assert (Hlen' : length (children (σ' p)) = length (children (σ p)) - 1).
  { rewrite Hch. unfold splice_delete. rewrite length_app, length_take, length_drop. lia. }
  destruct (addChild_inserts σ' p (NElem c) (Some (Z.of_nat i)) i)
    as (σ'' & E' & Hch'' & Hother'' & Hpar'' & Hna''); [lia | lia | left; reflexivity | exact Hpc |].
  exists (Z.of_nat i), σ', σ''. split; [exact E|]. split; [exact E'|].
  intros x.
  assert (Hna' : name (σ' x) = name (σ x) ∧ attrs (σ' x) = attrs (σ x)).
  { unfold detach in E. rewrite Hp in E.
    destruct (StoreFacts.deleteChild_found σ p c) as (j & _ & Ed).
    { apply (list_elem_of_lookup_2 _ i). exact Hi. }
    rewrite Ed in E. injection E as _ <-.
    rewrite !StoreFacts.insert_at.
    destruct (decide (c = x)); subst; cbn [setParent name attrs];
      rewrite ?StoreFacts.insert_at; destruct (decide (p = x)); subst; split; reflexivity. }
  assert (Ec : children (σ'' x) = children (σ x)).
  { destruct (decide (x = p)) as [-> | Hx].
    - rewrite Hch'', Hch. apply splice_insert_delete. exact Hi.
    - rewrite Hother'' by exact Hx. apply Hother. exact Hx. }
  assert (Epar : parent (σ'' x) = parent (σ x)).
  { rewrite Hpar''. destruct (decide (NElem c = NElem x)) as [[= ->] | Hne].
    - symmetry. exact Hp.
    - apply Hpar. congruence. }
  destruct (Hna'' x) as [En Ea]. destruct Hna' as [En' Ea'].
  destruct (σ'' x), (σ x). cbn in *. congruence.
Qed.

Lemma detach_addChild_restores_witness :
  ∃ i σ' σ'',
    detach 2 sample = (Ok (0, i), σ')
    ∧ addChild 0 (NElem 2) (Some i) σ' = (Ok tt, σ'')
    ∧ ∀ x, σ'' x = sample x.
Proof.
  apply (detach_addChild_restores sample 2 0).
  - apply StoreFacts.sample_attached.
  - reflexivity.
  - vm_compute. reflexivity.
Defined.

Lemma of_loop_attached (r : ref) (cs : list Node) : ∀ σ,
  attached σ → attached (snd (of_loop r cs σ)).
Proof.
  induction cs as [|c cs IH]; intros σ Hatt; [exact Hatt|].
  cbn [of_loop]. pose proof (StoreFacts.attached_addChild σ r c None Hatt) as H.
  destruct (addChild r c None σ) as [[[]|e|] σ1]; cbn [snd] in *; [apply IH|..]; exact H.
Qed.

(** The loop of [of] on children that can all be added. *)
Lemma of_loop_adds (r : ref) (cs : list Node) : ∀ σ,
  (∀ c, NElem c ∈ cs → parent (σ c) = None) →
  (∀ c, count_occ Node_eq_dec cs (NElem c) ≤ 1) →
  (Z.of_nat (length (children (σ r) ++ cs)) < 2 ^ 32)%Z →
  ∃ σ', of_loop r cs σ = (Ok tt, σ')
        ∧ children (σ' r) = children (σ r) ++ cs
        ∧ (∀ x, x ≠ r → children (σ' x) = children (σ x))
        ∧ (∀ x, parent (σ' x) = if decide (NElem x ∈ cs) then Some r else parent (σ x))
        ∧ (∀ x, name (σ' x) = name (σ x) ∧ attrs (σ' x) = attrs (σ x)).
Proof.
  induction cs as [|c cs IH]; intros σ Hpar Hdup Hlen.
  - exists σ. cbn [of_loop]. rewrite app_nil_r.
    repeat split; reflexivity.
  - rewrite length_app in Hlen. cbn [length] in Hlen.
    destruct (addChild_inserts σ r c None (length (children (σ r))))
      as (σ1 & E1 & Hch1 & Hother1 & Hpar1 & Hna1);
      [lia | lia | right; split; reflexivity | |].
    { destruct c as [t | c]; [exact I|]. apply Hpar. left. }
    assert (Hch1' : children (σ1 r) = children (σ r) ++ [c]).
    { rewrite Hch1. unfold splice_insert. rewrite firstn_all, drop_all. reflexivity. }
    assert (Hnotin : ∀ x, c = NElem x → NElem x ∉ cs).
    { intros x -> Hin. specialize (Hdup x). cbn [count_occ] in Hdup.
      destruct (Node_eq_dec (NElem x) (NElem x)); [|congruence].
      apply StoreFacts.elem_of_count_occ in Hin. lia. }
    destruct (IH σ1) as (σ' & E & Hch & Hother & Hpar' & Hna).
    + intros x Hx. rewrite Hpar1. destruct (decide (c = NElem x)) as [Hc | _].
      * exfalso. exact (Hnotin x Hc Hx).
      * apply Hpar. right. exact Hx.
    + intros x. specialize (Hdup x). cbn [count_occ] in Hdup.
      destruct (Node_eq_dec c (NElem x)); lia.
    + rewrite Hch1', length_app, length_app. cbn [length]. lia.
    + exists σ'. cbn [of_loop]. rewrite E1. split; [exact E|].
      split; [rewrite Hch, Hch1', <- app_assoc; reflexivity|].
      split; [intros x Hx; rewrite Hother by exact Hx; apply Hother1; exact Hx|].
      split.
      * intros x. rewrite Hpar', Hpar1.
        destruct (decide (NElem x ∈ cs)) as [Hin | Hnin].
        -- destruct (decide (NElem x ∈ c :: cs)) as [_ | H]; [reflexivity|].
           contradiction H. right. exact Hin.
        -- destruct (decide (c = NElem x)) as [-> | Hne].
           ++ destruct (decide (NElem x ∈ NElem x :: cs)) as [_ | H]; [reflexivity|].
              contradiction H. left.
           ++ destruct (decide (NElem x ∈ c :: cs)) as [H | _]; [|reflexivity].
              apply elem_of_cons in H as [H | H]; [congruence | contradiction].
      * intros x. destruct (Hna x) as [-> ->]. apply Hna1.
Qed.

(** The loop of [of] stops at the first child that has a parent already;
    the children before it have been added. *)
Lemma of_loop_stops (r : ref) (pre : list Node) (c : ref) (post : list Node) : ∀ σ,
  (∀ x, NElem x ∈ pre → parent (σ x) = None) →
  (∀ x, count_occ Node_eq_dec pre (NElem x) ≤ 1) →
  (Z.of_nat (length (children (σ r) ++ pre)) < 2 ^ 32)%Z →
  parent (σ c) ≠ None ∨ NElem c ∈ pre →
  ∃ σ', of_loop r (pre ++ NElem c :: post) σ
        = (Throw (ReferenceError (str "Cannot add child that already has parent")), σ')
        ∧ children (σ' r) = children (σ r) ++ pre
        ∧ (∀ x, NElem x ∈ pre → parent (σ' x) = Some r).
Proof.
  intros σ Hpar Hdup Hlen Hc.
  destruct (of_loop_adds r pre σ Hpar Hdup Hlen) as (σ1 & E & Hch & _ & Hpar1 & _).
  assert (Happ : ∀ l1 l2 σ0 σ2,
             of_loop r l1 σ0 = (Ok tt, σ2) → of_loop r (l1 ++ l2) σ0 = of_loop r l2 σ2).
  { induction l1 as [|y l1 IH]; intros l2 σ0 σ2 H.
    - cbn [of_loop] in H. injection H as <-. reflexivity.
    - cbn [app of_loop] in *. destruct (addChild r y None σ0) as [[[]|e|] σ3];
        [apply IH; exact H | discriminate | discriminate]. }
  rewrite (Happ _ _ _ _ E). cbn [of_loop].
  assert (Hpc : ∃ q, parent (σ1 c) = Some q).
  { rewrite Hpar1. destruct (decide (NElem c ∈ pre)) as [_ | Hnin]; [eexists; reflexivity|].
    destruct Hc as [Hc | Hc]; [|contradiction].
    destruct (parent (σ c)) as [q|]; [eexists; reflexivity | congruence]. }
  destruct Hpc as [q Hq].
  unfold addChild. rewrite bounds_ok by (rewrite Hch; lia). rewrite Hq.
  eexists. split; [reflexivity|]. split; [exact Hch|].
  intros x Hx. rewrite Hpar1. destruct (decide (NElem x ∈ pre)); [reflexivity | contradiction].
Qed.

Lemma new_lookup (σ : store) (r x : ref) n a :
  new r None n a σ x = if decide (r = x) then mkObj None n a [] else σ x.
Proof. unfold new. apply StoreFacts.insert_at. Qed.

(** [XmlElement.of] on children that are strings and elements without a
    parent, no element given twice: the new element has the name read
    from the qualified name, no parent, and exactly the children given, in
    order; every element among them has the new element as its parent;
    nothing else changes, and the store keeps the invariant that ties
    [parent] to [children]. *)
Theorem of_builds (σ : store) (r : ref) (qName : jsstring)
    (attrs0 : list (jsstring * option jsstring)) (cs : list Node) :
  attached σ → unreferenced σ r → NElem r ∉ cs →
  (Z.of_nat (length cs) < 2 ^ 32)%Z →
  (∀ c, NElem c ∈ cs → parent (σ c) = None) →
  (∀ c, count_occ Node_eq_dec cs (NElem c) ≤ 1) →
  ∃ σ', of_ r qName attrs0 cs σ = (Ok r, σ')
        ∧ children (σ' r) = cs
        ∧ parent (σ' r) = None
        ∧ name (σ' r) = XmlName.fromQName qName
        ∧ (∀ c, NElem c ∈ cs → parent (σ' c) = Some r)
        ∧ (∀ x, x ≠ r → children (σ' x) = children (σ x))
        ∧ (∀ x, x ≠ r → NElem x ∉ cs → parent (σ' x) = parent (σ x))
        ∧ attached σ'.
Proof.
  intros Hatt Hfresh Hr Hlen Hpar Hdup. unfold of_.
  set (a := omap _ attrs0).
  set (σ0 := new r None (XmlName.fromQName qName) a σ).
  assert (Hatt0 : attached σ0) by (apply StoreFacts.attached_new; assumption).
  assert (Hr0 : σ0 r = mkObj None (XmlName.fromQName qName) a []).
  { unfold σ0. rewrite new_lookup. destruct (decide (r = r)); [reflexivity | congruence]. }
  assert (Hx0 : ∀ x, x ≠ r → σ0 x = σ x).
  { intros x Hx. unfold σ0. rewrite new_lookup.
    destruct (decide (r = x)); [congruence | reflexivity]. }
  destruct (of_loop_adds r cs σ0) as (σ' & E & Hch & Hother & Hpar' & Hna).
  - intros c Hc. rewrite Hx0; [apply Hpar, Hc|]. intros ->. contradiction.
  - exact Hdup.
  - rewrite Hr0. exact Hlen.
  - pose proof (of_loop_attached r cs σ0 Hatt0) as Hatt'. rewrite E in *. cbn [snd] in Hatt'.
    exists σ'. split; [reflexivity|].
    split; [rewrite Hch, Hr0; reflexivity|].
    split; [rewrite Hpar'; destruct (decide (NElem r ∈ cs)); [contradiction|];
            rewrite Hr0; reflexivity|].
    split; [destruct (Hna r) as [-> _]; rewrite Hr0; reflexivity|].
    split; [intros c Hc; rewrite Hpar'; destruct (decide (NElem c ∈ cs));
            [reflexivity | contradiction]|].
    split; [intros x Hx; rewrite Hother by exact Hx; rewrite Hx0 by exact Hx; reflexivity|].
    split; [|exact Hatt'].
    intros x Hx Hnin. rewrite Hpar'. destruct (decide (NElem x ∈ cs)); [contradiction|].
    rewrite Hx0 by exact Hx. reflexivity.
Qed.

Lemma blank_attached : attached blank.
Proof. apply StoreFacts.reachable_attached, reachable_init. intros r. split; reflexivity. Qed.

Lemma blank_unreferenced (r : ref) : unreferenced blank r.
Proof. split; [intros p H; inversion H | intros c; discriminate]. Qed.

Lemma of_builds_witness :
  ∃ σ', of_ 5 (str "x:a") [(str "k", Some (str "v")); (str "u", None)]
            [NElem 1; NText (str "t"); NElem 2] blank = (Ok 5, σ')
        ∧ children (σ' 5) = [NElem 1; NText (str "t"); NElem 2]
        ∧ parent (σ' 1) = Some 5
        ∧ name (σ' 5) = mkXmlName (str "x") (str "a").
Proof.
  destruct (of_builds blank 5 (str "x:a") [(str "k", Some (str "v")); (str "u", None)]
              [NElem 1; NText (str "t"); NElem 2])
    as (σ' & E & H1 & _ & H3 & H4 & _).
  - apply blank_attached.
  - apply blank_unreferenced.
  - intros H. repeat (apply elem_of_cons in H as [H | H]; [discriminate|]). inversion H.
  - vm_compute. reflexivity.
  - intros c _. reflexivity.
  - intros c. cbn [count_occ]. repeat destruct (Node_eq_dec _ _); try lia; congruence.
  - exists σ'. split; [exact E|]. split; [exact H1|]. split; [apply H4; left|].
    rewrite H3. vm_compute. reflexivity.
Defined.

(** [XmlElement.of] stops with the [ReferenceError] of [addChild] at the
    first child that has a parent already or was given earlier in the same
    array; by then the children before it have been added to the new
    element, which the caller never receives: they are left with it as
    their parent. *)
Theorem of_abandons_children (σ : store) (r : ref) (qName : jsstring)
    (attrs0 : list (jsstring * option jsstring))
    (pre : list Node) (c : ref) (post : list Node) :
  attached σ → unreferenced σ r → NElem r ∉ pre → c ≠ r →
  (Z.of_nat (length pre) < 2 ^ 32)%Z →
  (∀ x, NElem x ∈ pre → parent (σ x) = None) →
  (∀ x, count_occ Node_eq_dec pre (NElem x) ≤ 1) →
  parent (σ c) ≠ None ∨ NElem c ∈ pre →
  ∃ σ', of_ r qName attrs0 (pre ++ NElem c :: post) σ
        = (Throw (ReferenceError (str "Cannot add child that already has parent")), σ')
        ∧ (∀ x, NElem x ∈ pre → parent (σ' x) = Some r)
        ∧ children (σ' r) = pre
        ∧ attached σ'.
Proof.
  intros Hatt Hfresh Hr Hc Hlen Hpar Hdup Hbad. unfold of_.
  set (a := omap _ attrs0).
  set (σ0 := new r None (XmlName.fromQName qName) a σ).
  assert (Hatt0 : attached σ0) by (apply StoreFacts.attached_new; assumption).
  assert (Hr0 : σ0 r = mkObj None (XmlName.fromQName qName) a []).
  { unfold σ0. rewrite new_lookup. destruct (decide (r = r)); [reflexivity | congruence]. }
  assert (Hx0 : ∀ x, x ≠ r → σ0 x = σ x).
  { intros x Hx. unfold σ0. rewrite new_lookup.
    destruct (decide (r = x)); [congruence | reflexivity]. }
  destruct (of_loop_stops r pre c post σ0) as (σ' & E & Hch & Hpar').
  - intros x Hx. rewrite Hx0; [apply Hpar, Hx|]. intros ->. contradiction.
  - exact Hdup.
  - rewrite Hr0. exact Hlen.
  - rewrite Hx0 by exact Hc. exact Hbad.
  - pose proof (of_loop_attached r (pre ++ NElem c :: post) σ0 Hatt0) as Hatt'.
    rewrite E in *. cbn [snd] in Hatt'.
    exists σ'. split; [reflexivity|]. split; [exact Hpar'|].
    split; [rewrite Hch, Hr0; reflexivity | exact Hatt'].
Qed.

Lemma of_abandons_children_witness :
  ∃ σ', of_ 5 (str "a") [] ([NElem 1] ++ NElem 1 :: []) blank
        = (Throw (ReferenceError (str "Cannot add child that already has parent")), σ')
        ∧ parent (σ' 1) = Some 5.
Proof.
  destruct (of_abandons_children blank 5 (str "a") [] [NElem 1] 1 [])
    as (σ' & E & H1 & _).
  - apply blank_attached.
  - apply blank_unreferenced.
  - intros H. repeat (apply elem_of_cons in H as [H | H]; [discriminate|]). inversion H.
  - discriminate.
  - vm_compute. reflexivity.
  - intros x _. reflexivity.
  - intros x. cbn [count_occ]. repeat destruct (Node_eq_dec _ _); try lia; congruence.
  - right. left.
  - exists σ'. split; [exact E|]. apply H1. left.
Defined.

End StoreOps.

(* ===================================================================== *)
(** * Failing runs                                                         *)
(* ===================================================================== *)

Lemma FailsAt_throwErr {A} (d s : jsstring) : FailsAt (@throwErr A d) s d s.
Proof.
  intros l Ht Hs. exists l.
  split; [exact Ht|]. split; [reflexivity|]. split; [exact Hs | reflexivity].
Qed.

Lemma FailsAt_bind_l {A B} (m : P A) (k : A -> P B) s d s' :
  FailsAt m s d s' → FailsAt (bind m k) s d s'.
Proof.
  intros H l Ht Hs. destruct (H l Ht Hs) as (l' & H1 & H2 & H3 & E).
  exists l'. unfold bind. rewrite E.
  split; [exact H1|]. split; [exact H2|]. split; [exact H3 | reflexivity].
Qed.

Lemma FailsAt_bind_r {A B} (m : P A) (k : A -> P B) s a s1 d s' :
  Runs m s a s1 → Tracks m → FailsAt (k a) s1 d s' → FailsAt (bind m k) s d s'.
Proof.
  intros Hr Htr Hf l Ht Hs. destruct (Hr l Hs) as (l1 & E & Hs1).
  pose proof (Htr l Ht) as H. rewrite E in H. destruct H as [Hsrc Ht1].
  destruct (Hf l1 Ht1 Hs1) as (l' & H1 & H2 & H3 & E').
  exists l'. unfold bind. rewrite E.
  split; [exact H1|]. split; [congruence|]. split; [exact H3 | exact E'].
Qed.

Lemma FailsAt_fuel {A} (f : nat -> P A) s d s' :
  FailsAt (f (S (length s))) s d s' → FailsAt (fun l => f (S (remaining l)) l) s d s'.
Proof.
  intros H l Ht Hs. rewrite remaining_rem, Hs. apply H; assumption.
Qed.

Lemma FailsAt_consume_end : FailsAt consume [] (str "Unexpected end") [].
Proof.
  intros l Ht Hs. exists l.
  split; [exact Ht|]. split; [reflexivity|]. split; [exact Hs|].
  unfold consume, bind, consumeOrEnd. rewrite lookup_next, Hs. reflexivity.
Qed.

Lemma FailsAt_expect_end (c : jschar) : FailsAt (expect c) [] (str "Unexpected end") [].
Proof. unfold expect. apply FailsAt_bind_l, FailsAt_consume_end. Qed.

Lemma FailsAt_expect_other (c b : jschar) (s : jsstring) :
  b ≠ c →
  FailsAt (expect c) (b :: s) (str "Expected " ++ [c] ++ str " but got " ++ [b]) s.
Proof.
  intros Hne. unfold expect.
  eapply FailsAt_bind_r; [apply Runs_consume | apply Tracks_consume |].
  replace (jschar_eqb b c) with false by (symmetry; apply jschar_eqb_neq; exact Hne).
  apply FailsAt_throwErr.
Qed.

(** One step of a run that ends in a parse error. *)
Ltac fail_with H := eapply FailsAt_bind_r; [apply H | tracks |]; cbv beta.

(** A run of [parseContent] that fails makes [parseXml] fail with the
    same error. *)
Lemma parseXml_of_fail (consumed rest d : jsstring) :
  FailsAt (parseContent (S (length (consumed ++ rest))) (mkXmlElement (mkXmlName [] []) [] []))
          (consumed ++ rest) d rest →
  parseXml (consumed ++ rest) = Throw (parseErrorAfter d consumed).
Proof.
  intros H.
  destruct (H (newLexer (consumed ++ rest)) (tracked_newLexer _) (rem_newLexer _))
    as (l' & [Hle Hpos] & Hsrc & Hrem & E).
  unfold parseXml. rewrite E. unfold err, parseErrorAfter.
  cbn [src newLexer] in Hsrc. rewrite Hsrc in *.
  assert (Hc : take (next l') (consumed ++ rest) = consumed).
  { unfold rem in Hrem. rewrite Hsrc in Hrem.
    pose proof (take_drop (next l') (consumed ++ rest)) as Htd. rewrite Hrem in Htd.
    apply app_inv_tail in Htd. exact Htd. }
  rewrite Hc in Hpos. rewrite <- Hpos. reflexivity.
Qed.

(* ===================================================================== *)
(** * Numeric character references                                         *)
(* ===================================================================== *)

Lemma allOf_head charset (num s : jsstring) (c : jschar) :
  allOf charset num → num ≠ [] → includes charset c = false →
  headIs c (num ++ s) = false.
Proof.
  intros Hnum Hne Hc. destruct num as [|x num]; [congruence|].
  inversion Hnum as [|? ? Hx _]. cbn [app]. eapply headIs_other; eassumption.
Qed.

Lemma Reaches_refl {A} (m : P A) (s : jsstring) : Reaches m s m s.
Proof. intros l Hs. exists l. split; [exact Hs|]. split; [tauto | reflexivity]. Qed.

Lemma Reaches_bind {A B} (m : P A) (k : A -> P B) s a s1 (K : P B) s2 :
  Runs m s a s1 → Tracks m → Reaches (k a) s1 K s2 → Reaches (bind m k) s K s2.
Proof.
  intros Hr Htr Hk l Hs. destruct (Hr l Hs) as (l1 & E & Hs1).
  destruct (Hk l1 Hs1) as (l2 & Hs2 & Ht2 & E2).
  exists l2. split; [exact Hs2|]. split.
  - intros Ht. pose proof (Htr l Ht) as H. rewrite E in H. destruct H as [Hsrc Ht1].
    destruct (Ht2 Ht1) as [H1 H2]. split; [exact H1 | congruence].
  - unfold bind. rewrite E. exact E2.
Qed.

Lemma Reaches_Runs {A} (m k : P A) s s1 a s2 :
  Reaches m s k s1 → Runs k s1 a s2 → Runs m s a s2.
Proof.
  intros Hm Hk l Hs. destruct (Hm l Hs) as (l1 & Hs1 & _ & E).
  rewrite E. apply Hk, Hs1.
Qed.

Lemma Reaches_FailsAt {A} (m k : P A) s s1 d s2 :
  Reaches m s k s1 → FailsAt k s1 d s2 → FailsAt m s d s2.
Proof.
  intros Hm Hk l Ht Hs. destruct (Hm l Hs) as (l1 & Hs1 & Ht1 & E).
  destruct (Ht1 Ht) as [Ht1' Hsrc].
  destruct (Hk l1 Ht1' Hs1) as (l' & H1 & H2 & H3 & E').
  exists l'. rewrite E.
  split; [exact H1|]. split; [congruence|]. split; [exact H3 | exact E'].
Qed.

(** One step towards the point that decides the outcome. *)
Ltac reach_with H := eapply Reaches_bind; [apply H | tracks |]; cbv beta.

(** Up to its last step, [parseEntity] on a decimal reference: the code
    point is the decimal value of the digits. *)
Lemma Reaches_parseEntity_decimal (num s : jsstring) :
  allOf DIGIT num → 1 ≤ length num ≤ 7 →
  Reaches parseEntity (str "&#" ++ num ++ chr ";" :: s)
    (match fromCodePoint (parseInt 10 num) with
     | Some out => ret out
     | None => throwErr (str "Entity refers to invalid Unicode code point "
                         ++ decimal (parseInt 10 num))
     end) s.
Proof.
  intros Hnum Hlen.
  assert (Hne : num ≠ []) by (intros ->; simpl in Hlen; lia).
  unfold parseEntity. eval_str. cbn [app].
  reach_with Runs_expect.
  eapply Reaches_bind; [|tracks|].
  { run_with Runs_skipIf_true.
    run_with Runs_skipIf_false; [eapply (allOf_head DIGIT); eauto|].
    run_with Runs_skipIf_false; [eapply (allOf_head DIGIT); eauto|].
    eapply Runs_bind; [apply Runs_consumeWhile; [exact Hnum | reflexivity]|].
    cbv beta.
    replace ((length num <? 1) || (7 <? length num)) with false.
    2:{ symmetry. apply orb_false_iff. split; apply Nat.ltb_ge; lia. }
    apply Runs_ret. }
  cbv beta. reach_with Runs_expect. apply Reaches_refl.
Qed.

(** The same for a hexadecimal reference, introduced by [x] or [X]. *)
Lemma Reaches_parseEntity_hex (x : jschar) (num s : jsstring) :
  x = chr "x" ∨ x = chr "X" → allOf HEX num → 1 ≤ length num ≤ 6 →
  Reaches parseEntity (str "&#" ++ x :: num ++ chr ";" :: s)
    (match fromCodePoint (parseInt 16 num) with
     | Some out => ret out
     | None => throwErr (str "Entity refers to invalid Unicode code point "
                         ++ decimal (parseInt 16 num))
     end) s.
Proof.
  intros Hx Hnum Hlen.
  unfold parseEntity. eval_str. cbn [app].
  reach_with Runs_expect.
  eapply Reaches_bind; [|tracks|].
  { run_with Runs_skipIf_true.
    assert (Htail : Runs (let* num := consumeWhile HEX in
                          if (length num <? 1) || (6 <? length num)
                          then throwErr (str "Hexadecimal entity is invalid")
                          else ret (parseInt 16 num))
                         (num ++ chr ";" :: s) (parseInt 16 num) (chr ";" :: s)).
    { eapply Runs_bind; [apply Runs_consumeWhile; [exact Hnum | reflexivity]|].
      cbv beta.
      replace ((length num <? 1) || (6 <? length num)) with false.
      2:{ symmetry. apply orb_false_iff. split; apply Nat.ltb_ge; lia. }
      apply Runs_ret. }
    destruct Hx as [-> | ->].
    - run_with Runs_skipIf_true. eapply Runs_bind; [apply Runs_ret|]. exact Htail.
    - run_with Runs_skipIf_false; [reflexivity|]. run_with Runs_skipIf_true. exact Htail. }
  cbv beta. reach_with Runs_expect. apply Reaches_refl.
Qed.

(** A numeric character reference [&#digits;] or [&#xdigits;] is decoded
    to the character with that code point (above U+FFFF, to its surrogate
    pair): up to seven decimal digits, or up to six hexadecimal digits
    after [x] or [X]; a code point above U+10FFFF is the parse error
    "Entity refers to invalid Unicode code point", raised behind the
    semicolon; no digit at all, or more digits than that, is the parse
    error "Decimal entity is invalid" or "Hexadecimal entity is invalid",
    raised behind the digits. *)
Theorem numeric_reference (num s : jsstring) :
  (allOf DIGIT num → 1 ≤ length num ≤ 7 →
   match fromCodePoint (parseInt 10 num) with
   | Some out => Runs parseEntity (str "&#" ++ num ++ chr ";" :: s) out s
   | None =>
       FailsAt parseEntity (str "&#" ++ num ++ chr ";" :: s)
         (str "Entity refers to invalid Unicode code point " ++ decimal (parseInt 10 num)) s
   end)
  ∧ (∀ x, x = chr "x" ∨ x = chr "X" → allOf HEX num → 1 ≤ length num ≤ 6 →
     match fromCodePoint (parseInt 16 num) with
     | Some out => Runs parseEntity (str "&#" ++ x :: num ++ chr ";" :: s) out s
     | None =>
         FailsAt parseEntity (str "&#" ++ x :: num ++ chr ";" :: s)
           (str "Entity refers to invalid Unicode code point " ++ decimal (parseInt 16 num)) s
     end)
  ∧ (allOf DIGIT num → length num = 0 ∨ 7 < length num →
     headIn (DIGIT ++ str "xX") s = false →
     FailsAt parseEntity (str "&#" ++ num ++ s) (str "Decimal entity is invalid") s)
  ∧ (∀ x, x = chr "x" ∨ x = chr "X" → allOf HEX num → length num = 0 ∨ 6 < length num →
     headIn HEX s = false →
     FailsAt parseEntity (str "&#" ++ x :: num ++ s) (str "Hexadecimal entity is invalid") s).
Proof.
  split; [|split; [|split]].
  - intros Hnum Hlen. pose proof (Reaches_parseEntity_decimal num s Hnum Hlen) as H.
    destruct (fromCodePoint (parseInt 10 num)).
    + eapply Reaches_Runs; [exact H | apply Runs_ret].
    + eapply Reaches_FailsAt; [exact H | apply FailsAt_throwErr].
  - intros x Hx Hnum Hlen. pose proof (Reaches_parseEntity_hex x num s Hx Hnum Hlen) as H.
    destruct (fromCodePoint (parseInt 16 num)).
    + eapply Reaches_Runs; [exact H | apply Runs_ret].
    + eapply Reaches_FailsAt; [exact H | apply FailsAt_throwErr].
  - intros Hnum Hlen Hs.
    assert (Hs' : headIn DIGIT s = false ∧ headIs (chr "x") s = false
                  ∧ headIs (chr "X") s = false).
    { destruct s as [|c s]; [repeat split|]. cbn [headIn headIs] in *.
      unfold includes in *. rewrite existsb_app in Hs. apply orb_false_iff in Hs as [H1 H2].
      split; [exact H1|]. cbn [existsb str map list_ascii_of_string] in H2.
      rewrite !orb_false_iff in H2. destruct H2 as (H2 & H3 & _). split; assumption. }
    destruct Hs' as (Hd & Hx1 & Hx2).
    assert (Hhead : ∀ c, includes DIGIT c = false → headIs c s = false →
                         headIs c (num ++ s) = false).
    { intros c Hc Hcs. destruct num as [|y num]; [exact Hcs|].
      apply (allOf_head DIGIT); [exact Hnum | discriminate | exact Hc]. }
    unfold parseEntity. eval_str. cbn [app].
    fail_with Runs_expect. apply FailsAt_bind_l.
    fail_with Runs_skipIf_true.
    fail_with Runs_skipIf_false; [apply Hhead; [reflexivity | exact Hx1]|].
    fail_with Runs_skipIf_false; [apply Hhead; [reflexivity | exact Hx2]|].
    eapply FailsAt_bind_r; [apply Runs_consumeWhile; [exact Hnum | exact Hd] | tracks |].
    cbv beta.
    replace ((length num <? 1) || (7 <? length num)) with true.
    2:{ symmetry. apply orb_true_iff. destruct Hlen; [left | right]; apply Nat.ltb_lt; lia. }
    apply FailsAt_throwErr.
  - intros x Hx Hnum Hlen Hs.
    unfold parseEntity. eval_str. cbn [app].
    fail_with Runs_expect. apply FailsAt_bind_l.
    fail_with Runs_skipIf_true.
    assert (Htail : FailsAt (let* num := consumeWhile HEX in
                             if (length num <? 1) || (6 <? length num)
                             then throwErr (str "Hexadecimal entity is invalid")
                             else ret (parseInt 16 num))
                            (num ++ s) (str "Hexadecimal entity is invalid") s).
    { eapply FailsAt_bind_r; [apply Runs_consumeWhile; [exact Hnum | exact Hs] | tracks |].
      cbv beta.
      replace ((length num <? 1) || (6 <? length num)) with true.
      2:{ symmetry. apply orb_true_iff. destruct Hlen; [left | right]; apply Nat.ltb_lt; lia. }
      apply FailsAt_throwErr. }
    destruct Hx as [-> | ->].
    + fail_with Runs_skipIf_true. eapply FailsAt_bind_r; [apply Runs_ret | tracks |].
      exact Htail.
    + fail_with Runs_skipIf_false; [reflexivity|]. fail_with Runs_skipIf_true. exact Htail.
Qed.

Lemma numeric_reference_witness :
  Runs parseEntity (str "&#65;" ++ str "b") (str "A") (str "b")
  ∧ Runs parseEntity (str "&#x1F600;") [55357; 56832]%N []
  ∧ FailsAt parseEntity (str "&#9999999;")
      (str "Entity refers to invalid Unicode code point 9999999") []
  ∧ FailsAt parseEntity (str "&#;") (str "Decimal entity is invalid") (str ";")
  ∧ FailsAt parseEntity (str "&#x1234567;") (str "Hexadecimal entity is invalid") (str ";").
Proof.
  split; [|split; [|split; [|split]]].
  - apply (proj1 (numeric_reference (str "65") (str "b"))).
    + repeat constructor.
    + vm_compute. lia.
  - apply (proj1 (proj2 (numeric_reference (str "1F600") [])) (chr "x")).
    + left. reflexivity.
    + repeat constructor.
    + vm_compute. lia.
  - apply (proj1 (numeric_reference (str "9999999") [])).
    + repeat constructor.
    + vm_compute. lia.
  - apply (proj1 (proj2 (proj2 (numeric_reference [] (str ";"))))).
    + constructor.
    + left. reflexivity.
    + reflexivity.
  - apply (proj2 (proj2 (proj2 (numeric_reference (str "1234567") (str ";")))) (chr "x")).
    + left. reflexivity.
    + repeat constructor.
    + right. vm_compute. lia.
    + reflexivity.
Defined.

(* ===================================================================== *)
(** * Reading what is written                                              *)
(* ===================================================================== *)

Example test_items_written :
  writeItems test_items = test_document ∧ itemsOk test_items = true.
Proof. split; vm_compute; reflexivity. Qed.

Lemma ENTITY_REFS_cases (nm s : jsstring) :
  ENTITY_REFS nm = Some s →
  forallb (includes LOWERCASE) nm = true ∧ ∃ c, s = [c] ∧ (0 < c < 65536)%N.
Proof.
  unfold ENTITY_REFS.
  destruct (jsstring_eqb nm (str "amp")) eqn:E1.
  { apply jsstring_eqb_eq in E1. subst nm. intros [= <-].
    split; [reflexivity | eexists; split; [reflexivity | split; reflexivity]]. }
  destruct (jsstring_eqb nm (str "apos")) eqn:E2.
  { apply jsstring_eqb_eq in E2. subst nm. intros [= <-].
    split; [reflexivity | eexists; split; [reflexivity | split; reflexivity]]. }
  destruct (jsstring_eqb nm (str "gt")) eqn:E3.
  { apply jsstring_eqb_eq in E3. subst nm. intros [= <-].
    split; [reflexivity | eexists; split; [reflexivity | split; reflexivity]]. }
  destruct (jsstring_eqb nm (str "lt")) eqn:E4.
  { apply jsstring_eqb_eq in E4. subst nm. intros [= <-].
    split; [reflexivity | eexists; split; [reflexivity | split; reflexivity]]. }
  destruct (jsstring_eqb nm (str "quot")) eqn:E5.
  { apply jsstring_eqb_eq in E5. subst nm. intros [= <-].
    split; [reflexivity | eexists; split; [reflexivity | split; reflexivity]]. }
  discriminate.
Qed.

Lemma Runs_parseEntity_piece (d : jschar) (p : Piece) (s : jsstring) :
  pieceOk d p = true → (∀ c, p ≠ Raw c) →
  Runs parseEntity (writePiece p ++ s) (pieceValue p) s.
Proof.
  intros Hok Hraw. destruct p as [c | nm | digits | x digits]; cbn [pieceOk] in Hok.
  - contradiction (Hraw c). reflexivity.
  - cbn [writePiece pieceValue]. destruct (ENTITY_REFS nm) as [v|] eqn:E; [|discriminate].
    destruct (ENTITY_REFS_cases nm v E) as (Hnm & c & -> & Hc).
    change (str ";") with [chr ";"]. cbn [app]. rewrite <- app_assoc. cbn [app].
    apply Runs_parseEntity_named; assumption.
  - cbn [writePiece pieceValue].
    rewrite !andb_true_iff in Hok. destruct Hok as (((Hd & H1) & H7) & Hcp).
    apply Nat.leb_le in H1, H7. apply N.leb_le in Hcp.
    pose proof (Reaches_parseEntity_decimal digits s (forallb_Forall _ _ Hd) (conj H1 H7)) as H.
    replace ((str "&#" ++ digits ++ str ";") ++ s)
      with (str "&#" ++ digits ++ chr ";" :: s)
      by (cbn; rewrite <- app_assoc; reflexivity).
    eapply Reaches_Runs; [exact H|].
    unfold fromCodePoint in *.
    replace (1114111 <? parseInt 10 digits)%N with false
      by (symmetry; apply N.ltb_ge; exact Hcp).
    destruct (parseInt 10 digits <? 65536)%N; apply Runs_ret.
  - cbn [writePiece pieceValue].
    rewrite !andb_true_iff in Hok. destruct Hok as ((((Hx & Hd) & H1) & H6) & Hcp).
    apply Nat.leb_le in H1, H6. apply N.leb_le in Hcp.
    assert (Hx' : x = chr "x" ∨ x = chr "X").
    { apply orb_true_iff in Hx as [Hx | Hx]; apply jschar_eqb_eq in Hx; auto. }
    pose proof (Reaches_parseEntity_hex x digits s Hx' (forallb_Forall _ _ Hd) (conj H1 H6))
      as H.
    replace ((str "&#" ++ x :: digits ++ str ";") ++ s)
      with (str "&#" ++ x :: digits ++ chr ";" :: s)
      by (cbn; rewrite <- app_assoc; reflexivity).
    eapply Reaches_Runs; [exact H|].
    unfold fromCodePoint in *.
    replace (1114111 <? parseInt 16 digits)%N with false
      by (symmetry; apply N.ltb_ge; exact Hcp).
    destruct (parseInt 16 digits <? 65536)%N; apply Runs_ret.
Qed.

Lemma writePiece_head (p : Piece) :
  ∃ x tl, writePiece p = x :: tl
          ∧ (match p with Raw c => x = c ∧ tl = [] | _ => x = chr "&" end).
Proof.
  destruct p; cbn [writePiece]; eexists _, _; (split; [reflexivity|]); auto.
Qed.

Lemma length_writeText (ps : list Piece) : length ps ≤ length (writeText ps).
Proof.
  induction ps as [|p ps IH]; [simpl; lia|].
  unfold writeText in *. cbn [flat_map]. rewrite length_app.
  destruct (writePiece_head p) as (x & tl & -> & _). cbn [length]. lia.
Qed.

(** Character data is decoded piece by piece, up to the end of the input
    or the delimiter. *)
Lemma Runs_parseTextOrValue_loop_pieces (d : jschar) (ps : list Piece) (s : jsstring) :
  jschar_eqb (chr "&") d = false → forallb (pieceOk d) ps = true → stopsAt d s = true →
  ∀ fuel parts, length ps < fuel →
    Runs (parseTextOrValue_loop fuel d parts) (writeText ps ++ s)
         (join parts ++ decodedText ps) s.
Proof.
  intros Hamp Hps Hs. induction ps as [|p ps IH]; intros fuel parts Hf.
  - destruct fuel as [|fuel]; [simpl in Hf; lia|].
    cbn [parseTextOrValue_loop writeText decodedText flat_map app].
    run_with Runs_peek. rewrite app_nil_r.
    destruct s as [|x s]; cbn [head stopsAt] in *; [apply Runs_ret|].
    rewrite Hs. apply Runs_ret.
  - destruct fuel as [|fuel]; [simpl in Hf; lia|].
    cbn [forallb] in Hps. apply andb_true_iff in Hps as [Hp Hps].
    unfold writeText, decodedText in *. cbn [flat_map]. rewrite <- app_assoc.
    replace (join parts ++ pieceValue p ++ flat_map pieceValue ps)
      with (join (parts ++ [pieceValue p]) ++ flat_map pieceValue ps)
      by (rewrite join_snoc, <- app_assoc; reflexivity).
    cbn [parseTextOrValue_loop]. run_with Runs_peek.
    destruct p as [c | nm | digits | x digits].
    + cbn [writePiece pieceValue app head]. cbn [pieceOk] in Hp.
      apply andb_true_iff in Hp as [H1 H2]. apply negb_true_iff in H1, H2.
      rewrite H1, H2. run_with Runs_consume. apply IH; [exact Hps | simpl in Hf; lia].
    + destruct (writePiece_head (Named nm)) as (x & tl & E & ->).
      rewrite E at 1. cbn [app head]. rewrite Hamp.
      change (jschar_eqb (chr "&") (chr "&")) with true. cbv iota.
      eapply Runs_bind; [apply (Runs_parseEntity_piece d); [exact Hp | discriminate]|].
      cbv beta. apply IH; [exact Hps | simpl in Hf; lia].
    + destruct (writePiece_head (Decimal digits)) as (x & tl & E & ->).
      rewrite E at 1. cbn [app head]. rewrite Hamp.
      change (jschar_eqb (chr "&") (chr "&")) with true. cbv iota.
      eapply Runs_bind; [apply (Runs_parseEntity_piece d); [exact Hp | discriminate]|].
      cbv beta. apply IH; [exact Hps | simpl in Hf; lia].
    + destruct (writePiece_head (Hexadecimal x digits)) as (y & tl & E & ->).
      rewrite E at 1. cbn [app head]. rewrite Hamp.
      change (jschar_eqb (chr "&") (chr "&")) with true. cbv iota.
      eapply Runs_bind; [apply (Runs_parseEntity_piece d); [exact Hp | discriminate]|].
      cbv beta. apply IH; [exact Hps | simpl in Hf; lia].
Qed.

Lemma Runs_parseTextOrValue_pieces (d : jschar) (ps : list Piece) (s : jsstring) :
  jschar_eqb (chr "&") d = false → forallb (pieceOk d) ps = true → stopsAt d s = true →
  Runs (parseTextOrValue d) (writeText ps ++ s) (decodedText ps) s.
Proof.
  intros Hamp Hps Hs. unfold parseTextOrValue.
  apply (Runs_fuel (fun fuel => parseTextOrValue_loop fuel d [])).
  apply (Runs_parseTextOrValue_loop_pieces d ps s Hamp Hps Hs _ []).
  rewrite length_app. pose proof (length_writeText ps). lia.
Qed.

Lemma decodedText_nonempty (d : jschar) (ps : list Piece) :
  forallb (pieceOk d) ps = true → ps ≠ [] → truthy (decodedText ps) = true.
Proof.
  destruct ps as [|p ps]; [congruence|]. intros Hps _.
  cbn [forallb] in Hps. apply andb_true_iff in Hps as [Hp _].
  unfold decodedText. cbn [flat_map].
  assert (H : ∃ x tl, pieceValue p = x :: tl).
  { destruct p as [c | nm | digits | x digits]; cbn [pieceValue pieceOk] in *.
    - eauto.
    - destruct (ENTITY_REFS nm) as [v|] eqn:E; [|discriminate].
      destruct (ENTITY_REFS_cases nm v E) as (_ & c & -> & _). eauto.
    - rewrite !andb_true_iff in Hp. destruct Hp as (_ & Hcp). apply N.leb_le in Hcp.
      unfold fromCodePoint.
      replace (1114111 <? parseInt 10 digits)%N with false
        by (symmetry; apply N.ltb_ge; exact Hcp).
      destruct (parseInt 10 digits <? 65536)%N; eauto.
    - rewrite !andb_true_iff in Hp. destruct Hp as (_ & Hcp). apply N.leb_le in Hcp.
      unfold fromCodePoint.
      replace (1114111 <? parseInt 16 digits)%N with false
        by (symmetry; apply N.ltb_ge; exact Hcp).
      destruct (parseInt 16 digits <? 65536)%N; eauto. }
  destruct H as (x & tl & ->). reflexivity.
Qed.

Lemma Runs_maybeExpectNotOneOf_some (charset : jsstring) (c : jschar) (s : jsstring) :
  includes charset c = false → Runs (maybeExpectNotOneOf charset) (c :: s) (Some c) s.
Proof.
  intros Hc. unfold maybeExpectNotOneOf. run_with Runs_peek. cbn [head].
  rewrite Hc. cbn [negb]. run_with Runs_consume. apply Runs_ret.
Qed.

Lemma Runs_maybeExpectNotOneOf_none (charset : jsstring) (s : jsstring) :
  headIn charset s = true → Runs (maybeExpectNotOneOf charset) s None s.
Proof.
  intros Hs. unfold maybeExpectNotOneOf. run_with Runs_peek.
  destruct s as [|x s]; cbn [head headIn] in *; [discriminate|].
  rewrite Hs. apply Runs_ret.
Qed.

Lemma Runs_skipUntil_loop (charset : jsstring) (v s : jsstring) :
  Forall (fun c => includes charset c = false) v → headIn charset s = true →
  ∀ fuel count, length v < fuel →
    Runs (skipUntil_loop fuel charset count) (v ++ s) (count + length v) s.
Proof.
  intros Hv Hs. induction Hv as [|c v Hc Hv IH]; intros fuel count Hf.
  - destruct fuel as [|fuel]; [simpl in Hf; lia|]. cbn [skipUntil_loop app length].
    run_with Runs_maybeExpectNotOneOf_none; [exact Hs|].
    rewrite Nat.add_0_r. apply Runs_ret.
  - destruct fuel as [|fuel]; [simpl in Hf; lia|]. cbn [skipUntil_loop].
    rewrite <- app_comm_cons.
    run_with Runs_maybeExpectNotOneOf_some; [exact Hc|].
    replace (count + length (c :: v)) with (S count + length v) by (simpl; lia).
    apply IH. simpl in Hf. lia.
Qed.

(** [skipUntil] skips the characters before the first one of the
    character set. *)
Lemma Runs_skipUntil (charset : jsstring) (v s : jsstring) :
  Forall (fun c => includes charset c = false) v → headIn charset s = true →
  Runs (skipUntil charset) (v ++ s) (length v) s.
Proof.
  intros Hv Hs. unfold skipUntil.
  apply (Runs_fuel (fun fuel => skipUntil_loop fuel charset 0)).
  apply (Runs_skipUntil_loop charset v s Hv Hs _ 0). rewrite length_app. lia.
Qed.

Lemma forallb_negb_Forall (f : jschar -> bool) (v : jsstring) :
  forallb (fun c => negb (f c)) v = true → Forall (fun c => f c = false) v.
Proof.
  intros H. apply forallb_Forall in H. eapply Forall_impl; [|exact H].
  cbv beta. intros c Hc. apply negb_true_iff. exact Hc.
Qed.

Lemma isSpace_Forall (s : jsstring) :
  isSpace s = true → Forall (fun c => includes WHITESPACE c = true) s.
Proof. apply forallb_Forall. Qed.

Lemma space_not_name (y : jschar) :
  includes WHITESPACE y = true →
  includes ALPHANUMERIC y = false ∧ jschar_eqb y (chr ":") = false
  ∧ jschar_eqb y (chr "/") = false ∧ jschar_eqb y (chr ">") = false
  ∧ jschar_eqb y (chr "=") = false.
Proof.
  unfold includes at 1. cbn [existsb WHITESPACE]. rewrite !orb_true_iff.
  intros [H | [H | [H | [H | H]]]]; try discriminate;
    apply jschar_eqb_eq in H; subst y; repeat split.
Qed.

Lemma space_head (sp s : jsstring) (y : jschar) (tl : jsstring) :
  isSpace sp = true → s = y :: tl →
  includes ALPHANUMERIC y = false → jschar_eqb y (chr ":") = false →
  ∃ z tl', sp ++ s = z :: tl'
           ∧ includes ALPHANUMERIC z = false ∧ jschar_eqb z (chr ":") = false.
Proof.
  intros Hsp -> H1 H2. destruct sp as [|z sp]; [eauto|].
  cbn [isSpace forallb] in Hsp. apply andb_true_iff in Hsp as [Hz _].
  destruct (space_not_name z Hz) as (? & ? & _). cbn [app]. eauto.
Qed.

Lemma Runs_skipWhile_space (sp s : jsstring) :
  isSpace sp = true → headIn WHITESPACE s = false →
  Runs (skipWhile WHITESPACE) (sp ++ s) (length sp) s.
Proof. intros Hsp Hs. apply Runs_skipWhile; [apply isSpace_Forall, Hsp | exact Hs]. Qed.

Lemma quote_facts (q : jschar) :
  includes QUOTE q = true →
  includes WHITESPACE q = false ∧ jschar_eqb (chr "&") q = false.
Proof. intros Hq. destruct (QUOTE_cases q Hq) as [-> | ->]; split; reflexivity. Qed.

(** The text behind a name in a tag cannot be taken for more of the
    name. *)
Lemma tag_tail_head (attrs : list AttrSource) (space : jsstring) (selfClosing : bool)
    (s : jsstring) :
  match attrs with a :: _ => truthy (as_lead a) | [] => true end = true →
  forallb attrOk attrs = true → isSpace space = true →
  ∃ y tl, flat_map writeAttr attrs ++ space ++ (if selfClosing then str "/>" else str ">") ++ s
          = y :: tl
          ∧ includes ALPHANUMERIC y = false ∧ jschar_eqb y (chr ":") = false.
Proof.
  intros Hlead Hattrs Hsp. destruct attrs as [|a attrs].
  - cbn [flat_map app].
    destruct selfClosing; (eapply space_head; [exact Hsp | reflexivity..]).
  - cbn [forallb] in Hattrs. apply andb_true_iff in Hattrs as [Ha _].
    unfold attrOk in Ha. rewrite !andb_true_iff in Ha.
    destruct Ha as (((((Hl & _) & _) & _) & _) & _).
    cbn [flat_map]. unfold writeAttr. destruct (as_lead a) as [|z lead]; [discriminate|].
    cbn [isSpace forallb] in Hl. apply andb_true_iff in Hl as [Hz _].
    destruct (space_not_name z Hz) as (? & ? & _). cbn [app]. eauto.
Qed.

(** The loop over the attributes reads the attributes as written, with
    their values decoded. *)
Lemma Runs_openingTag_loop_source (attrs : list AttrSource) (space : jsstring) :
  forallb attrOk attrs = true → isSpace space = true →
  ∀ fuel acc (selfClosing : bool) s, length attrs < fuel →
    Runs (openingTag_loop fuel acc)
         (flat_map writeAttr attrs ++ space
          ++ (if selfClosing then str "/>" else str ">") ++ s)
         (acc ++ map attrPair attrs, selfClosing) s.
Proof.
  intros Hattrs Hsp. induction attrs as [|a attrs IH]; intros fuel acc selfClosing s Hf.
  - destruct fuel as [|fuel]; [simpl in Hf; lia|].
    cbn [openingTag_loop flat_map map app]. rewrite app_nil_r.
    run_with Runs_skipWhile_space; [exact Hsp | destruct selfClosing; reflexivity |].
    destruct selfClosing; eval_str; cbn [app].
    + run_with Runs_skipIf_true. run_with Runs_expect. apply Runs_ret.
    + run_with Runs_skipIf_false; [reflexivity|].
      run_with Runs_skipIf_true. apply Runs_ret.
  - destruct fuel as [|fuel]; [simpl in Hf; lia|].
    cbn [forallb] in Hattrs. apply andb_true_iff in Hattrs as [Ha Hattrs].
    unfold attrOk in Ha. rewrite !andb_true_iff in Ha.
    destruct Ha as (((((Hl & Hn) & Hb) & Haf) & Hq) & Hv).
    destruct (wfName_head (as_name a) Hn) as (x & tl & Ex & Hx).
    destruct (quote_facts (as_quote a) Hq) as [Hqw Hqa].
    cbn [openingTag_loop flat_map]. unfold writeAttr at 1.
    rewrite <- !app_assoc.
    run_with Runs_skipWhile_space.
    { exact Hl. }
    { rewrite Ex. cbn [app]. eapply headIn_other; [exact Hx | reflexivity]. }
    run_with Runs_skipIf_false.
    { rewrite Ex. cbn [app]. eapply headIs_other; [exact Hx | reflexivity]. }
    run_with Runs_skipIf_false.
    { rewrite Ex. cbn [app]. eapply headIs_other; [exact Hx | reflexivity]. }
    eapply Runs_bind.
    { apply Runs_parseName; [exact Hn | |].
      - destruct (space_head (as_before a) (str "=" ++ as_after a ++ [as_quote a]
                    ++ writeText (as_value a) ++ [as_quote a]
                    ++ flat_map writeAttr attrs ++ space
                    ++ (if selfClosing then str "/>" else str ">") ++ s) (chr "=") _ Hb
                   eq_refl eq_refl eq_refl) as (z & tl' & E & Hz & _).
        rewrite E. exact Hz.
      - destruct (space_head (as_before a) (str "=" ++ as_after a ++ [as_quote a]
                    ++ writeText (as_value a) ++ [as_quote a]
                    ++ flat_map writeAttr attrs ++ space
                    ++ (if selfClosing then str "/>" else str ">") ++ s) (chr "=") _ Hb
                   eq_refl eq_refl eq_refl) as (z & tl' & E & _ & Hz).
        rewrite E. exact Hz. }
    cbv beta.
    run_with Runs_skipWhile_space; [exact Hb | reflexivity |].
    change (str "=") with [chr "="]. cbn [app].
    run_with Runs_expect.
    run_with Runs_skipWhile_space; [exact Haf | cbn [app headIn]; exact Hqw |].
    cbn [app].
    run_with Runs_expectOneOf; [exact Hq|].
    eapply Runs_bind.
    { apply Runs_parseTextOrValue_pieces; [exact Hqa | exact Hv |].
      cbn [stopsAt]. apply jschar_eqb_refl. }
    cbv beta. run_with Runs_expect.
    replace (acc ++ map attrPair (a :: attrs))
      with ((acc ++ [(as_name a, decodedText (as_value a))]) ++ map attrPair attrs)
      by (rewrite <- app_assoc; reflexivity).
    apply IH; [exact Hattrs | simpl in Hf; lia].
Qed.

Lemma length_flat_map_writeAttr (attrs : list AttrSource) :
  forallb attrOk attrs = true → length attrs ≤ length (flat_map writeAttr attrs).
Proof.
  induction attrs as [|a attrs IH]; intros H; [simpl; lia|].
  cbn [forallb] in H. apply andb_true_iff in H as [Ha H].
  cbn [flat_map]. rewrite length_app. specialize (IH H).
  set (m := length (flat_map writeAttr attrs)) in *.
  unfold writeAttr. rewrite !length_app. change (length (str "=")) with 1.
  cbn [length]. lia.
Qed.

Lemma Runs_openingTag_source (attrs : list AttrSource) (space : jsstring)
    (selfClosing : bool) (s : jsstring) :
  forallb attrOk attrs = true → isSpace space = true →
  Runs openingTag
       (flat_map writeAttr attrs ++ space
        ++ (if selfClosing then str "/>" else str ">") ++ s)
       (map attrPair attrs, selfClosing) s.
Proof.
  intros Hattrs Hsp. unfold openingTag.
  apply (Runs_fuel (fun fuel => openingTag_loop fuel [])).
  apply (Runs_openingTag_loop_source attrs space Hattrs Hsp _ []).
  rewrite !length_app. pose proof (length_flat_map_writeAttr attrs Hattrs). lia.
Qed.

(** ** The steps of the content loop *)

Lemma Runs_emptyText (s : jsstring) :
  stopsAt (chr "<") s = true → Runs (parseTextOrValue (chr "<")) s [] s.
Proof. intros Hs. apply (Runs_parseTextOrValue_plain _ [] s); [constructor | exact Hs]. Qed.

(** Character data becomes a text child. *)
Lemma Reaches_content_text (fuel : nat) (parent : XmlElement) (full t rest : jsstring) :
  Runs (parseTextOrValue (chr "<")) full t rest → truthy t = true →
  Reaches (parseContent (S fuel) parent) full
    (parseContent fuel (XmlElement.appendChild parent (Text t))) rest.
Proof.
  intros Hrun Ht. cbn [parseContent].
  eapply Reaches_bind; [exact Hrun | tracks |]. cbv beta. rewrite Ht. apply Reaches_refl.
Qed.

(** [<!body>] is skipped. *)
Lemma Reaches_content_comment (fuel : nat) (parent : XmlElement) (body rest : jsstring) :
  forallb (fun c => negb (jschar_eqb c (chr ">"))) body = true →
  Reaches (parseContent (S fuel) parent) (str "<!" ++ body ++ str ">" ++ rest)
    (parseContent fuel parent) rest.
Proof.
  intros Hbody. eval_str. cbn [app parseContent].
  reach_with Runs_emptyText; [reflexivity|]. cbn [truthy].
  reach_with Runs_isEnd. cbv iota.
  reach_with Runs_expect. reach_with Runs_skipIf_true.
  eapply Reaches_bind; [apply (Runs_skipUntil [62%N] body) | tracks |].
  { apply forallb_Forall in Hbody. eapply Forall_impl; [|exact Hbody].
    cbv beta. intros c Hc. unfold includes. cbn [existsb]. rewrite orb_false_r.
    apply negb_true_iff. exact Hc. }
  { reflexivity. }
  cbv beta. reach_with Runs_expect. apply Reaches_refl.
Qed.

Lemma Runs_skipInstruction_loop (quoted : list (jsstring * jsstring)) (last s : jsstring) :
  forallb quotedOk quoted = true → plainOk last = true →
  ∀ fuel, length quoted < fuel →
    Runs (skipInstruction_loop fuel)
         (flat_map writeQuoted quoted ++ last ++ str "?>" ++ s) tt s.
Proof.
  intros Hq Hlast. induction quoted as [|[plain q] quoted IH]; intros fuel Hf.
  - destruct fuel as [|fuel]; [simpl in Hf; lia|].
    cbn [skipInstruction_loop flat_map app]. eval_str. cbn [app].
    eapply Runs_bind.
    { apply (Runs_skipUntil [34%N; 63%N] last); [|reflexivity].
      apply forallb_negb_Forall. exact Hlast. }
    cbv beta. run_with Runs_skipIf_false; [reflexivity|].
    run_with Runs_expect. run_with Runs_expect. apply Runs_ret.
  - destruct fuel as [|fuel]; [simpl in Hf; lia|].
    cbn [forallb] in Hq. apply andb_true_iff in Hq as [Hpq Hq].
    unfold quotedOk in Hpq. cbn [fst snd] in Hpq. apply andb_true_iff in Hpq as [Hp Hq0].
    cbn [skipInstruction_loop flat_map]. unfold writeQuoted at 1. cbn [fst snd].
    rewrite <- !app_assoc. eval_str. cbn [app].
    eapply Runs_bind.
    { apply (Runs_skipUntil [34%N; 63%N] plain); [|reflexivity].
      apply forallb_negb_Forall. exact Hp. }
    cbv beta. run_with Runs_skipIf_true.
    eapply Runs_bind.
    { apply (Runs_skipUntil [34%N] q); [|reflexivity].
      apply forallb_Forall in Hq0. eapply Forall_impl; [|exact Hq0].
      cbv beta. intros c Hc. unfold includes. cbn [existsb]. rewrite orb_false_r.
      apply negb_true_iff. exact Hc. }
    cbv beta. run_with Runs_expect.
    specialize (IH Hq fuel). revert IH. eval_str. cbn [app]. intros IH.
    apply IH. simpl in Hf. lia.
Qed.

(** A processing instruction is skipped. *)
Lemma Reaches_content_instruction (fuel : nat) (parent : XmlElement)
    (quoted : list (jsstring * jsstring)) (last rest : jsstring) :
  forallb quotedOk quoted = true → plainOk last = true →
  Reaches (parseContent (S fuel) parent)
    (str "<?" ++ flat_map writeQuoted quoted ++ last ++ str "?>" ++ rest)
    (parseContent fuel parent) rest.
Proof.
  intros Hq Hlast.
  assert (Hskip : Runs skipInstruction
                       (flat_map writeQuoted quoted ++ last ++ str "?>" ++ rest) tt rest).
  { unfold skipInstruction. apply (Runs_fuel skipInstruction_loop).
    apply Runs_skipInstruction_loop; [exact Hq | exact Hlast|].
    rewrite !length_app.
    assert (length quoted ≤ length (flat_map writeQuoted quoted)).
    { clear. induction quoted as [|[p q] quoted IH]; [simpl; lia|].
      cbn [flat_map]. rewrite length_app. unfold writeQuoted at 1.
      rewrite !length_app. cbn [length]. lia. }
    lia. }
  revert Hskip. generalize (flat_map writeQuoted quoted ++ last ++ str "?>" ++ rest).
  intros body Hskip. eval_str. cbn [app parseContent].
  reach_with Runs_emptyText; [reflexivity|]. cbn [truthy].
  reach_with Runs_isEnd. cbv iota.
  reach_with Runs_expect.
  reach_with Runs_skipIf_false; [reflexivity|].
  reach_with Runs_skipIf_true.
  eapply Reaches_bind; [exact Hskip | tracks |]. cbv beta. apply Reaches_refl.
Qed.

(** An opening tag: the element is built from the name and the
    attributes; unless the tag is self-closing its content is read, and
    the element is appended to the parent. *)
Lemma Reaches_content_open (fuel : nat) (parent : XmlElement) (n : XmlName)
    (attrs : list AttrSource) (space : jsstring) (selfClosing : bool) (rest : jsstring) :
  wfName n = true → forallb attrOk attrs = true →
  match attrs with a :: _ => truthy (as_lead a) | [] => true end = true →
  isSpace space = true →
  Reaches (parseContent (S fuel) parent)
    (str "<" ++ XmlName.toString n ++ flat_map writeAttr attrs ++ space
     ++ (if selfClosing then str "/>" else str ">") ++ rest)
    (let* elem' := (if negb selfClosing
                    then parseContent fuel (mkXmlElement n (map attrPair attrs) [])
                    else ret (mkXmlElement n (map attrPair attrs) [])) in
     parseContent fuel (XmlElement.appendChild parent (Elem elem')))
    rest.
Proof.
  intros Hn Hattrs Hlead Hsp.
  destruct (wfName_head n Hn) as (x & tl & Ex & Hx).
  destruct (tag_tail_head attrs space selfClosing rest Hlead Hattrs Hsp)
    as (y & tl' & Ey & Hy1 & Hy2).
  change (str "<") with [chr "<"]. cbn [app parseContent].
  reach_with Runs_emptyText; [reflexivity|]. cbn [truthy].
  reach_with Runs_isEnd. cbv iota.
  reach_with Runs_expect.
  reach_with Runs_skipIf_false.
  { rewrite Ex. cbn [app]. eapply headIs_other; [exact Hx | reflexivity]. }
  reach_with Runs_skipIf_false.
  { rewrite Ex. cbn [app]. eapply headIs_other; [exact Hx | reflexivity]. }
  reach_with Runs_skipIf_false.
  { rewrite Ex. cbn [app]. eapply headIs_other; [exact Hx | reflexivity]. }
  eapply Reaches_bind; [|tracks|].
  { apply Runs_parseName; [exact Hn | rewrite Ey; exact Hy1 | rewrite Ey; exact Hy2]. }
  cbv beta iota.
  eapply Reaches_bind; [apply Runs_openingTag_source; assumption | tracks |].
  cbv beta iota. apply Reaches_refl.
Qed.

(** The closing tag of the parent ends the loop. *)
Lemma Runs_content_close (fuel : nat) (parent : XmlElement) (closeSpace s : jsstring) :
  wfName (ename parent) = true → isSpace closeSpace = true →
  Runs (parseContent (S fuel) parent) (writeClosingTag (ename parent) closeSpace ++ s)
       parent s.
Proof.
  intros Hp Hsp. unfold writeClosingTag.
  destruct (space_head closeSpace (str ">" ++ s) (chr ">") s Hsp eq_refl eq_refl eq_refl)
    as (z & tl & Ez & Hz1 & Hz2).
  eval_str. cbn [app parseContent]. rewrite <- !app_assoc. cbn [app].
  run_with Runs_emptyText; [reflexivity|]. cbn [truthy].
  run_with Runs_isEnd. cbv iota.
  run_with Runs_expect.
  run_with Runs_skipIf_false; [reflexivity|].
  run_with Runs_skipIf_false; [reflexivity|].
  run_with Runs_skipIf_true.
  eapply Runs_bind.
  { apply Runs_parseName; [exact Hp | |].
    - revert Ez. eval_str. cbn [app]. intros ->. exact Hz1.
    - revert Ez. eval_str. cbn [app]. intros ->. exact Hz2. }
  cbv beta.
  assert (Ht : truthy (name (ename parent)) = true).
  { unfold wfName, isNameStr in Hp.
    apply andb_true_iff in Hp as [_ [Ht _]%andb_true_iff]. exact Ht. }
  rewrite Ht, XmlName_equals_refl. cbn [negb].
  run_with Runs_skipWhile_space; [exact Hsp | reflexivity |].
  run_with Runs_expect. apply Runs_ret.
Qed.

(** ** The content loop on a sequence of items *)

Lemma Item_nested_ind (Q : Item -> Prop) :
  (∀ ps, Q (IText ps)) → (∀ body, Q (IComment body)) →
  (∀ quoted last, Q (IInstruction quoted last)) →
  (∀ n attrs space selfClosing content closeSpace,
      Forall Q content → Q (IElement n attrs space selfClosing content closeSpace)) →
  ∀ i, Q i.
Proof.
  intros Ht Hc Hi He. fix IH 1. intros [ps | body | quoted last | n a sp sc content cl].
  - apply Ht.
  - apply Hc.
  - apply Hi.
  - apply He. induction content as [|x content IHc]; constructor; [apply IH | exact IHc].
Qed.

Lemma writeItem_markup (i : Item) :
  match i with IText _ => False | _ => True end →
  ∃ tl, writeItem i = chr "<" :: tl.
Proof.
  destruct i; intros H; [destruct H | | |]; cbn [writeItem]; eexists; reflexivity.
Qed.

Lemma writeItem_nonempty (i : Item) : itemOk i = true → 1 ≤ length (writeItem i).
Proof.
  destruct i as [ps | body | quoted last | n a sp sc content cl]; cbn [writeItem itemOk]; intros H.
  - destruct ps as [|p ps]; [discriminate|].
    pose proof (length_writeText (p :: ps)). simpl in *. lia.
  - simpl. lia.
  - simpl. lia.
  - simpl. lia.
Qed.

Lemma separated_tail (i : Item) (items : list Item) :
  separated (i :: items) = true → separated items = true.
Proof.
  cbn [separated]. destruct i; try (intros H; exact H).
  destruct items as [|[] items]; try (intros H; exact H). discriminate.
Qed.

Lemma text_stops (ps : list Piece) (items : list Item) (t s : jsstring) :
  separated (IText ps :: items) = true → stopsAt (chr "<") (t ++ s) = true →
  stopsAt (chr "<") (writeItems items ++ t ++ s) = true.
Proof.
  intros Hsep Hs. destruct items as [|i items]; [exact Hs|].
  unfold writeItems. cbn [flat_map]. rewrite <- app_assoc.
  destruct (writeItem_markup i) as (tl & ->); [|reflexivity].
  destruct i; [discriminate | exact I..].
Qed.

Lemma Reaches_trans {A} (m k k' : P A) s s1 s2 :
  Reaches m s k s1 → Reaches k s1 k' s2 → Reaches m s k' s2.
Proof.
  intros H1 H2 l Hs. destruct (H1 l Hs) as (l1 & Hs1 & Ht1 & E1).
  destruct (H2 l1 Hs1) as (l2 & Hs2 & Ht2 & E2).
  exists l2. split; [exact Hs2|]. split; [|congruence].
  intros Ht. destruct (Ht1 Ht) as [Ht1' Hsrc1]. destruct (Ht2 Ht1') as [Ht2' Hsrc2].
  split; [exact Ht2' | congruence].
Qed.

Lemma items_loop (items : list Item) : Forall contentReach items → itemsReach items.
Proof.
  induction 1 as [|i items Hi Hitems IH]; intros Hok fuel parent rest Hstop Hf.
  - change (writeItems []) with (@nil N) in *. cbn [app] in *.
    change (itemsNodes []) with (@nil XmlNode). rewrite addChildren_nil.
    exists fuel. split; [exact Hf | apply Reaches_refl].
  - unfold itemsOk in Hok. cbn [forallb] in Hok.
    apply andb_true_iff in Hok as [[Hi_ok Hitems_ok]%andb_true_iff Hsep].
    pose proof (separated_tail _ _ Hsep) as Hsep'.
    assert (Hok' : itemsOk items = true) by (unfold itemsOk; rewrite Hitems_ok, Hsep'; reflexivity).
    pose proof (writeItem_nonempty i Hi_ok) as Hlen.
    destruct fuel as [|fuel]; [lia|].
    unfold writeItems, itemsNodes in *. cbn [flat_map] in *.
    rewrite <- app_assoc in *. rewrite length_app in Hf.
    assert (Hnext : ∀ parent',
               ∃ fuel', length rest < fuel'
                        ∧ Reaches (parseContent fuel parent')
                            (flat_map writeItem items ++ rest)
                            (parseContent fuel' (addChildren parent' (flat_map itemNodes items)))
                            rest).
    { intros parent'. apply IH; [exact Hok' | exact Hstop | unfold writeItems; lia]. }
    destruct i as [ps | body | quoted last | n attrs space sc content cl];
      cbn [writeItem itemNodes itemOk contentReach] in *.
    + (* character data *)
      apply andb_true_iff in Hi_ok as [Hne Hps].
      destruct (Hnext (XmlElement.appendChild parent (Text (decodedText ps))))
        as (fuel' & Hfuel' & Hreach).
      exists fuel'. split; [exact Hfuel'|].
      rewrite addChildren_appendChild in Hreach.
      eapply Reaches_trans; [|exact Hreach].
      apply Reaches_content_text.
      * apply Runs_parseTextOrValue_pieces; [reflexivity | exact Hps|].
        change (flat_map writeItem items) with (writeItems items).
        apply (text_stops ps items [] rest Hsep Hstop).
      * apply (decodedText_nonempty (chr "<")); [exact Hps|].
        destruct ps; [discriminate | discriminate].
    + (* a comment or declaration *)
      destruct (Hnext parent) as (fuel' & Hfuel' & Hreach).
      exists fuel'. split; [exact Hfuel'|].
      rewrite <- !app_assoc.
      eapply Reaches_trans; [apply Reaches_content_comment; exact Hi_ok|].
      cbn [app]. exact Hreach.
    + (* a processing instruction *)
      apply andb_true_iff in Hi_ok as [Hq Hl].
      destruct (Hnext parent) as (fuel' & Hfuel' & Hreach).
      exists fuel'. split; [exact Hfuel'|].
      rewrite <- !app_assoc.
      eapply Reaches_trans; [apply Reaches_content_instruction; assumption|].
      cbn [app]. exact Hreach.
    + (* an element *)
      rewrite !andb_true_iff in Hi_ok.
      destruct Hi_ok as ((((((Hn & Hattrs) & Hlead) & Hsp) & Hend) & Hcontent) & Hcsep).
      destruct (Hnext (XmlElement.appendChild parent
                         (Elem (mkXmlElement n (map attrPair attrs)
                                  (flat_map itemNodes content)))))
        as (fuel' & Hfuel' & Hreach).
      exists fuel'. split; [exact Hfuel'|].
      rewrite addChildren_appendChild in Hreach.
      destruct sc.
      * destruct content as [|c0 content]; [|discriminate].
        rewrite <- !app_assoc.
        eapply Reaches_trans;
          [apply (Reaches_content_open fuel parent n attrs space true); assumption|].
        cbn [negb flat_map] in *.
        eapply Reaches_bind; [apply Runs_ret | tracks | exact Hreach].
      * rewrite <- !app_assoc.
        eapply Reaches_trans;
          [apply (Reaches_content_open fuel parent n attrs space false); assumption|].
        cbn [negb].
        eapply Reaches_bind; [|apply Tracks_parseContent | exact Hreach].
        destruct (Hi (eq_trans (f_equal2 andb Hcontent Hcsep) eq_refl) fuel
                    (mkXmlElement n (map attrPair attrs) [])
                    (writeClosingTag n cl ++ flat_map writeItem items ++ rest))
          as (f1 & Hf1 & Hinner).
        -- reflexivity.
        -- revert Hf. rewrite !length_app. change (length (str "<")) with 1.
           unfold writeItems. lia.
        -- eapply Reaches_Runs; [exact Hinner|].
           destruct f1 as [|f1]; [lia|].
           apply (Runs_content_close f1
                    (addChildren (mkXmlElement n (map attrPair attrs) [])
                       (itemsNodes content))); [exact Hn | exact Hend].
Qed.

Lemma items_reach (items : list Item) : itemsReach items.
Proof.
  apply items_loop. induction items as [|i items IH]; constructor; [|exact IH].
  clear. induction i as [ps | body | quoted last | n a sp sc content cl Hc]
    using Item_nested_ind; try exact I.
  cbn [contentReach]. apply items_loop, Hc.
Qed.

Lemma parseXml_items (items : list Item) :
  itemsOk items = true → parseXml (writeItems items) = chooseRoot (itemsNodes items).
Proof.
  intros Hok.
  rewrite (parseXml_of_run _ (addChildren (mkXmlElement (mkXmlName [] []) [] [])
                                (itemsNodes items))); [reflexivity|].
  destruct (items_reach items Hok (S (length (writeItems items)))
                (mkXmlElement (mkXmlName [] []) [] []) []) as (fuel' & Hfuel' & H).
  - reflexivity.
  - rewrite app_nil_r. lia.
  - rewrite app_nil_r in H. eapply Reaches_Runs; [exact H|].
    destruct fuel' as [|fuel']; [simpl in Hfuel'; lia|]. apply Runs_parseContent_end.
Qed.

(** The parser reads what is written.  A document written item by item
    (character data with the five named references and numeric
    references, comments or declarations, processing instructions, and
    elements with attributes in either kind of quotes, white space inside
    the tags, self-closing or with content and a closing tag) is parsed
    into the nodes the items stand for: names as written, attribute values
    and character data decoded, comments, declarations and processing
    instructions dropped; [parseXml] then returns the only element among
    the top-level nodes, as [chooseRoot] says. *)
Theorem parseXml_written (items : list Item) :
  itemsOk items = true → parseXml (writeItems items) = chooseRoot (itemsNodes items).
Proof. exact (parseXml_items items). Qed.

Lemma parseXml_written_witness :
  parseXml test_document
  = chooseRoot
      [Text ([LF] ++ str "    ");
       Elem (mkXmlElement (mkXmlName [] (str "root"))
               [(mkXmlName [] (str "a"), str "&");
                (mkXmlName (str "xs") (str "b"), [56319; 57343]%N)]
               [Text (str "<");
                Elem (mkXmlElement (mkXmlName (str "xs") (str "abc")) [] []);
                Text ([LF] ++ str "    ")]);
       Text ([LF] ++ str "  ")].
Proof. apply (parseXml_written test_items). vm_compute. reflexivity. Defined.

(* ===================================================================== *)
(** * The root element                                                     *)
(* ===================================================================== *)

Lemma blankTexts_cons (c : XmlNode) (cs : list XmlNode) :
  blankTexts (c :: cs) ↔
  match c with Text t => truthy (trim t) = false | Elem _ => True end ∧ blankTexts cs.
Proof.
  unfold blankTexts. split.
  - intros H. split.
    + destruct c as [t | e]; [apply H; left; reflexivity | exact I].
    + intros t Ht. apply H. right. exact Ht.
  - intros [Hc Hcs] t [-> | Ht]; [exact Hc | apply Hcs, Ht].
Qed.

Lemma selectRoot_blank (cs : list XmlNode) : ∀ root,
  blankTexts cs →
  selectRoot cs root =
  match root, elementsAmong cs with
  | _, [] => Ok root
  | None, [r] => Ok (Some r)
  | _, _ => Throw multipleRootsError
  end.
Proof.
  induction cs as [|[t | e] cs IH]; intros root Hb.
  - destruct root; reflexivity.
  - apply blankTexts_cons in Hb as [Ht Hb]. cbn [selectRoot]. rewrite Ht.
    apply IH, Hb.
  - apply blankTexts_cons in Hb as [_ Hb]. cbn [selectRoot elementsAmong flat_map app].
    destruct root as [r0|]; [reflexivity|].
    rewrite (IH (Some e) Hb). fold (elementsAmong cs).
    destruct (elementsAmong cs); reflexivity.
Qed.

Lemma selectRoot_text (pre : list XmlNode) (t : jsstring) (post : list XmlNode) : ∀ root,
  blankTexts pre → truthy (trim t) = true →
  length (elementsAmong pre) + (match root with Some _ => 1 | None => 0 end) ≤ 1 →
  selectRoot (pre ++ Text t :: post) root = Throw topLevelTextError.
Proof.
  induction pre as [|[t' | e] pre IH]; intros root Hb Ht Hlen.
  - cbn [app selectRoot]. rewrite Ht. reflexivity.
  - apply blankTexts_cons in Hb as [Ht' Hb]. cbn [app selectRoot]. rewrite Ht'.
    apply IH; assumption.
  - apply blankTexts_cons in Hb as [_ Hb]. cbn [app selectRoot].
    cbn [elementsAmong flat_map app length] in Hlen. fold (elementsAmong pre) in Hlen.
    destruct root as [r0|]; [lia|].
    apply IH; [exact Hb | exact Ht | lia].
Qed.

Lemma selectRoot_Ok (cs : list XmlNode) : ∀ root x,
  selectRoot cs root = Ok x → blankTexts cs.
Proof.
  induction cs as [|[t | e] cs IH]; intros root x H.
  - intros t [].
  - cbn [selectRoot] in H. destruct (truthy (trim t)) eqn:Ht; [discriminate|].
    apply blankTexts_cons. split; [exact Ht | eapply IH, H].
  - cbn [selectRoot] in H. destruct root; [discriminate|].
    apply blankTexts_cons. split; [exact I | eapply IH, H].
Qed.

Lemma chooseRoot_Ok (cs : list XmlNode) (r : XmlElement) :
  chooseRoot cs = Ok r ↔ elementsAmong cs = [r] ∧ blankTexts cs.
Proof.
  unfold chooseRoot. split.
  - intros H. destruct (selectRoot cs None) as [[x|] | e |] eqn:E; try discriminate.
    injection H as ->. pose proof (selectRoot_Ok _ _ _ E) as Hb.
    rewrite (selectRoot_blank cs None Hb) in E.
    destruct (elementsAmong cs) as [|r1 [|r2 rs]]; [discriminate | | discriminate].
    injection E as ->. split; [reflexivity | exact Hb].
  - intros [He Hb]. rewrite (selectRoot_blank cs None Hb), He. reflexivity.
Qed.

(** A written document is parsed into a tree exactly when, at the top
    level, it has one element and its character data is blank; the tree
    is that element.  Without an element it is rejected for having no
    root; with two elements or more for having several; with character
    data that is not blank for that, when it stands before the second
    element.  These three errors all carry the position [1:0]. *)
Theorem root_selection (items : list Item) :
  itemsOk items = true →
  (∀ r, parseXml (writeItems items) = Ok r
        ↔ elementsAmong (itemsNodes items) = [r] ∧ blankTexts (itemsNodes items))
  ∧ (blankTexts (itemsNodes items) → elementsAmong (itemsNodes items) = [] →
     parseXml (writeItems items) = Throw noRootError)
  ∧ (blankTexts (itemsNodes items) → 2 ≤ length (elementsAmong (itemsNodes items)) →
     parseXml (writeItems items) = Throw multipleRootsError)
  ∧ (∀ pre t post,
        itemsNodes items = pre ++ Text t :: post →
        blankTexts pre → truthy (trim t) = true → length (elementsAmong pre) ≤ 1 →
        parseXml (writeItems items) = Throw topLevelTextError).
Proof.
  intros Hok. rewrite (parseXml_items items Hok).
  split; [intros r; apply chooseRoot_Ok|]. split; [|split].
  - intros Hb He. unfold chooseRoot. rewrite (selectRoot_blank _ None Hb), He. reflexivity.
  - intros Hb He. unfold chooseRoot. rewrite (selectRoot_blank _ None Hb).
    destruct (elementsAmong (itemsNodes items)) as [|r1 [|r2 rs]];
      [simpl in He; lia | simpl in He; lia | reflexivity].
  - intros pre t post E Hb Ht Hlen. unfold chooseRoot. rewrite E.
    rewrite (selectRoot_text pre t post None Hb Ht); [reflexivity | lia].
Qed.

Lemma root_selection_witness :
  parseXml (writeItems [IComment (str "DOCTYPE x");
                        IElement (mkXmlName [] (str "a")) [] [] true [] [];
                        IText [Raw LF]])
  = Ok (mkXmlElement (mkXmlName [] (str "a")) [] [])
  ∧ parseXml (writeItems [IText [Raw SPACE]; IComment (str "-- no root --")])
    = Throw noRootError
  ∧ parseXml (writeItems [IElement (mkXmlName [] (str "a")) [] [] true [] [];
                          IElement (mkXmlName [] (str "b")) [] [] true [] []])
    = Throw multipleRootsError
  ∧ parseXml (writeItems [IElement (mkXmlName [] (str "a")) [] [] true [] [];
                          IText [Raw (chr "x")]])
    = Throw topLevelTextError.
Proof.
  assert (Hblank : ∀ cs, forallb (fun c => match c with
                                           | Text t => negb (truthy (trim t))
                                           | Elem _ => true
                                           end) cs = true → blankTexts cs).
  { intros cs H t Ht. rewrite forallb_forall in H. specialize (H _ Ht).
    apply negb_true_iff in H. exact H. }
  split; [|split; [|split]].
  - apply root_selection; [reflexivity|]. split; [reflexivity|].
    apply Hblank. reflexivity.
  - apply root_selection; [reflexivity | | reflexivity]. apply Hblank. reflexivity.
  - apply root_selection; [reflexivity | | vm_compute; lia]. apply Hblank. reflexivity.
  - eapply (proj2 (proj2 (proj2 (root_selection
                                   [IElement (mkXmlName [] (str "a")) [] [] true [] [];
                                    IText [Raw (chr "x")]] eq_refl)))
              [Elem (mkXmlElement (mkXmlName [] (str "a")) [] [])] (str "x") []).
    + reflexivity.
    + apply Hblank. reflexivity.
    + reflexivity.
    + vm_compute. lia.
Defined.

(* ===================================================================== *)
(** * Documents that end early, and closing tags that do not match         *)
(* ===================================================================== *)

Lemma FailsAt_skipUntil_loop_end (charset : jsstring) (v : jsstring) :
  Forall (fun c => includes charset c = false) v →
  ∀ fuel count, length v < fuel →
    FailsAt (skipUntil_loop fuel charset count) v (str "Unexpected end") [].
Proof.
  intros Hv. induction Hv as [|c v Hc Hv IH]; intros fuel count Hf.
  - destruct fuel as [|fuel]; [simpl in Hf; lia|]. cbn [skipUntil_loop].
    apply FailsAt_bind_l. unfold maybeExpectNotOneOf.
    fail_with Runs_peek. cbn [head]. apply FailsAt_bind_l, FailsAt_consume_end.
  - destruct fuel as [|fuel]; [simpl in Hf; lia|]. cbn [skipUntil_loop].
    fail_with Runs_maybeExpectNotOneOf_some; [exact Hc|].
    apply IH. simpl in Hf. lia.
Qed.

(** At the end of the input [skipUntil] fails: what it looks for never
    came. *)
Lemma FailsAt_skipUntil_end (charset : jsstring) (v : jsstring) :
  Forall (fun c => includes charset c = false) v →
  FailsAt (skipUntil charset) v (str "Unexpected end") [].
Proof.
  intros Hv. unfold skipUntil.
  apply (FailsAt_fuel (fun fuel => skipUntil_loop fuel charset 0)).
  apply FailsAt_skipUntil_loop_end; [exact Hv | lia].
Qed.

Lemma FailsAt_parseName_none (s : jsstring) :
  headIn ALPHANUMERIC s = false →
  FailsAt parseName s (str "Expected element/attribute name") s.
Proof.
  intros Hs l Ht Hl. exists l.
  split; [exact Ht|]. split; [reflexivity|]. split; [exact Hl|].
  unfold parseName, bind, expectOneOrMoreOf, bind. cbn [expectOneOrMoreOf_loop].
  unfold bind, maybeExpectOneOf, bind, peek. rewrite lookup_next, Hl.
  destruct s as [|x s]; cbn [head headIn] in *; [reflexivity|].
  rewrite Hs. reflexivity.
Qed.

(** ** Failures of the content loop *)

Lemma FailsAt_content_comment_end (fuel : nat) (parent : XmlElement) (body : jsstring) :
  forallb (fun c => negb (jschar_eqb c (chr ">"))) body = true →
  FailsAt (parseContent (S fuel) parent) (str "<!" ++ body) (str "Unexpected end") [].
Proof.
  intros Hbody. eval_str. cbn [app parseContent].
  fail_with Runs_emptyText; [reflexivity|]. cbn [truthy].
  fail_with Runs_isEnd. cbv iota.
  fail_with Runs_expect. fail_with Runs_skipIf_true.
  apply FailsAt_bind_l. apply (FailsAt_skipUntil_end [62%N]).
  apply forallb_Forall in Hbody. eapply Forall_impl; [|exact Hbody].
  cbv beta. intros c Hc. unfold includes. cbn [existsb]. rewrite orb_false_r.
  apply negb_true_iff. exact Hc.
Qed.

Lemma FailsAt_content_instruction_end (fuel : nat) (parent : XmlElement) (body : jsstring) :
  plainOk body = true →
  FailsAt (parseContent (S fuel) parent) (str "<?" ++ body) (str "Unexpected end") [].
Proof.
  intros Hbody. eval_str. cbn [app parseContent].
  fail_with Runs_emptyText; [reflexivity|]. cbn [truthy].
  fail_with Runs_isEnd. cbv iota.
  fail_with Runs_expect.
  fail_with Runs_skipIf_false; [destruct body; reflexivity|].
  fail_with Runs_skipIf_true.
  apply FailsAt_bind_l. unfold skipInstruction.
  apply (FailsAt_fuel skipInstruction_loop). cbn [skipInstruction_loop].
  apply FailsAt_bind_l. apply (FailsAt_skipUntil_end [34%N; 63%N]).
  apply forallb_negb_Forall. exact Hbody.
Qed.

Lemma nameEnds_cons_space (z : jschar) (s : jsstring) :
  includes WHITESPACE z = true → nameEnds (z :: s) = true.
Proof.
  intros Hz. destruct (space_not_name z Hz) as (H1 & H2 & _).
  unfold nameEnds. cbn [headIn headIs]. rewrite H1, H2. reflexivity.
Qed.

Lemma nameEnds_space (sp t : jsstring) :
  isSpace sp = true → nameEnds t = true → nameEnds (sp ++ t) = true.
Proof.
  intros Hsp Ht. destruct sp as [|z sp]; [exact Ht|].
  cbn [isSpace forallb] in Hsp. apply andb_true_iff in Hsp as [Hz _].
  apply nameEnds_cons_space, Hz.
Qed.

Lemma nameEnds_lead (lead t : jsstring) :
  isSpace lead = true → truthy lead = true → nameEnds (lead ++ t) = true.
Proof.
  intros Hsp Hne. destruct lead as [|z lead]; [discriminate|].
  cbn [isSpace forallb] in Hsp. apply andb_true_iff in Hsp as [Hz _].
  apply nameEnds_cons_space, Hz.
Qed.

Lemma nameEnds_attrs (attrs : list AttrSource) (t : jsstring) :
  forallb attrOk attrs = true →
  match attrs with a :: _ => truthy (as_lead a) | [] => true end = true →
  (attrs = [] → nameEnds t = true) → nameEnds (flat_map writeAttr attrs ++ t) = true.
Proof.
  intros Hattrs Hlead Ht. destruct attrs as [|a attrs]; [exact (Ht eq_refl)|].
  cbn [forallb] in Hattrs. apply andb_true_iff in Hattrs as [Ha _].
  unfold attrOk in Ha. rewrite !andb_true_iff in Ha.
  destruct Ha as (((((Hl & _) & _) & _) & _) & _).
  cbn [flat_map]. unfold writeAttr. rewrite <- !app_assoc.
  apply nameEnds_lead; assumption.
Qed.

Lemma Reaches_content_name (fuel : nat) (parent : XmlElement) (n : XmlName) (t : jsstring) :
  wfName n = true → nameEnds t = true →
  Reaches (parseContent (S fuel) parent) (str "<" ++ XmlName.toString n ++ t)
    (let* tag := openingTag in
     let '(attrs, selfClosing) := tag in
     let elem := mkXmlElement n attrs [] in
     let* elem' := (if negb selfClosing then parseContent fuel elem else ret elem) in
     parseContent fuel (XmlElement.appendChild parent (Elem elem')))
    t.
Proof.
  intros Hn Ht. unfold nameEnds in Ht.
  apply andb_true_iff in Ht as [Ht1 Ht2]. apply negb_true_iff in Ht1, Ht2.
  destruct (wfName_head n Hn) as (x & tl & Ex & Hx).
  change (str "<") with [chr "<"]. cbn [app parseContent].
  reach_with Runs_emptyText; [reflexivity|]. cbn [truthy].
  reach_with Runs_isEnd. cbv iota.
  reach_with Runs_expect.
  reach_with Runs_skipIf_false.
  { rewrite Ex. cbn [app]. eapply headIs_other; [exact Hx | reflexivity]. }
  reach_with Runs_skipIf_false.
  { rewrite Ex. cbn [app]. eapply headIs_other; [exact Hx | reflexivity]. }
  reach_with Runs_skipIf_false.
  { rewrite Ex. cbn [app]. eapply headIs_other; [exact Hx | reflexivity]. }
  eapply Reaches_bind; [apply Runs_parseName; assumption | tracks |].
  cbv beta iota. apply Reaches_refl.
Qed.

(** The loop over the attributes, up to what follows them. *)
Lemma Reaches_openingTag_loop_source (attrs : list AttrSource) (t : jsstring) :
  forallb attrOk attrs = true →
  ∀ fuel acc,
    Reaches (openingTag_loop (length attrs + fuel) acc) (flat_map writeAttr attrs ++ t)
      (openingTag_loop fuel (acc ++ map attrPair attrs)) t.
Proof.
  intros Hattrs. induction attrs as [|a attrs IH]; intros fuel acc.
  - cbn [length flat_map map app]. rewrite app_nil_r. apply Reaches_refl.
  - cbn [forallb] in Hattrs. apply andb_true_iff in Hattrs as [Ha Hattrs].
    unfold attrOk in Ha. rewrite !andb_true_iff in Ha.
    destruct Ha as (((((Hl & Hn) & Hb) & Haf) & Hq) & Hv).
    destruct (wfName_head (as_name a) Hn) as (x & tl & Ex & Hx).
    destruct (quote_facts (as_quote a) Hq) as [Hqw Hqa].
    cbn [length Nat.add openingTag_loop flat_map]. unfold writeAttr at 1.
    rewrite <- !app_assoc.
    reach_with Runs_skipWhile_space.
    { exact Hl. }
    { rewrite Ex. cbn [app]. eapply headIn_other; [exact Hx | reflexivity]. }
    reach_with Runs_skipIf_false.
    { rewrite Ex. cbn [app]. eapply headIs_other; [exact Hx | reflexivity]. }
    reach_with Runs_skipIf_false.
    { rewrite Ex. cbn [app]. eapply headIs_other; [exact Hx | reflexivity]. }
    eapply Reaches_bind; [|tracks|].
    { destruct (space_head (as_before a) (str "=" ++ as_after a ++ [as_quote a]
                  ++ writeText (as_value a) ++ [as_quote a]
                  ++ flat_map writeAttr attrs ++ t) (chr "=") _ Hb
                 eq_refl eq_refl eq_refl) as (z & tl' & E & Hz1 & Hz2).
      apply Runs_parseName; [exact Hn | rewrite E; exact Hz1 | rewrite E; exact Hz2]. }
    cbv beta.
    reach_with Runs_skipWhile_space; [exact Hb | reflexivity |].
    change (str "=") with [chr "="]. cbn [app].
    reach_with Runs_expect.
    reach_with Runs_skipWhile_space; [exact Haf | cbn [app headIn]; exact Hqw |].
    cbn [app].
    reach_with Runs_expectOneOf; [exact Hq|].
    eapply Reaches_bind; [|tracks|].
    { apply Runs_parseTextOrValue_pieces; [exact Hqa | exact Hv |].
      cbn [stopsAt]. apply jschar_eqb_refl. }
    cbv beta. reach_with Runs_expect.
    replace (acc ++ map attrPair (a :: attrs))
      with ((acc ++ [(as_name a, decodedText (as_value a))]) ++ map attrPair attrs)
      by (rewrite <- app_assoc; reflexivity).
    apply IH. exact Hattrs.
Qed.

Lemma FailsAt_openingTag (attrs : list AttrSource) (t d t' : jsstring) :
  forallb attrOk attrs = true →
  (∀ fuel acc, FailsAt (openingTag_loop (S fuel) acc) t d t') →
  FailsAt openingTag (flat_map writeAttr attrs ++ t) d t'.
Proof.
  intros Hattrs Ht. unfold openingTag.
  apply (FailsAt_fuel (fun fuel => openingTag_loop fuel [])).
  pose proof (length_flat_map_writeAttr attrs Hattrs) as Hlen.
  replace (S (length (flat_map writeAttr attrs ++ t)))
    with (length attrs + S (length (flat_map writeAttr attrs ++ t) - length attrs))
    by (rewrite length_app; lia).
  eapply Reaches_FailsAt; [apply Reaches_openingTag_loop_source; exact Hattrs|].
  apply Ht.
Qed.

(** The input ends inside an opening tag, behind the name, the
    attributes and some white space: the loop over the attributes looks
    for one more name. *)
Lemma FailsAt_content_tag_end (fuel : nat) (parent : XmlElement) (n : XmlName)
    (attrs : list AttrSource) (space : jsstring) :
  wfName n = true → forallb attrOk attrs = true →
  match attrs with a :: _ => truthy (as_lead a) | [] => true end = true →
  isSpace space = true →
  FailsAt (parseContent (S fuel) parent)
    (str "<" ++ XmlName.toString n ++ flat_map writeAttr attrs ++ space)
    (str "Expected element/attribute name") [].
Proof.
  intros Hn Hattrs Hlead Hsp.
  eapply Reaches_FailsAt.
  { apply Reaches_content_name; [exact Hn|].
    apply nameEnds_attrs; [exact Hattrs | exact Hlead|]. intros _.
    rewrite <- (app_nil_r space). apply nameEnds_space; [exact Hsp | reflexivity]. }
  apply FailsAt_bind_l.
  apply FailsAt_openingTag; [exact Hattrs|].
  intros fuel0 acc. cbn [openingTag_loop].
  eapply FailsAt_bind_r; [|tracks|].
  { pose proof (Runs_skipWhile_space space [] Hsp eq_refl) as Hrun.
    rewrite app_nil_r in Hrun. exact Hrun. }
  cbv beta.
  fail_with Runs_skipIf_false; [reflexivity|].
  fail_with Runs_skipIf_false; [reflexivity|].
  apply FailsAt_bind_l, FailsAt_parseName_none. reflexivity.
Qed.

(** The input ends inside an attribute value. *)
Lemma FailsAt_content_value_end (fuel : nat) (parent : XmlElement) (n : XmlName)
    (attrs : list AttrSource) (a : AttrSource) :
  wfName n = true → forallb attrOk (attrs ++ [a]) = true →
  match attrs ++ [a] with a0 :: _ => truthy (as_lead a0) | [] => true end = true →
  FailsAt (parseContent (S fuel) parent)
    (str "<" ++ XmlName.toString n ++ flat_map writeAttr attrs
     ++ as_lead a ++ XmlName.toString (as_name a) ++ as_before a ++ str "="
     ++ as_after a ++ [as_quote a] ++ writeText (as_value a))
    (str "Unexpected end") [].
Proof.
  intros Hn Hattrs Hlead.
  rewrite forallb_app in Hattrs. apply andb_true_iff in Hattrs as [Hattrs Ha].
  cbn [forallb] in Ha. rewrite andb_true_r in Ha.
  pose proof Ha as Ha'.
  unfold attrOk in Ha. rewrite !andb_true_iff in Ha.
  destruct Ha as (((((Hl & Hna) & Hb) & Haf) & Hq) & Hv).
  destruct (wfName_head (as_name a) Hna) as (x & tl & Ex & Hx).
  destruct (quote_facts (as_quote a) Hq) as [Hqw Hqa].
  eapply Reaches_FailsAt.
  { apply Reaches_content_name; [exact Hn|].
    apply nameEnds_attrs; [exact Hattrs | destruct attrs; [reflexivity | exact Hlead] |].
    intros ->. cbn [app] in Hlead. apply nameEnds_lead; [exact Hl | exact Hlead]. }
  apply FailsAt_bind_l.
  apply FailsAt_openingTag; [exact Hattrs|].
  intros fuel0 acc. cbn [openingTag_loop].
  fail_with Runs_skipWhile_space.
  { exact Hl. }
  { rewrite Ex. cbn [app]. eapply headIn_other; [exact Hx | reflexivity]. }
  fail_with Runs_skipIf_false.
  { rewrite Ex. cbn [app]. eapply headIs_other; [exact Hx | reflexivity]. }
  fail_with Runs_skipIf_false.
  { rewrite Ex. cbn [app]. eapply headIs_other; [exact Hx | reflexivity]. }
  eapply FailsAt_bind_r; [|tracks|].
  { destruct (space_head (as_before a) (str "=" ++ as_after a ++ [as_quote a]
                ++ writeText (as_value a)) (chr "=") _ Hb
               eq_refl eq_refl eq_refl) as (z & tl' & E & Hz1 & Hz2).
    apply Runs_parseName; [exact Hna | rewrite E; exact Hz1 | rewrite E; exact Hz2]. }
  cbv beta.
  fail_with Runs_skipWhile_space; [exact Hb | reflexivity |].
  change (str "=") with [chr "="]. cbn [app].
  fail_with Runs_expect.
  fail_with Runs_skipWhile_space; [exact Haf | cbn [app headIn]; exact Hqw |].
  cbn [app].
  fail_with Runs_expectOneOf; [exact Hq|].
  eapply FailsAt_bind_r; [|tracks|].
  { pose proof (Runs_parseTextOrValue_pieces (as_quote a) (as_value a) [] Hqa Hv eq_refl)
      as Hrun.
    rewrite app_nil_r in Hrun. exact Hrun. }
  cbv beta. apply FailsAt_bind_l, FailsAt_expect_end.
Qed.

(** A closing tag in the content of [parent]. *)
Lemma Reaches_content_closing (fuel : nat) (parent : XmlElement) (m : XmlName) (t : jsstring) :
  wfName m = true → nameEnds t = true →
  Reaches (parseContent (S fuel) parent) (str "</" ++ XmlName.toString m ++ t)
    (if negb (truthy (name (ename parent)))
     then throwErr (str "Unexpected closing tag")
     else if negb (XmlName.equals m (ename parent))
     then throwErr (str "Mismatched closing tag; expected "
                    ++ XmlElement.toString parent
                    ++ str " but got " ++ XmlName.toString m)
     else
       skipWhile WHITESPACE ;;
       expect (chr ">") ;;
       ret parent)
    t.
Proof.
  intros Hm Ht. unfold nameEnds in Ht.
  apply andb_true_iff in Ht as [Ht1 Ht2]. apply negb_true_iff in Ht1, Ht2.
  eval_str. cbn [app parseContent].
  reach_with Runs_emptyText; [reflexivity|]. cbn [truthy].
  reach_with Runs_isEnd. cbv iota.
  reach_with Runs_expect.
  reach_with Runs_skipIf_false; [reflexivity|].
  reach_with Runs_skipIf_false; [reflexivity|].
  reach_with Runs_skipIf_true.
  eapply Reaches_bind; [apply Runs_parseName; assumption | tracks |].
  cbv beta iota. apply Reaches_refl.
Qed.

(** The input ends inside the closing tag of the parent. *)
Lemma FailsAt_content_close_end (fuel : nat) (parent : XmlElement) (space : jsstring) :
  wfName (ename parent) = true → isSpace space = true →
  FailsAt (parseContent (S fuel) parent)
    (str "</" ++ XmlName.toString (ename parent) ++ space) (str "Unexpected end") [].
Proof.
  intros Hp Hsp.
  eapply Reaches_FailsAt.
  { apply Reaches_content_closing; [exact Hp|].
    unfold nameEnds. destruct space as [|z space]; [reflexivity|].
    cbn [isSpace forallb] in Hsp. apply andb_true_iff in Hsp as [Hz _].
    destruct (space_not_name z Hz) as (H1 & H2 & _). cbn [headIn headIs].
    rewrite H1. unfold jschar_eqb in *. rewrite H2. reflexivity. }
  assert (Ht : truthy (name (ename parent)) = true).
  { unfold wfName, isNameStr in Hp.
    apply andb_true_iff in Hp as [_ [Ht _]%andb_true_iff]. exact Ht. }
  rewrite Ht, XmlName_equals_refl. cbn [negb].
  eapply FailsAt_bind_r; [|tracks|].
  { pose proof (Runs_skipWhile_space space [] Hsp eq_refl) as Hrun.
    rewrite app_nil_r in Hrun. exact Hrun. }
  cbv beta. apply FailsAt_bind_l, FailsAt_expect_end.
Qed.

(** ** Inside open elements *)

Lemma length_writeItems (items : list Item) :
  forallb itemOk items = true → length items ≤ length (writeItems items).
Proof.
  induction items as [|i items IH]; intros H; [simpl; lia|].
  cbn [forallb] in H. apply andb_true_iff in H as [Hi H].
  unfold writeItems in *. cbn [flat_map]. rewrite length_app.
  pose proof (writeItem_nonempty i Hi). specialize (IH H). simpl. lia.
Qed.

(** The content loop reads the items before an opening tag and the tag,
    and goes into the content of the element. *)
Lemma frame_reach (f : Frame) (fuel : nat) (parent : XmlElement) (tail : jsstring) :
  frameOk f = true → length (writeFrame f ++ tail) < fuel →
  ∃ fuel', length tail < fuel'
           ∧ Reaches (parseContent fuel parent) (writeFrame f ++ tail)
               (let* elem' := parseContent fuel' (frameElement f) in
                parseContent fuel'
                  (XmlElement.appendChild (addChildren parent (itemsNodes (f_before f)))
                     (Elem elem')))
               tail.
Proof.
  intros Hok Hf. unfold frameOk in Hok. rewrite !andb_true_iff in Hok.
  destruct Hok as ((((Hbefore & Hn) & Hattrs) & Hlead) & Hsp).
  unfold writeFrame in *. rewrite <- !app_assoc in *.
  destruct (items_reach (f_before f) Hbefore fuel parent
              (str "<" ++ XmlName.toString (f_name f) ++ flat_map writeAttr (f_attrs f)
               ++ f_space f ++ str ">" ++ tail)) as (fuel1 & Hfuel1 & Hreach);
    [reflexivity | exact Hf |].
  destruct fuel1 as [|fuel']; [lia|].
  exists fuel'. split.
  { revert Hfuel1. rewrite !length_app. change (length (str "<")) with 1.
    change (length (str ">")) with 1. lia. }
  eapply Reaches_trans; [exact Hreach|].
  apply (Reaches_content_open fuel' _ (f_name f) (f_attrs f) (f_space f) false); assumption.
Qed.

(** A failure in the content of the innermost open element is the
    failure of the whole. *)
Lemma context_fails (frames : list Frame) (tail d tail' : jsstring) :
  forallb frameOk frames = true →
  ∀ fuel parent,
    (∀ fuel', length tail < fuel' →
              FailsAt (parseContent fuel' (innermost frames parent)) tail d tail') →
    length (writeContext frames ++ tail) < fuel →
    FailsAt (parseContent fuel parent) (writeContext frames ++ tail) d tail'.
Proof.
  intros Hok. induction frames as [|f frames IH]; intros fuel parent Hfail Hf.
  - cbn [writeContext flat_map app innermost] in *. apply Hfail, Hf.
  - cbn [forallb] in Hok. apply andb_true_iff in Hok as [Hfok Hok].
    unfold writeContext in *. cbn [flat_map innermost] in *. rewrite <- app_assoc in *.
    destruct (frame_reach f fuel parent (flat_map writeFrame frames ++ tail) Hfok Hf)
      as (fuel' & Hfuel' & Hreach).
    eapply Reaches_FailsAt; [exact Hreach|].
    apply FailsAt_bind_l. apply IH; [exact Hok | exact Hfail | exact Hfuel'].
Qed.

(** At the end of the input every open element is complete. *)
Lemma context_runs (frames : list Frame) (pre : list Item) :
  forallb frameOk frames = true → itemsOk pre = true →
  ∀ fuel parent,
    length (writeContext frames ++ writeItems pre) < fuel →
    Runs (parseContent fuel parent) (writeContext frames ++ writeItems pre)
         (addChildren parent (contextNodes frames (itemsNodes pre))) [].
Proof.
  intros Hok Hpre. induction frames as [|f frames IH]; intros fuel parent Hf.
  - cbn [writeContext flat_map app contextNodes] in *.
    destruct (items_reach pre Hpre fuel parent []) as (fuel' & Hfuel' & Hreach);
      [reflexivity | rewrite app_nil_r; exact Hf |].
    rewrite app_nil_r in Hreach. eapply Reaches_Runs; [exact Hreach|].
    destruct fuel' as [|fuel']; [simpl in Hfuel'; lia|]. apply Runs_parseContent_end.
  - cbn [forallb] in Hok. apply andb_true_iff in Hok as [Hfok Hok].
    unfold writeContext in *. cbn [flat_map contextNodes] in *. rewrite <- app_assoc in *.
    destruct (frame_reach f fuel parent (flat_map writeFrame frames ++ writeItems pre) Hfok Hf)
      as (fuel' & Hfuel' & Hreach).
    eapply Reaches_Runs; [exact Hreach|].
    eapply Runs_bind; [apply IH; [exact Hok | exact Hfuel']|]. cbv beta.
    destruct fuel' as [|fuel']; [lia|].
    match goal with
    | |- Runs (parseContent _ ?p) [] ?r [] =>
        replace r with p; [apply Runs_parseContent_end|]
    end.
    unfold addChildren, XmlElement.appendChild.
    cbn [ename attrs children frameElement app]. rewrite <- app_assoc. reflexivity.
Qed.

Lemma parseXml_context (frames : list Frame) (pre : list Item) :
  forallb frameOk frames = true → itemsOk pre = true →
  parseXml (writeContext frames ++ writeItems pre)
  = chooseRoot (contextNodes frames (itemsNodes pre)).
Proof.
  intros Hok Hpre.
  rewrite (parseXml_of_run _ (addChildren dummyRoot (contextNodes frames (itemsNodes pre))));
    [reflexivity|].
  apply context_runs; [exact Hok | exact Hpre | lia].
Qed.

(** A failure of the content loop behind some items in the content of
    the innermost open element makes [parseXml] fail with that error, at
    that place. *)
Lemma parseXml_fails_in_context (frames : list Frame) (pre : list Item)
    (bad rest d : jsstring) :
  forallb frameOk frames = true → itemsOk pre = true →
  stopsAt (chr "<") (bad ++ rest) = true →
  (∀ fuel, FailsAt (parseContent (S fuel)
                      (addChildren (innermost frames dummyRoot) (itemsNodes pre)))
                   (bad ++ rest) d rest) →
  parseXml (writeContext frames ++ writeItems pre ++ bad ++ rest)
  = Throw (parseErrorAfter d (writeContext frames ++ writeItems pre ++ bad)).
Proof.
  intros Hok Hpre Hstop Hfail.
  replace (writeContext frames ++ writeItems pre ++ bad ++ rest)
    with ((writeContext frames ++ writeItems pre ++ bad) ++ rest)
    by (rewrite <- !app_assoc; reflexivity).
  apply parseXml_of_fail. rewrite <- !app_assoc.
  apply context_fails; [exact Hok | | lia].
  intros fuel' Hfuel'.
  destruct (items_reach pre Hpre fuel' (innermost frames dummyRoot) (bad ++ rest) Hstop Hfuel')
    as (fuel1 & Hfuel1 & Hreach).
  eapply Reaches_FailsAt; [exact Hreach|].
  destruct fuel1 as [|fuel1]; [lia|]. apply Hfail.
Qed.

Lemma XmlName_equals_false (a b : XmlName) : a ≠ b → XmlName.equals a b = false.
Proof.
  intros Hne. unfold XmlName.equals. destruct a as [p1 n1], b as [p2 n2]. cbn [prefix name].
  destruct (jsstring_eqb p1 p2) eqn:E1; [|reflexivity].
  destruct (jsstring_eqb n1 n2) eqn:E2; [|reflexivity].
  apply jsstring_eqb_eq in E1, E2. subst. contradiction Hne. reflexivity.
Qed.

Lemma innermost_wfName (frames : list Frame) (parent : XmlElement) :
  forallb frameOk frames = true → frames ≠ [] →
  wfName (ename (innermost frames parent)) = true.
Proof.
  revert parent. induction frames as [|f frames IH]; intros parent Hok Hne; [congruence|].
  cbn [forallb] in Hok. apply andb_true_iff in Hok as [Hf Hok]. cbn [innermost].
  destruct frames as [|f' frames'].
  - cbn [innermost]. unfold frameOk in Hf. rewrite !andb_true_iff in Hf.
    destruct Hf as ((((_ & Hn) & _) & _) & _). exact Hn.
  - apply IH; [exact Hok | discriminate].
Qed.

(** A document that ends inside a piece of markup is rejected, wherever
    the markup stands: in a comment or declaration, in a processing
    instruction, in an attribute value, or in the closing tag of the
    innermost open element, with "Unexpected end"; in an opening tag
    behind the name or an attribute, with "Expected element/attribute
    name".  The error carries the position of the end of the document. *)
Theorem truncated_markup (frames : list Frame) (pre : list Item) :
  forallb frameOk frames = true → itemsOk pre = true →
  (∀ body, forallb (fun c => negb (jschar_eqb c (chr ">"))) body = true →
     parseXml (writeContext frames ++ writeItems pre ++ str "<!" ++ body)
     = Throw (parseErrorAfter (str "Unexpected end")
                (writeContext frames ++ writeItems pre ++ str "<!" ++ body)))
  ∧ (∀ body, plainOk body = true →
       parseXml (writeContext frames ++ writeItems pre ++ str "<?" ++ body)
       = Throw (parseErrorAfter (str "Unexpected end")
                  (writeContext frames ++ writeItems pre ++ str "<?" ++ body)))
  ∧ (∀ n attrs a,
       wfName n = true → forallb attrOk (attrs ++ [a]) = true →
       match attrs ++ [a] with a0 :: _ => truthy (as_lead a0) | [] => true end = true →
       let tag := str "<" ++ XmlName.toString n ++ flat_map writeAttr attrs
                  ++ as_lead a ++ XmlName.toString (as_name a) ++ as_before a ++ str "="
                  ++ as_after a ++ [as_quote a] ++ writeText (as_value a) in
       parseXml (writeContext frames ++ writeItems pre ++ tag)
       = Throw (parseErrorAfter (str "Unexpected end")
                  (writeContext frames ++ writeItems pre ++ tag)))
  ∧ (∀ space, frames ≠ [] → isSpace space = true →
       let tag := str "</" ++ XmlName.toString (ename (innermost frames dummyRoot))
                  ++ space in
       parseXml (writeContext frames ++ writeItems pre ++ tag)
       = Throw (parseErrorAfter (str "Unexpected end")
                  (writeContext frames ++ writeItems pre ++ tag)))
  ∧ (∀ n attrs space,
       wfName n = true → forallb attrOk attrs = true →
       match attrs with a :: _ => truthy (as_lead a) | [] => true end = true →
       isSpace space = true →
       let tag := str "<" ++ XmlName.toString n ++ flat_map writeAttr attrs ++ space in
       parseXml (writeContext frames ++ writeItems pre ++ tag)
       = Throw (parseErrorAfter (str "Expected element/attribute name")
                  (writeContext frames ++ writeItems pre ++ tag))).
Proof.
  intros Hok Hpre.
  assert (Hgen : ∀ bad d,
             stopsAt (chr "<") bad = true →
             (∀ fuel, FailsAt (parseContent (S fuel)
                                 (addChildren (innermost frames dummyRoot) (itemsNodes pre)))
                              bad d []) →
             parseXml (writeContext frames ++ writeItems pre ++ bad)
             = Throw (parseErrorAfter d (writeContext frames ++ writeItems pre ++ bad))).
  { intros bad d Hstop Hfail.
    pose proof (parseXml_fails_in_context frames pre bad [] d Hok Hpre) as H.
    rewrite app_nil_r in H. apply H; assumption. }
  split; [|split; [|split; [|split]]].
  - intros body Hbody. apply Hgen; [reflexivity|].
    intros fuel. apply FailsAt_content_comment_end, Hbody.
  - intros body Hbody. apply Hgen; [reflexivity|].
    intros fuel. apply FailsAt_content_instruction_end, Hbody.
  - intros n attrs a Hn Hattrs Hlead tag. apply Hgen; [reflexivity|].
    intros fuel. apply FailsAt_content_value_end; assumption.
  - intros space Hne Hsp tag. apply Hgen; [reflexivity|].
    intros fuel.
    apply (FailsAt_content_close_end fuel
             (addChildren (innermost frames dummyRoot) (itemsNodes pre)) space);
      [|exact Hsp].
    apply innermost_wfName; assumption.
  - intros n attrs space Hn Hattrs Hlead Hsp tag. apply Hgen; [reflexivity|].
    intros fuel. apply FailsAt_content_tag_end; assumption.
Qed.

Lemma truncated_markup_witness :
  parseXml (str "<a><!--")
  = Throw (parseErrorAfter (str "Unexpected end") (str "<a><!--"))
  ∧ parseXml (str "<a b='x") = Throw (parseErrorAfter (str "Unexpected end") (str "<a b='x"))
  ∧ parseXml (str "<a></a ") = Throw (parseErrorAfter (str "Unexpected end") (str "<a></a "))
  ∧ parseXml (str "<a><b x='1' ")
    = Throw (parseErrorAfter (str "Expected element/attribute name") (str "<a><b x='1' ")).
Proof.
  split; [|split; [|split]].
  - apply (proj1 (truncated_markup [openA] [] eq_refl eq_refl) (str "--")). reflexivity.
  - apply (proj1 (proj2 (proj2 (truncated_markup [] [] eq_refl eq_refl)))
             (mkXmlName [] (str "a")) []
             (mkAttrSource (str " ") (mkXmlName [] (str "b")) [] [] (chr "'")
                [Raw (chr "x")])); reflexivity.
  - apply (proj1 (proj2 (proj2 (proj2 (truncated_markup [openA] [] eq_refl eq_refl))))
             (str " ")); [discriminate | reflexivity].
  - apply (proj2 (proj2 (proj2 (proj2 (truncated_markup [openA] [] eq_refl eq_refl))))
             (mkXmlName [] (str "b"))
             [mkAttrSource (str " ") (mkXmlName [] (str "x")) [] [] (chr "'")
                [Raw (chr "1")]] (str " ")); reflexivity.
Defined.

(** A closing tag must name the innermost open element, prefix included:
    wherever a closing tag with another name stands, [parseXml] fails
    with "Mismatched closing tag", quoting the open element as written by
    [toString] with the children read so far; a closing tag outside every
    element is "Unexpected closing tag".  The error is positioned behind
    the name in the closing tag. *)
Theorem closing_tag_must_match (frames : list Frame) (pre : list Item)
    (m : XmlName) (rest : jsstring) :
  forallb frameOk frames = true → itemsOk pre = true →
  wfName m = true → nameEnds rest = true →
  let parent := addChildren (innermost frames dummyRoot) (itemsNodes pre) in
  let consumed := writeContext frames ++ writeItems pre ++ str "</" ++ XmlName.toString m in
  (frames = [] →
   parseXml (consumed ++ rest)
   = Throw (parseErrorAfter (str "Unexpected closing tag") consumed))
  ∧ (frames ≠ [] → m ≠ ename parent →
     parseXml (consumed ++ rest)
     = Throw (parseErrorAfter
                (str "Mismatched closing tag; expected " ++ XmlElement.toString parent
                 ++ str " but got " ++ XmlName.toString m) consumed)).
Proof.
  intros Hok Hpre Hm Hrest parent consumed.
  assert (Hgen : ∀ d,
             (∀ fuel, FailsAt (parseContent (S fuel) parent)
                              ((str "</" ++ XmlName.toString m) ++ rest) d rest) →
             parseXml (consumed ++ rest) = Throw (parseErrorAfter d consumed)).
  { intros d Hfail. subst consumed.
    pose proof (parseXml_fails_in_context frames pre (str "</" ++ XmlName.toString m)
                  rest d Hok Hpre eq_refl Hfail) as H.
    rewrite <- H. f_equal. rewrite <- !app_assoc. reflexivity. }
  split.
  - intros ->. apply Hgen. intros fuel. rewrite <- app_assoc.
    eapply Reaches_FailsAt; [apply Reaches_content_closing; assumption|].
    subst parent. cbn [innermost addChildren dummyRoot ename name truthy negb].
    apply FailsAt_throwErr.
  - intros Hne Hname. apply Hgen. intros fuel. rewrite <- app_assoc.
    eapply Reaches_FailsAt; [apply Reaches_content_closing; assumption|].
    assert (Hp : wfName (ename parent) = true).
    { subst parent. unfold addChildren. cbn [ename]. apply innermost_wfName; assumption. }
    assert (Ht : truthy (name (ename parent)) = true).
    { unfold wfName, isNameStr in Hp.
      apply andb_true_iff in Hp as [_ [Ht _]%andb_true_iff]. exact Ht. }
    rewrite Ht, (XmlName_equals_false _ _ Hname). cbn [negb].
    apply FailsAt_throwErr.
Qed.

Lemma closing_tag_must_match_witness :
  parseXml (str "</a>") = Throw (parseErrorAfter (str "Unexpected closing tag") (str "</a"))
  ∧ parseXml (str "<a><b x='1'>t</a>")
    = Throw (parseErrorAfter
               (str "Mismatched closing tag; expected <b x=" ++ [DQUOTE] ++ str "1"
                ++ [DQUOTE] ++ str ">t</b> but got a")
               (str "<a><b x='1'>t</a")).
Proof.
  split.
  - apply (proj1 (closing_tag_must_match [] [] (mkXmlName [] (str "a")) (str ">")
                    eq_refl eq_refl eq_refl eq_refl)). reflexivity.
  - apply (proj2 (closing_tag_must_match [openA; openB] [IText [Raw (chr "t")]]
                    (mkXmlName [] (str "a")) (str ">")
                    eq_refl eq_refl eq_refl eq_refl)); discriminate.
Defined.

(** The end of the input completes every open element: a document that
    stops in the content of nested elements, behind complete items, is
    parsed as if the missing closing tags followed, innermost first. *)
Theorem end_of_input_closes (frames : list Frame) (pre : list Item) :
  forallb frameOk frames = true → itemsOk pre = true →
  parseXml (writeContext frames ++ writeItems pre)
  = chooseRoot (contextNodes frames (itemsNodes pre)).
Proof. exact (parseXml_context frames pre). Qed.

Lemma end_of_input_closes_witness :
  parseXml (str "<a><b x='1'>t")
  = Ok (mkXmlElement (mkXmlName [] (str "a")) []
          [Elem (mkXmlElement (mkXmlName [] (str "b")) [(mkXmlName [] (str "x"), str "1")]
                   [Text (str "t")])]).
Proof.
  apply (end_of_input_closes [openA; openB] [IText [Raw (chr "t")]]); reflexivity.
Defined.

(* ===================================================================== *)
(** * The bound on the loops is never felt                                 *)
(* ===================================================================== *)

Lemma bind_mono {A B} (m m' : P A) (k k' : A -> P B) (l : Lexer) :
  (m l ≠ OutOfFuel → m' l = m l) →
  (∀ a l1, k a l1 ≠ OutOfFuel → k' a l1 = k a l1) →
  bind m k l ≠ OutOfFuel → bind m' k' l = bind m k l.
Proof.
  intros Hm Hk H. unfold bind in *.
  destruct (m l) as [[a l1] | e |] eqn:E.
  - rewrite Hm by discriminate. apply Hk, H.
  - rewrite Hm by discriminate. reflexivity.
  - congruence.
Qed.

(** More fuel does not change an outcome that was reached. *)
Lemma parseContent_mono : ∀ fuel fuel' parentElem l,
  fuel ≤ fuel' → parseContent fuel parentElem l ≠ OutOfFuel →
  parseContent fuel' parentElem l = parseContent fuel parentElem l.
Proof.
  induction fuel as [|fuel IH]; intros fuel' parentElem l Hle H.
  - cbn [parseContent] in H. congruence.
  - destruct fuel' as [|fuel']; [lia|]. assert (Hle' : fuel ≤ fuel') by lia.
    cbn [parseContent] in *. revert H.
    repeat first
      [ apply (IH _ _ _ Hle')
      | intros _; reflexivity
      | match goal with
        | |- bind _ _ ?l ≠ OutOfFuel → bind _ _ ?l = bind _ _ ?l =>
            apply bind_mono; [intros _; reflexivity | intros ? ?; cbv beta]
        | |- bind _ _ ?l ≠ OutOfFuel → bind _ _ ?l = bind _ _ ?l =>
            apply bind_mono; [| intros ? ?; cbv beta]
        | |- (if ?c then _ else _) ?l ≠ OutOfFuel → _ => destruct c
        | |- (let '(_, _) := ?x in _) ?l ≠ OutOfFuel → _ => destruct x
        end ].
Qed.

(** The parser always comes to an end.  Every loop of the lexer and of
    [parseContent] consumes input, so on every document [parseXml] ends
    with a tree or an exception: the bound of the model on the number of
    iterations, one more than the length of the document, is never
    reached, and any larger bound gives the same outcome. *)
Theorem parseXml_terminates (xml : jsstring) :
  ((∃ e, parseXml xml = Ok e) ∨ (∃ ex, parseXml xml = Throw ex))
  ∧ parseContent (S (length xml)) dummyRoot (newLexer xml) ≠ OutOfFuel
  ∧ ∀ fuel, length xml < fuel →
            parseContent fuel dummyRoot (newLexer xml)
            = parseContent (S (length xml)) dummyRoot (newLexer xml).
Proof.
  assert (H : parseContent (S (length xml)) dummyRoot (newLexer xml) ≠ OutOfFuel).
  { pose proof (Steps_parseContent (S (length xml)) dummyRoot (newLexer xml)) as Hs.
    unfold Steps in Hs. intros E. rewrite E in Hs. apply Hs.
    - cbn [next src newLexer]. lia.
    - unfold remaining. cbn [next src newLexer]. lia. }
  split; [|split; [exact H|]].
  - pose proof (parseXml_total xml) as Ht.
    destruct (parseXml xml) as [e | ex |]; [left | right | congruence]; eauto.
  - intros fuel Hf. apply parseContent_mono; [lia | exact H].
Qed.

Lemma parseXml_terminates_witness :
  parseContent 20 dummyRoot (newLexer (str "<a>t</a>"))
  = parseContent (S (length (str "<a>t</a>"))) dummyRoot (newLexer (str "<a>t</a>")).
Proof.
  apply (proj2 (proj2 (parseXml_terminates (str "<a>t</a>")))). simpl. lia.
Defined.

(* ===================================================================== *)
(** * The shape of every parsed tree                                       *)
(* ===================================================================== *)

Lemma Yields_bind {A B} (m : P A) (k : A -> P B) (Q1 : A -> Prop) (Q : B -> Prop) :
  Yields m Q1 → (∀ a, Q1 a → Yields (k a) Q) → Yields (bind m k) Q.
Proof.
  intros Hm Hk l b l' H. unfold bind in H.
  destruct (m l) as [[a l1] | |] eqn:E; try discriminate.
  exact (Hk a (Hm _ _ _ E) _ _ _ H).
Qed.

Lemma Yields_any {A} (m : P A) : Yields m (fun _ => True).
Proof. intros l a l' _. exact I. Qed.

Lemma Yields_ret {A} (a : A) (Q : A -> Prop) : Q a → Yields (ret a) Q.
Proof. intros H l b l' E. unfold ret in E. injection E as <- _. exact H. Qed.

Lemma Yields_throwErr {A} (msg : jsstring) (Q : A -> Prop) : Yields (throwErr msg) Q.
Proof. intros l b l' E. discriminate. Qed.

Lemma Yields_maybeExpectOneOf (c : jsstring) :
  Yields (maybeExpectOneOf c) (fun r => ∀ x, r = Some x → includes c x = true).
Proof.
  intros l a l' H x ->. unfold maybeExpectOneOf, bind, peek in H.
  destruct (src l !! next l) as [b|] eqn:E; [|discriminate].
  destruct (includes c b) eqn:Ei; [|discriminate].
  unfold consume, bind, consumeOrEnd in H. rewrite E in H. cbn in H.
  injection H as -> _. exact Ei.
Qed.

Lemma Yields_fuel {A} (f : nat -> P A) (Q : A -> Prop) :
  (∀ fuel, Yields (f fuel) Q) → Yields (fun l => f (S (remaining l)) l) Q.
Proof. intros H l a l' E. exact (H _ _ _ _ E). Qed.

Lemma join_matches (cs : jsstring) (ms : list jsstring) :
  Forall (fun m => ∃ c, m = [c] ∧ includes cs c = true) ms →
  forallb (includes cs) (join ms) = true ∧ (ms ≠ [] → truthy (join ms) = true).
Proof.
  induction 1 as [|m ms (c & -> & Hc) _ [IH _]]; [split; [reflexivity | congruence]|].
  unfold join in *. cbn. rewrite Hc, IH. split; [reflexivity | intros _; reflexivity].
Qed.

Lemma Yields_expectOneOrMoreOf_loop (cs : jsstring) : ∀ fuel ms,
  Forall (fun m => ∃ c, m = [c] ∧ includes cs c = true) ms →
  Yields (expectOneOrMoreOf_loop fuel cs ms)
         (Forall (fun m => ∃ c, m = [c] ∧ includes cs c = true)).
Proof.
  induction fuel as [|fuel IH]; intros ms Hms; cbn [expectOneOrMoreOf_loop].
  - intros l a l' E. discriminate.
  - eapply Yields_bind; [apply Yields_maybeExpectOneOf|]. intros [c|] Hc.
    + apply IH. apply Forall_app. split; [exact Hms|].
      constructor; [|constructor]. exists c. split; [reflexivity | exact (Hc c eq_refl)].
    + apply Yields_ret. exact Hms.
Qed.

Lemma Yields_expectOneOrMoreOf (cs nm : jsstring) :
  Yields (expectOneOrMoreOf cs nm)
         (fun s => truthy s = true ∧ forallb (includes cs) s = true).
Proof.
  unfold expectOneOrMoreOf.
  eapply Yields_bind.
  - apply (Yields_fuel (fun fuel => expectOneOrMoreOf_loop fuel cs [])).
    intros fuel. apply Yields_expectOneOrMoreOf_loop. constructor.
  - intros [|m ms] H; [apply Yields_throwErr|]. apply Yields_ret.
    destruct (join_matches cs _ H) as [Ha Ht]. split; [apply Ht; congruence | exact Ha].
Qed.

Lemma Yields_parseName : Yields parseName (fun n => wfName n = true).
Proof.
  unfold parseName.
  eapply Yields_bind; [apply Yields_expectOneOrMoreOf|]. intros nm [Ht Ha].
  eapply Yields_bind; [apply Yields_any|]. intros colon _.
  destruct colon; cbn [negb].
  - eapply Yields_bind; [apply Yields_expectOneOrMoreOf|]. intros lc [Ht' Ha'].
    apply Yields_ret. unfold wfName, isNameStr. cbn [prefix name].
    rewrite Ha, Ht', Ha'. reflexivity.
  - apply Yields_ret. unfold wfName, isNameStr. cbn [prefix name forallb].
    rewrite Ht, Ha. reflexivity.
Qed.

Lemma Yields_openingTag_loop : ∀ fuel attrs,
  forallb (fun p => wfName (fst p)) attrs = true →
  Yields (openingTag_loop fuel attrs)
         (fun tag => forallb (fun p : XmlName * jsstring => wfName (fst p)) (fst tag) = true).
Proof.
  induction fuel as [|fuel IH]; intros attrs Ha; cbn [openingTag_loop].
  - intros l a l' E. discriminate.
  - eapply Yields_bind; [apply Yields_any|]. intros _ _.
    eapply Yields_bind; [apply Yields_any|]. intros slash _.
    destruct slash.
    { eapply Yields_bind; [apply Yields_any|]. intros _ _. apply Yields_ret. exact Ha. }
    eapply Yields_bind; [apply Yields_any|]. intros gt _.
    destruct gt; [apply Yields_ret; exact Ha|].
    eapply Yields_bind; [apply Yields_parseName|]. intros attrName Hn.
    do 5 (eapply Yields_bind; [apply Yields_any|]; intros ? _).
    eapply Yields_bind; [apply Yields_any|]. intros _ _.
    apply IH. rewrite forallb_app, Ha. cbn. rewrite Hn. reflexivity.
Qed.

Lemma parsedOk_eq (e : XmlElement) :
  parsedOk e = wfName (ename e)
               && forallb (fun p => wfName (fst p)) (attrs e)
               && forallb parsedNodeOk (children e).
Proof. destruct e; reflexivity. Qed.

Lemma Yields_parseContent : ∀ fuel parentElem,
  forallb parsedNodeOk (children parentElem) = true →
  Yields (parseContent fuel parentElem)
         (fun r => ename r = ename parentElem ∧ attrs r = attrs parentElem
                   ∧ forallb parsedNodeOk (children r) = true).
Proof.
  induction fuel as [|fuel IH]; intros parentElem Hp; cbn [parseContent].
  { intros l a l' E. discriminate. }
  assert (Happ : ∀ c, parsedNodeOk c = true →
            Yields (parseContent fuel (XmlElement.appendChild parentElem c))
              (fun r => ename r = ename parentElem ∧ attrs r = attrs parentElem
                        ∧ forallb parsedNodeOk (children r) = true)).
  { intros c Hc l a l' E.
    assert (Hc' : forallb parsedNodeOk (children (XmlElement.appendChild parentElem c)) = true).
    { destruct parentElem as [n a0 cs]. cbn in *. rewrite forallb_app, Hp. cbn.
      rewrite Hc. reflexivity. }
    destruct (IH _ Hc' _ _ _ E) as (Hn & Ha & Hch).
    destruct parentElem as [n a0 cs]. cbn in *. auto. }
  eapply Yields_bind; [apply Yields_any|]. intros text _.
  destruct (truthy text) eqn:Et; [apply Happ; exact Et|].
  eapply Yields_bind; [apply Yields_any|]. intros atEnd _.
  destruct atEnd; [apply Yields_ret; auto|].
  eapply Yields_bind; [apply Yields_any|]. intros _ _.
  eapply Yields_bind; [apply Yields_any|]. intros bang _.
  destruct bang.
  { do 2 (eapply Yields_bind; [apply Yields_any|]; intros _ _). apply IH, Hp. }
  eapply Yields_bind; [apply Yields_any|]. intros question _.
  destruct question.
  { eapply Yields_bind; [apply Yields_any|]; intros _ _. apply IH, Hp. }
  eapply Yields_bind; [apply Yields_any|]. intros isClosing _.
  eapply Yields_bind; [apply Yields_parseName|]. intros nm Hnm.
  destruct isClosing.
  { destruct (negb (truthy (name (ename parentElem)))); [apply Yields_throwErr|].
    destruct (negb (XmlName.equals nm (ename parentElem))); [apply Yields_throwErr|].
    do 2 (eapply Yields_bind; [apply Yields_any|]; intros _ _). apply Yields_ret. auto. }
  eapply Yields_bind.
  { apply (Yields_fuel (fun fuel => openingTag_loop fuel [])).
    intros f. apply Yields_openingTag_loop. reflexivity. }
  intros [attrs0 selfClosing] Hattrs. cbn [fst] in Hattrs.
  eapply Yields_bind with (Q1 := fun e => parsedOk e = true).
  - destruct selfClosing; cbn [negb].
    + apply Yields_ret. cbn. rewrite Hnm, Hattrs. reflexivity.
    + intros l a l' E. destruct (IH (mkXmlElement nm attrs0 []) eq_refl _ _ _ E) as (Hn & Ha & Hc).
      rewrite parsedOk_eq, Hn, Ha, Hc. cbn. rewrite Hnm, Hattrs. reflexivity.
  - intros elem' He. apply Happ. exact He.
Qed.

Lemma selectRoot_In : ∀ cs r0 root,
  selectRoot cs r0 = Ok (Some root) → r0 = Some root ∨ In (Elem root) cs.
Proof.
  induction cs as [|[t|c] cs IH]; intros r0 root H; cbn [selectRoot] in H.
  - injection H as ->. left; reflexivity.
  - destruct (truthy (trim t)); [discriminate|].
    destruct (IH _ _ H); [left | right; right]; assumption.
  - destruct r0; [discriminate|].
    destruct (IH _ _ H) as [E | Hin]; right; [left | right; exact Hin].
    injection E as ->. reflexivity.
Qed.

(** Every tree [parseXml] returns is well formed in the parser's own
    terms, at every depth: each element and attribute name has a
    non-empty alphanumeric local name and an alphanumeric prefix, and no
    text child is the empty string. *)
Theorem parsed_tree_shape (xml : jsstring) (root : XmlElement) :
  parseXml xml = Ok root → parsedOk root = true.
Proof.
  unfold parseXml. intros H.
  destruct (parseContent _ _ _) as [[d l'] | |] eqn:E; try discriminate.
  destruct (selectRoot (children d) None) as [[r0|] | |] eqn:Es; try discriminate.
  injection H as ->.
  destruct (Yields_parseContent _ (mkXmlElement (mkXmlName [] []) [] []) eq_refl _ _ _ E)
    as (_ & _ & Hc).
  destruct (selectRoot_In _ _ _ Es) as [? | Hin]; [discriminate|].
  rewrite forallb_forall in Hc. exact (Hc _ Hin).
Qed.

Lemma parsed_tree_shape_witness :
  parseXml test_document = Ok (Mapper.parsed test_document)
  ∧ parsedOk (Mapper.parsed test_document) = true.
Proof.
  assert (H : parseXml test_document = Ok (Mapper.parsed test_document))
    by (vm_compute; reflexivity).
  split; [exact H | exact (parsed_tree_shape _ _ H)].
Defined.

(* ===================================================================== *)
(** * The projection: attributes, child rules, text-only mappers           *)
(* ===================================================================== *)

Module MapperOps.
Import Mapper.

Lemma processAttrs_xmlns (b : Builder) (path : ValuePath) :
  ∀ attrs res remainingAttrs,
    processAttrs b path attrs res remainingAttrs
    = processAttrs b path (List.filter (fun p => negb (isXmlnsAttr (fst p))) attrs)
        res remainingAttrs.
Proof.
  intros attrs0. induction attrs0 as [|[nm value] attrs0 IH]; intros res0 rem0; [reflexivity|].
  cbn [processAttrs List.filter fst]. unfold isXmlnsAttr at 1.
  destruct (jsstring_eqb (prefix nm) (str "xmlns")
            || jsstring_eqb (XmlName.toString nm) (str "xmlns")) eqn:E; cbn [negb].
  - apply IH.
  - cbn [processAttrs]. rewrite E.
    destruct (dictGet am_name (name nm) (attrMappings b)) as [m|]; [|reflexivity].
    destruct (parse _ _ _); [apply IH | reflexivity..].
Qed.

(** Namespace declarations never reach the projection.  An attribute
    whose prefix is [xmlns], or whose whole name is [xmlns], is passed
    over: the projection of an element is the projection of the element
    without these attributes, in its result and in its errors, whatever
    the rules are. *)
Theorem xmlns_attributes_ignored (b : Builder) (path : ValuePath)
    (n : XmlName) (a : list (XmlName * jsstring)) (c : list XmlNode) :
  build b (mkXmlElement n a c) path
  = build b (mkXmlElement n (List.filter (fun p => negb (isXmlnsAttr (fst p))) a) c) path.
Proof.
  unfold build, mapChildren. cbn [ename attrs children].
  rewrite processAttrs_xmlns. reflexivity.
Qed.

Lemma In_setNew (x : jsstring) : ∀ names acc,
  In x names ∨ In x acc → In x (setNew names acc).
Proof.
  induction names as [|n names IH]; intros acc H; cbn [setNew].
  - destruct H as [[] | H]; exact H.
  - destruct (existsb (jsstring_eqb n) acc) eqn:E.
    + apply IH. destruct H as [[<- | H] | H]; auto.
      right. apply existsb_exists in E as (y & Hy & Ey).
      apply jsstring_eqb_eq in Ey. subst y. exact Hy.
    + apply IH. destruct H as [[<- | H] | H]; auto.
      * right. apply in_or_app. right. left. reflexivity.
      * right. apply in_or_app. left. exact H.
Qed.

Lemma In_setDelete (x n : jsstring) (s : list jsstring) :
  In x s → x = n ∨ In x (setDelete n s).
Proof.
  intros H. destruct (jsstring_eqb x n) eqn:E.
  - left. apply jsstring_eqb_eq, E.
  - right. unfold setDelete. apply filter_In. split; [exact H|]. rewrite E. reflexivity.
Qed.

Lemma processAttrs_Ok (b : Builder) (path : ValuePath) :
  ∀ attrs res0 rem0 res1 rem1,
    processAttrs b path attrs res0 rem0 = Ok (res1, rem1) →
    (∀ nm value, In (nm, value) attrs → isXmlnsAttr nm = false →
       ∃ m p, dictGet am_name (name nm) (attrMappings b) = Some m
              ∧ parse (am_validator m)
                  (andThen path (str "Attr " ++ XmlName.toString nm)) value = Ok p)
    ∧ (∀ x, In x rem0 →
         In x rem1
         ∨ ∃ nm value, In (nm, value) attrs ∧ isXmlnsAttr nm = false ∧ name nm = x).
Proof.
  intros attrs0. induction attrs0 as [|[nm value] attrs0 IH]; intros res0 rem0 res1 rem1 H;
    cbn [processAttrs] in H.
  - injection H as <- <-. split; [intros ? ? [] | auto].
  - fold (isXmlnsAttr nm) in H. destruct (isXmlnsAttr nm) eqn:Ex.
    + destruct (IH _ _ _ _ H) as [Ha Hr]. split.
      * intros nm' value' [E | Hin] Hx; [injection E as <- <-; congruence | eauto].
      * intros x Hx. destruct (Hr x Hx) as [? | (nm' & value' & Hin & ? & ?)]; [auto|].
        right. exists nm', value'. split; [right; exact Hin | auto].
    + destruct (dictGet am_name (name nm) (attrMappings b)) as [m|] eqn:Em; [|discriminate].
      destruct (parse _ _ _) as [p | |] eqn:Ep; [|discriminate..].
      destruct (IH _ _ _ _ H) as [Ha Hr]. split.
      * intros nm' value' [E | Hin] Hx; [injection E as <- <-; eauto | eauto].
      * intros x Hx. destruct (In_setDelete x (name nm) rem0 Hx) as [-> | Hx'].
        { right. exists nm, value. split; [left; reflexivity | auto]. }
        destruct (Hr x Hx') as [? | (nm' & value' & Hin & ? & ?)]; [auto|].
        right. exists nm', value'. split; [right; exact Hin | auto].
Qed.

(** The attribute pass is strict in both directions.  When the
    projection succeeds, every attribute of the element that is not a
    namespace declaration has a rule under its local name, whose
    validator accepted the value at the path "Attr <name>"; and every
    rule that is not optional, the [ignoreAttr] rules among them, names
    the local name of such an attribute. *)
Theorem attributes_strict (b : Builder) (elem : XmlElement) (path : ValuePath) (v : Val) :
  build b elem path = Ok v →
  (∀ nm value, In (nm, value) (attrs elem) → isXmlnsAttr nm = false →
     ∃ m p, dictGet am_name (name nm) (attrMappings b) = Some m
            ∧ parse (am_validator m)
                (andThen path (str "Attr " ++ XmlName.toString nm)) value = Ok p)
  ∧ (∀ a, In a (attrMappings b) → am_optional a = false →
       ∃ nm value, In (nm, value) (attrs elem) ∧ isXmlnsAttr nm = false
                   ∧ name nm = am_name a).
Proof.
  unfold build. destruct (match expectedName b with Some _ => _ | None => _ end);
    [discriminate|].
  destruct (processAttrs _ _ _ _ _) as [[res0 rem1] | |] eqn:E; [|discriminate..].
  destruct rem1; [|discriminate]. intros _.
  destruct (processAttrs_Ok _ _ _ _ _ _ _ E) as [Ha Hr]. split; [exact Ha|].
  intros a Hin Hopt.
  destruct (Hr (am_name a)) as [[] | H]; [|exact H].
  apply In_setNew. left. unfold requiredAttrNames. apply in_map.
  apply filter_In. split; [exact Hin | rewrite Hopt; reflexivity].
Qed.

Lemma processChildren_rules (b : Builder) (path : ValuePath) :
  ∀ cs k st st',
    processChildren b path k cs st = Ok st' →
    ∀ i child, cs !! i = Some (Elem child) →
      ∃ m val, dictGet em_name (name (ename child)) (elemMappings b) = Some m
               ∧ em_mapper m child (elemChildPath path (k + i) child) = Ok val.
Proof.
  induction cs as [|c cs IH]; intros k st st' H i child Hi; [discriminate|].
  cbn [processChildren] in H.
  destruct (processChild b path k c st) as [st1 | |] eqn:E1; [|discriminate..].
  destruct i as [|i].
  - injection Hi as ->. cbn [processChild] in E1.
    destruct (dictGet em_name _ _) as [m|]; [|discriminate].
    replace (k + 0) with k by lia. unfold elemChildPath.
    destruct (em_mapper m child _) as [val | |] eqn:Ev; [|discriminate..].
    exists m, val. split; [reflexivity | exact Ev].
  - replace (k + S i) with (S k + i) by lia. exact (IH _ _ _ H i child Hi).
Qed.

(** The loop over the children is strict about elements and counts.
    When the projection succeeds, every child element has a rule under
    its local name, whose mapper returned on it with the path of the
    child (its index and rendered name), and every rule in force finds
    at least the number of children it requires: none for an optional
    rule, one for a required rule, the minimum for a repeated rule. *)
Theorem children_strict (b : Builder) (elem : XmlElement) (path : ValuePath) (v : Val) :
  build b elem path = Ok v →
  (∀ i child, children elem !! i = Some (Elem child) →
     ∃ m val, dictGet em_name (name (ename child)) (elemMappings b) = Some m
              ∧ em_mapper m child (elemChildPath path i child) = Ok val)
  ∧ (∀ nm m, dictGet em_name nm (elemMappings b) = Some m →
       (requiredCount m ≤ Z.of_nat (countNamed nm (children elem)))%Z).
Proof.
  intros H. destruct (MapperFacts.build_Ok_inv _ _ _ _ H) as (res0 & st & Hst & Hpos & _ & _).
  split.
  - intros i child Hi. exact (processChildren_rules _ _ _ _ _ _ Hst i child Hi).
  - intros nm m Hm.
    pose proof (MapperFacts.processChildren_count b path nm _ _ _ _ Hst) as Hc.
    unfold initialState in Hc. cbn [remainingElemCounts] in Hc.
    rewrite (MapperFacts.counterGet_counterNew b nm m Hm) in Hc.
    destruct (Z_lt_le_dec (Z.of_nat (countNamed nm (children elem))) (requiredCount m))
      as [Hlt | Hle]; [|exact Hle].
    exfalso. apply (MapperFacts.positiveEntries_nonempty (remainingElemCounts st) nm);
      [lia | exact Hpos].
Qed.


Section RepeatedRule.
Variables (b : Builder) (path : ValuePath) (nm : jsstring) (m : ElemMapping).
Hypothesis rule : dictGet em_name nm (elemMappings b) = Some m.
Hypothesis mode : em_mode m = repeated.
Hypothesis kept : em_ignore m = false.
Hypothesis text_elsewhere :
  ∀ tm, textMapping b = Some tm → tm_ignore tm = true ∨ tm_name tm ≠ nm.






End RepeatedRule.


(** A text-only mapper sees the text children and nothing else.  Its
    outcome is that of the validator on the strings among the children,
    joined in order, at the path given or at the path "Text content";
    child elements do not count: the outcome is the same before and after
    [filterOut], whatever the query removes, and after an element is
    appended, whereas an appended string is appended to the text. *)
Theorem text_only_mapper (q : XmlQuery) (e c : XmlElement) (t : jsstring)
    (validator : Validator) (path : option ValuePath) :
  let at_ := match path with Some p => p | None => [str "Text content"] end in
  xmlTextOnlyMapper validator path (XmlElement.filterOut q e)
  = xmlTextOnlyMapper validator path e
  ∧ xmlTextOnlyMapper validator path (XmlElement.appendChild e (Elem c))
    = xmlTextOnlyMapper validator path e
  ∧ xmlTextOnlyMapper validator path (XmlElement.appendChild e (Text t))
    = parse validator at_ (XmlElement.combinedText e ++ t)
  ∧ xmlTextOnlyMapper validator path e
    = parse validator at_
        (concat (omap (fun x => match x with Text s => Some s | Elem _ => None end)
                   (children e))).
Proof.
  intros at_.
  assert (H : XmlElement.combinedText (XmlElement.filterOut q e) = XmlElement.combinedText e).
  { destruct e as [n a cs]. unfold XmlElement.combinedText.
    cbn [XmlElement.filterOut children]. f_equal.
    induction cs as [|[s | d] cs IH]; [reflexivity | cbn [flat_map]; f_equal; exact IH |].
    destruct (negb (XmlElement.matches q d)); cbn [flat_map app]; exact IH. }
  split; [unfold xmlTextOnlyMapper; rewrite H; reflexivity|].
  unfold xmlTextOnlyMapper, XmlElement.combinedText, XmlElement.appendChild, join.
  cbn [children]. rewrite !flat_map_app, !concat_app. cbn. rewrite !app_nil_r.
  split; [reflexivity|]. split; [reflexivity|]. subst at_. do 2 f_equal.
  induction (children e) as [|[s | d] cs IH]; [reflexivity | cbn; f_equal; exact IH | exact IH].
Qed.

Lemma attributes_strict_witness :
  build testBuilder (parsed testDocument) [str "root"]
  = Ok (VObject
          [(str "created", VParsed 1612501200000);
           (str "User", VArray [VObject [(str "id", VParsed 1)];
                                VObject [(str "id", VParsed 2)]]);
           (str "Group", VArray [])])
  ∧ (∀ nm value, In (nm, value) (attrs (parsed testDocument)) → isXmlnsAttr nm = false →
       ∃ m p, dictGet am_name (name nm) (attrMappings testBuilder) = Some m
              ∧ parse (am_validator m)
                  (andThen [str "root"] (str "Attr " ++ XmlName.toString nm)) value = Ok p)
  ∧ (∀ a, In a (attrMappings testBuilder) → am_optional a = false →
       ∃ nm value, In (nm, value) (attrs (parsed testDocument)) ∧ isXmlnsAttr nm = false
                   ∧ name nm = am_name a).
Proof.
  assert (H : build testBuilder (parsed testDocument) [str "root"]
              = Ok (VObject
                      [(str "created", VParsed 1612501200000);
                       (str "User", VArray [VObject [(str "id", VParsed 1)];
                                            VObject [(str "id", VParsed 2)]]);
                       (str "Group", VArray [])]))
    by (vm_compute; reflexivity).
  split; [exact H|]. exact (attributes_strict _ _ _ _ H).
Defined.

Lemma children_strict_witness :
  build testBuilder (parsed testDocument) [str "root"]
  = Ok (VObject
          [(str "created", VParsed 1612501200000);
           (str "User", VArray [VObject [(str "id", VParsed 1)];
                                VObject [(str "id", VParsed 2)]]);
           (str "Group", VArray [])])
  ∧ (∀ i child, children (parsed testDocument) !! i = Some (Elem child) →
       ∃ m val, dictGet em_name (name (ename child)) (elemMappings testBuilder) = Some m
                ∧ em_mapper m child (elemChildPath [str "root"] i child) = Ok val)
  ∧ (∀ nm m, dictGet em_name nm (elemMappings testBuilder) = Some m →
       (requiredCount m ≤ Z.of_nat (countNamed nm (children (parsed testDocument))))%Z).
Proof.
  assert (H : build testBuilder (parsed testDocument) [str "root"]
              = Ok (VObject
                      [(str "created", VParsed 1612501200000);
                       (str "User", VArray [VObject [(str "id", VParsed 1)];
                                            VObject [(str "id", VParsed 2)]]);
                       (str "Group", VArray [])]))
    by (vm_compute; reflexivity).
  split; [exact H|]. exact (children_strict _ _ _ _ H).
Defined.


End MapperOps.

(* ===================================================================== *)
(** * Malformed attributes                                                 *)
(* ===================================================================== *)

Lemma FailsAt_expectOneOf_other (charset : jsstring) (b : jschar) (s : jsstring) :
  includes charset b = false →
  FailsAt (expectOneOf charset) (b :: s)
    (str "Expected one of {" ++ charset ++ str "} but got " ++ [b]) s.
Proof.
  intros Hb. unfold expectOneOf.
  eapply FailsAt_bind_r; [apply Runs_consume | apply Tracks_consume |].
  rewrite Hb. apply FailsAt_throwErr.
Qed.

(** The loop over the attributes on one more attribute name, behind the
    attributes [attrs]: what goes wrong behind the name [an] goes wrong
    for the tag. *)
Lemma FailsAt_content_attr (fuel : nat) (parent : XmlElement) (n : XmlName)
    (attrs : list AttrSource) (lead : jsstring) (an : XmlName)
    (before : jsstring) (y : jschar) (t d t' : jsstring) :
  wfName n = true → forallb attrOk attrs = true →
  match attrs with a :: _ => truthy (as_lead a) | [] => truthy lead end = true →
  isSpace lead = true → wfName an = true → isSpace before = true →
  includes ALPHANUMERIC y = false → jschar_eqb y (chr ":") = false →
  includes WHITESPACE y = false →
  (∀ fuel0 acc,
     FailsAt (expect (chr "=") ;;
              skipWhile WHITESPACE ;;
              let* attrQuote := expectOneOf QUOTE in
              let* attrValue := parseTextOrValue attrQuote in
              expect attrQuote ;;
              openingTag_loop fuel0 (acc ++ [(an, attrValue)]))
             (y :: t) d t') →
  FailsAt (parseContent (S fuel) parent)
    (str "<" ++ XmlName.toString n ++ flat_map writeAttr attrs
     ++ lead ++ XmlName.toString an ++ before ++ y :: t) d t'.
Proof.
  intros Hn Hattrs Hlead Hl Han Hb Hy1 Hy2 Hy3 Hk.
  destruct (wfName_head an Han) as (x & tl & Ex & Hx).
  eapply Reaches_FailsAt.
  { apply Reaches_content_name; [exact Hn|].
    apply nameEnds_attrs; [exact Hattrs | destruct attrs; [reflexivity | exact Hlead] |].
    intros ->. apply nameEnds_lead; [exact Hl | exact Hlead]. }
  apply FailsAt_bind_l.
  apply FailsAt_openingTag; [exact Hattrs|].
  intros fuel0 acc. cbn [openingTag_loop].
  fail_with Runs_skipWhile_space.
  { exact Hl. }
  { rewrite Ex. cbn [app]. eapply headIn_other; [exact Hx | reflexivity]. }
  fail_with Runs_skipIf_false.
  { rewrite Ex. cbn [app]. eapply headIs_other; [exact Hx | reflexivity]. }
  fail_with Runs_skipIf_false.
  { rewrite Ex. cbn [app]. eapply headIs_other; [exact Hx | reflexivity]. }
  eapply FailsAt_bind_r; [|tracks|].
  { destruct (space_head before (y :: t) y t Hb eq_refl Hy1 Hy2) as (z & tl' & E & Hz1 & Hz2).
    apply Runs_parseName; [exact Han | rewrite E; exact Hz1 | rewrite E; exact Hz2]. }
  cbv beta.
  fail_with Runs_skipWhile_space; [exact Hb | cbn [headIn]; exact Hy3 |].
  apply Hk.
Qed.

(** An attribute needs its [=] and a quoted value.  In an opening tag,
    behind the element name and any well-formed attributes, wherever the
    tag stands and whatever follows: an attribute name followed (after
    optional white space) by a character that is not part of a name and
    is not [=] is rejected with "Expected = but got <char>", and [=]
    followed (after optional white space) by a character that is not a
    quote with
    "Expected one of {'<dquote>} but got <char>"; a [/] that is not
    followed by [>] is rejected with "Expected > but got <char>".  The
    position of the error is just behind the offending character. *)
Theorem attribute_syntax (frames : list Frame) (pre : list Item)
    (n : XmlName) (attrs : list AttrSource) (rest : jsstring) :
  forallb frameOk frames = true → itemsOk pre = true →
  wfName n = true → forallb attrOk attrs = true →
  (∀ lead an before y,
     match attrs with a :: _ => truthy (as_lead a) | [] => truthy lead end = true →
     isSpace lead = true → wfName an = true → isSpace before = true →
     includes ALPHANUMERIC y = false → includes WHITESPACE y = false →
     y ≠ chr ":" → y ≠ chr "=" →
     let bad := str "<" ++ XmlName.toString n ++ flat_map writeAttr attrs
                ++ lead ++ XmlName.toString an ++ before ++ [y] in
     parseXml (writeContext frames ++ writeItems pre ++ bad ++ rest)
     = Throw (parseErrorAfter (str "Expected = but got " ++ [y])
                (writeContext frames ++ writeItems pre ++ bad)))
  ∧ (∀ lead an before after y,
       match attrs with a :: _ => truthy (as_lead a) | [] => truthy lead end = true →
       isSpace lead = true → wfName an = true → isSpace before = true →
       isSpace after = true →
       includes QUOTE y = false → includes WHITESPACE y = false →
       let bad := str "<" ++ XmlName.toString n ++ flat_map writeAttr attrs
                  ++ lead ++ XmlName.toString an ++ before ++ str "=" ++ after ++ [y] in
       parseXml (writeContext frames ++ writeItems pre ++ bad ++ rest)
       = Throw (parseErrorAfter (str "Expected one of {" ++ QUOTE ++ str "} but got " ++ [y])
                  (writeContext frames ++ writeItems pre ++ bad)))
  ∧ (∀ space y,
       match attrs with a :: _ => truthy (as_lead a) | [] => true end = true →
       isSpace space = true → y ≠ chr ">" →
       let bad := str "<" ++ XmlName.toString n ++ flat_map writeAttr attrs
                  ++ space ++ str "/" ++ [y] in
       parseXml (writeContext frames ++ writeItems pre ++ bad ++ rest)
       = Throw (parseErrorAfter (str "Expected > but got " ++ [y])
                  (writeContext frames ++ writeItems pre ++ bad))).
Proof.
  intros Hok Hpre Hn Hattrs.
  assert (Hgen : ∀ bad d,
             stopsAt (chr "<") (bad ++ rest) = true →
             (∀ fuel, FailsAt (parseContent (S fuel)
                                 (addChildren (innermost frames dummyRoot) (itemsNodes pre)))
                              (bad ++ rest) d rest) →
             parseXml (writeContext frames ++ writeItems pre ++ bad ++ rest)
             = Throw (parseErrorAfter d (writeContext frames ++ writeItems pre ++ bad))).
  { intros bad d. apply parseXml_fails_in_context; assumption. }
  split; [|split].
  - intros lead an before y Hlead Hl Han Hb Hy1 Hy3 Hy2 Hy4 bad.
    apply Hgen; [reflexivity|]. intros fuel. subst bad.
    repeat rewrite <- app_assoc. cbn [app].
    apply FailsAt_content_attr; try assumption.
    + apply jschar_eqb_neq, Hy2.
    + intros fuel0 acc. apply FailsAt_bind_l. apply FailsAt_expect_other, Hy4.
  - intros lead an before after y Hlead Hl Han Hb Haf Hy1 Hy2 bad.
    apply Hgen; [reflexivity|]. intros fuel. subst bad.
    repeat rewrite <- app_assoc. change (str "=") with [chr "="]. cbn [app].
    apply FailsAt_content_attr; try assumption; try reflexivity.
    intros fuel0 acc. fail_with Runs_expect.
    fail_with Runs_skipWhile_space; [exact Haf | cbn [headIn]; exact Hy2 |].
    apply FailsAt_bind_l. apply FailsAt_expectOneOf_other, Hy1.
  - intros space y Hlead Hsp Hy bad.
    apply Hgen; [reflexivity|]. intros fuel. subst bad.
    repeat rewrite <- app_assoc. change (str "/") with [chr "/"]. cbn [app].
    eapply Reaches_FailsAt.
    { apply Reaches_content_name; [exact Hn|].
      apply nameEnds_attrs; [exact Hattrs | exact Hlead|]. intros _.
      apply nameEnds_space; [exact Hsp | reflexivity]. }
    apply FailsAt_bind_l.
    apply FailsAt_openingTag; [exact Hattrs|].
    intros fuel0 acc. cbn [openingTag_loop].
    fail_with Runs_skipWhile_space; [exact Hsp | reflexivity |].
    fail_with Runs_skipIf_true.
    apply FailsAt_bind_l. apply FailsAt_expect_other, Hy.
Qed.

Lemma attribute_syntax_witness :
  parseXml (str "<r><a b>") = Throw (parseErrorAfter (str "Expected = but got >") (str "<r><a b>"))
  ∧ parseXml (str "<r><a b=1>")
    = Throw (parseErrorAfter (str "Expected one of {'" ++ [DQUOTE] ++ str "} but got 1")
               (str "<r><a b=1"))
  ∧ parseXml (str "<r><a /x>")
    = Throw (parseErrorAfter (str "Expected > but got x") (str "<r><a /x")).
Proof.
  split; [|split].
  - apply (proj1 (attribute_syntax [mkFrame [] (mkXmlName [] (str "r")) [] []] []
                    (mkXmlName [] (str "a")) [] [] eq_refl eq_refl eq_refl eq_refl)
             (str " ") (mkXmlName [] (str "b")) [] (chr ">"));
      try reflexivity; discriminate.
  - apply (proj1 (proj2 (attribute_syntax [mkFrame [] (mkXmlName [] (str "r")) [] []] []
                           (mkXmlName [] (str "a")) [] (str ">")
                           eq_refl eq_refl eq_refl eq_refl))
             (str " ") (mkXmlName [] (str "b")) [] [] (chr "1")); reflexivity.
  - apply (proj2 (proj2 (attribute_syntax [mkFrame [] (mkXmlName [] (str "r")) [] []] []
                           (mkXmlName [] (str "a")) [] (str ">")
                           eq_refl eq_refl eq_refl eq_refl))
             (str " ") (chr "x")); try reflexivity; discriminate.
Defined.
